(** * A radix tree keyed by byte strings: model of [radix.go] and its properties

    The Go package keeps a compressed prefix tree behind pointers and mutates
    it in place.  Every node is referenced by exactly one edge (or by the
    tree, for the root), so a node and everything below it is modelled as a
    value of an inductive type, and a write through a node pointer becomes
    the replacement of that node inside its parent's edge slice.

    - a Go [string] is a sequence of bytes: [list ascii];
    - [for { ... }] loops take a fuel argument; the public operations supply
      more fuel than the tree is high, which is shown to be enough, and a
      loop that returns with some fuel returns the same with more;
    - [panic] and the exhaustion of fuel are two outcomes of the [result]
      type, distinct from a normal return;
    - [t.size] is a Go [int].  It counts live leaves, each of which occupies
      memory, so it stays far below the range of [int]; it is modelled in
      [Z] without wrap-around. *)

From stdpp Require Import gmap strings list fin_maps sorting.
From Stdlib Require Import ZArith Ascii.

Set Default Proof Using "Type".

(** ** Outcomes of a call *)

Inductive result (A : Type) : Type :=
  | Ok (a : A)
  | Panic (msg : string)
  | OutOfFuel.
Arguments Ok {A} a.
Arguments Panic {A} msg.
Arguments OutOfFuel {A}.

Global Instance result_ret : MRet result := λ A a, Ok a.
Global Instance result_bind : MBind result := λ A B f m,
  match m with
  | Ok a => f a
  | Panic msg => Panic msg
  | OutOfFuel => OutOfFuel
  end.

(** ** Bytes and strings *)

Abbreviation byte := ascii (only parsing).
Abbreviation gostring := (list ascii) (only parsing).

Definition str (s : string) : gostring := String.list_ascii_of_string s.

Definition byte_eqb (a b : byte) : bool := (N_of_ascii a =? N_of_ascii b)%N.
Definition byte_ltb (a b : byte) : bool := (N_of_ascii a <? N_of_ascii b)%N.
Definition byte_leb (a b : byte) : bool := (N_of_ascii a <=? N_of_ascii b)%N.
Definition byte_lt (a b : byte) : Prop := (N_of_ascii a < N_of_ascii b)%N.
Global Instance byte_lt_dec : RelDecision byte_lt :=
  λ a b, N.lt_dec (N_of_ascii a) (N_of_ascii b).

(** The order of Go's [<] on strings: byte-wise, a proper prefix first. *)
Fixpoint key_ltb (a b : gostring) : bool :=
  match a, b with
  | [], [] => false
  | [], _ :: _ => true
  | _ :: _, [] => false
  | x :: a', y :: b' =>
      if byte_ltb x y then true
      else if byte_eqb x y then key_ltb a' b' else false
  end.
Definition key_lt (a b : gostring) : Prop := key_ltb a b = true.

(** [strings.HasPrefix(s, prefix)]:
    [len(s) >= len(prefix) && s[:len(prefix)] == prefix]. *)
Definition hasPrefix (s p : gostring) : bool :=
  (length p <=? length s) && bool_decide (take (length p) s = p).

(** [sort.Search(n, f)]: binary search for the least index in [0, n) at
    which [f] holds, [n] if there is none.  The interval halves at every
    step, so [n] steps are enough. *)
Fixpoint search_loop (fuel : nat) (f : nat → bool) (i j : nat) : nat :=
  match fuel with
  | O => i
  | S fuel =>
      if i <? j then
        let h := (i + j) / 2 in
        if negb (f h) then search_loop fuel f (h + 1) j
        else search_loop fuel f i h
      else i
  end.
Definition sort_Search (n : nat) (f : nat → bool) : nat := search_loop n f 0 n.

Module Radix.

Section radix.
Context {V : Type}.
(** [zeroVal[V]()] *)
Variable zeroVal : V.

(** ** Data *)

Record leafNode : Type := mkLeaf { key : gostring; val : V }.

(** An edge is the pair of its label and the node it points to. *)
#[local] Unset Elimination Schemes.
Inductive node : Type :=
  Node { leaf : option leafNode;
         prefix : gostring;
         edges : list (byte * node) }.
#[local] Set Elimination Schemes.

Abbreviation edge := (byte * node)%type (only parsing).
Definition label (e : edge) : byte := e.1.
Definition enode (e : edge) : node := e.2.

Record Tree : Type := mkTree { root : node; size : Z }.

Definition set_leaf (n : node) (l : option leafNode) : node :=
  Node l (prefix n) (edges n).
Definition set_prefix (n : node) (p : gostring) : node :=
  Node (leaf n) p (edges n).
Definition set_edges (n : node) (es : list edge) : node :=
  Node (leaf n) (prefix n) es.

Definition isLeaf (n : node) : bool :=
  match leaf n with Some _ => true | None => false end.

(** ** Edge slices *)

(** [sort.Sort] on an edge slice, by label.  The labels of a slice handed to
    it are pairwise distinct, so the result does not depend on the sorting
    algorithm; insertion sort is used here. *)
Fixpoint sort_insert (e : edge) (es : list edge) : list edge :=
  match es with
  | [] => [e]
  | x :: r =>
      if byte_ltb (label x) (label e) then x :: sort_insert e r
      else e :: x :: r
  end.
Definition Sort (es : list edge) : list edge := foldr sort_insert [] es.

Definition addEdge (n : node) (e : edge) : node :=
  set_edges n (Sort (edges n ++ [e])).

(** The index computed by the three edge operations:
    [sort.Search(num, func(i) bool { return n.edges[i].label >= label })]. *)
Definition searchEdge (es : list edge) (lbl : byte) : nat :=
  sort_Search (length es)
    (λ i, match es !! i with
          | Some e => byte_leb lbl (label e)
          | None => false
          end).

(** The position of the edge with the given label, if the search finds it:
    [idx < num && n.edges[idx].label == label]. *)
Definition findEdge (es : list edge) (lbl : byte) : option nat :=
  let idx := searchEdge es lbl in
  match es !! idx with
  | Some e => if byte_eqb (label e) lbl then Some idx else None
  | None => None
  end.

Definition getEdge (n : node) (lbl : byte) : option node :=
  match findEdge (edges n) lbl with
  | Some idx => enode <$> edges n !! idx
  | None => None
  end.

(** [n.edges[idx].node = node] where [n.edges[idx].label == label]: the
    edge at [idx] becomes [(label, node)]. *)
Definition updateEdge (n : node) (lbl : byte) (c : node) : result node :=
  match findEdge (edges n) lbl with
  | Some idx => Ok (set_edges n (<[idx := (lbl, c)]> (edges n)))
  | None => Panic "replacing missing edge"
  end.

Definition delEdge (n : node) (lbl : byte) : node :=
  match findEdge (edges n) lbl with
  | Some idx => set_edges n (delete idx (edges n))
  | None => n
  end.

(** A write through the pointer that [getEdge n lbl] returned: the node
    stored behind that edge of [n] becomes [c]. *)
Definition storeEdge (n : node) (lbl : byte) (c : node) : node :=
  match findEdge (edges n) lbl with
  | Some idx => set_edges n (<[idx := (lbl, c)]> (edges n))
  | None => n
  end.

(** [e := n.edges[0]]; indexing an empty slice panics. *)
Definition mergeChild (n : node) : result node :=
  match edges n with
  | e :: _ =>
      let child := enode e in
      Ok (Node (leaf child) (prefix n ++ prefix child) (edges child))
  | [] => Panic "index out of range"
  end.

(** ** Measures *)

Fixpoint height (n : node) : nat :=
  match n with
  | Node _ _ es =>
      S ((fix go (es : list edge) : nat :=
            match es with
            | [] => 0
            | e :: es' => Nat.max (height e.2) (go es')
            end) es)
  end.

(** The number of nodes at and below [n]. *)
Fixpoint nodes (n : node) : nat :=
  match n with
  | Node _ _ es =>
      S ((fix go (es : list edge) : nat :=
            match es with
            | [] => 0
            | e :: es' => nodes e.2 + go es'
            end) es)
  end.

(** ** longestPrefix *)

(** The length of the shared prefix of two strings. *)
Fixpoint longestPrefix (k1 k2 : gostring) : nat :=
  match k1, k2 with
  | a :: k1', b :: k2' => if byte_eqb a b then S (longestPrefix k1' k2') else 0
  | _, _ => 0
  end.

(** ** Insert *)

(** One turn of the loop of [Insert] at node [n] with [search] left of the
    key [s]; the result is [n] after the call, the new value of [t.size] and
    the returned pair. *)
Fixpoint insert_loop (fuel : nat) (n : node) (search s : gostring) (v : V)
    (sz : Z) : result (node * Z * (V * bool)) :=
  match fuel with
  | O => OutOfFuel
  | S fuel =>
      match search with
      | [] =>
          match leaf n with
          | Some lf =>
              Ok (set_leaf n (Some (mkLeaf (key lf) v)), sz, (val lf, true))
          | None =>
              Ok (set_leaf n (Some (mkLeaf s v)), (sz + 1)%Z, (zeroVal, false))
          end
      | c :: _ =>
          let parent := n in
          match getEdge parent c with
          | None =>
              let e := (c, Node (Some (mkLeaf s v)) search []) in
              Ok (addEdge parent e, (sz + 1)%Z, (zeroVal, false))
          | Some n =>
              let commonPrefix := longestPrefix search (prefix n) in
              if commonPrefix =? length (prefix n) then
                '(n', sz', r) ← insert_loop fuel n (drop commonPrefix search) s v sz;
                Ok (storeEdge parent c n', sz', r)
              else
                let sz := (sz + 1)%Z in
                let child := Node None (take commonPrefix search) [] in
                parent ← updateEdge parent c child;
                lbl ← match prefix n !! commonPrefix with
                       | Some b => Ok b
                       | None => Panic "index out of range"
                       end;
                let child :=
                  addEdge child (lbl, set_prefix n (drop commonPrefix (prefix n))) in
                let lf := mkLeaf s v in
                let search := drop commonPrefix search in
                match search with
                | [] =>
                    let child := set_leaf child (Some lf) in
                    Ok (storeEdge parent c child, sz, (zeroVal, false))
                | c' :: _ =>
                    let child := addEdge child (c', Node (Some lf) search []) in
                    Ok (storeEdge parent c child, sz, (zeroVal, false))
                end
          end
      end
  end.

Definition Insert (t : Tree) (s : gostring) (v : V) : result (Tree * (V * bool)) :=
  '(r, sz, res) ← insert_loop (S (height (root t))) (root t) s s v (size t);
  Ok (mkTree r sz, res).

(** ** Delete *)

(** The loop variables [parent] and [label] of [Delete] and the argument
    [parent] of [deletePrefix]: the node one step up, the label of the edge
    that was followed, and whether that node is [t.root].  [None] is [nil];
    the node at hand is then the root. *)
Abbreviation context := (option (node * byte * bool)) (only parsing).

Definition is_nil (parent : context) : bool :=
  match parent with None => true | Some _ => false end.

(** The node at hand, put back behind the edge it was reached by. *)
Definition reattach (parent : context) (n : node) : node :=
  match parent with
  | None => n
  | Some (p, lbl, _) => storeEdge p lbl n
  end.

(** The code after the label [DELETE]: [n] holds the leaf [lf]. *)
Definition delete_found (parent : context) (n : node) (lf : leafNode) (sz : Z)
    : result (node * Z * V) :=
  let n := set_leaf n None in
  let sz := (sz - 1)%Z in
  match parent with
  | None =>
      (* [parent == nil] and [n == t.root] *)
      Ok (n, sz, val lf)
  | Some (parent, lbl, parent_is_root) =>
      (* [parent != nil && len(n.edges) == 0]; [n != t.root] *)
      '(parent, attached) ←
        (if length (edges n) =? 0 then Ok (delEdge parent lbl, false)
         else Ok (parent, true));
      n ← (if length (edges n) =? 1 then mergeChild n else Ok n);
      let parent := if attached : bool then storeEdge parent lbl n else parent in
      parent ←
        (if negb parent_is_root && (length (edges parent) =? 1)
            && negb (isLeaf parent)
         then mergeChild parent else Ok parent);
      Ok (parent, sz, val lf)
  end.

(** One turn of the loop of [Delete].  [Ok None] is the exit through
    [break]: nothing has been written.  Otherwise the result is the topmost
    node touched ([parent] if there is one, else [n]) after the call. *)
Fixpoint delete_loop (fuel : nat) (parent : context) (n : node)
    (search : gostring) (sz : Z) : result (option (node * Z * V)) :=
  match fuel with
  | O => OutOfFuel
  | S fuel =>
      match search with
      | [] =>
          match leaf n with
          | None => Ok None
          | Some lf => r ← delete_found parent n lf sz; Ok (Some r)
          end
      | lbl :: _ =>
          match getEdge n lbl with
          | None => Ok None
          | Some child =>
              if hasPrefix search (prefix child) then
                r ← delete_loop fuel (Some (n, lbl, is_nil parent))
                      child (drop (length (prefix child)) search) sz;
                match r with
                | None => Ok None
                | Some (n', sz', v) => Ok (Some (reattach parent n', sz', v))
                end
              else Ok None
          end
      end
  end.

Definition Delete (t : Tree) (s : gostring) : result (Tree * (V * bool)) :=
  r ← delete_loop (S (height (root t))) None (root t) s (size t);
  match r with
  | None => Ok (t, (zeroVal, false))
  | Some (r, sz, v) => Ok (mkTree r sz, (v, true))
  end.

(** ** Walking *)

(** A callback [WalkFn] may write to variables it has captured; [St] is the
    type of their contents. *)
Definition WalkFn (St : Type) : Type := gostring → V → St → St * bool.

(** [recursiveWalk]: pre-order; [true] is returned as soon as the callback
    asks to stop. *)
Fixpoint recursiveWalk {St : Type} (n : node) (fn : WalkFn St) (st : St) : St * bool :=
  match n with
  | Node lf _ es =>
      let children :=
        fix children (es : list edge) (st : St) : St * bool :=
          match es with
          | [] => (st, false)
          | e :: es' =>
              let '(st, stop) := recursiveWalk e.2 fn st in
              if stop then (st, true) else children es' st
          end in
      match lf with
      | Some lf =>
          let '(st, stop) := fn (key lf) (val lf) st in
          if stop then (st, true) else children es st
      | None => children es st
      end
  end.

Definition Walk {St : Type} (t : Tree) (fn : WalkFn St) (st : St) : St :=
  (recursiveWalk (root t) fn st).1.

(** ** DeletePrefix *)

(** [deletePrefix(parent, n, prefix)].  [Ok (None, 0)] is [return 0]:
    nothing has been written.  Otherwise the first component is the topmost
    node touched after the call, with the new [t.size]. *)
Fixpoint deletePrefix (fuel : nat) (parent : context) (n : node)
    (pfx : gostring) (sz : Z) : result (option (node * Z) * Z) :=
  match fuel with
  | O => OutOfFuel
  | S fuel =>
      match pfx with
      | [] =>
          let subTreeSize :=
            (recursiveWalk n (λ _ _ (c : Z), ((c + 1)%Z, false)) 0%Z).1 in
          let n := if isLeaf n then set_leaf n None else n in
          let n := set_edges n [] in
          match parent with
          | None => Ok (Some (n, (sz - subTreeSize)%Z), subTreeSize)
          | Some (parent, lbl, parent_is_root) =>
              let parent := storeEdge parent lbl n in
              parent ←
                (if negb parent_is_root && (length (edges parent) =? 1)
                    && negb (isLeaf parent)
                 then mergeChild parent else Ok parent);
              Ok (Some (parent, (sz - subTreeSize)%Z), subTreeSize)
          end
      | lbl :: _ =>
          match getEdge n lbl with
          | None => Ok (None, 0%Z)
          | Some child =>
              if negb (hasPrefix (prefix child) pfx)
                 && negb (hasPrefix pfx (prefix child))
              then Ok (None, 0%Z)
              else
                let pfx :=
                  if length pfx <? length (prefix child)
                  then drop (length pfx) pfx
                  else drop (length (prefix child)) pfx in
                '(r, cnt) ← deletePrefix fuel (Some (n, lbl, is_nil parent))
                              child pfx sz;
                match r with
                | None => Ok (None, cnt)
                | Some (n', sz') => Ok (Some (reattach parent n', sz'), cnt)
                end
          end
      end
  end.

Definition DeletePrefix (t : Tree) (s : gostring) : result (Tree * Z) :=
  '(r, cnt) ← deletePrefix (S (height (root t))) None (root t) s (size t);
  match r with
  | None => Ok (t, cnt)
  | Some (r, sz) => Ok (mkTree r sz, cnt)
  end.

(** ** Queries *)

Definition New : Tree := mkTree (Node None [] []) 0.

Definition Len (t : Tree) : Z := size t.

Fixpoint get_loop (fuel : nat) (n : node) (search : gostring) : result (V * bool) :=
  match fuel with
  | O => OutOfFuel
  | S fuel =>
      match search with
      | [] =>
          match leaf n with
          | Some lf => Ok (val lf, true)
          | None => Ok (zeroVal, false)
          end
      | c :: _ =>
          match getEdge n c with
          | None => Ok (zeroVal, false)
          | Some n =>
              if hasPrefix search (prefix n)
              then get_loop fuel n (drop (length (prefix n)) search)
              else Ok (zeroVal, false)
          end
      end
  end.

Definition Get (t : Tree) (s : gostring) : result (V * bool) :=
  get_loop (S (height (root t))) (root t) s.

(** The value returned once the loop of [LongestPrefix] is left. *)
Definition longest_result (last : option leafNode) : gostring * V * bool :=
  match last with
  | Some lf => (key lf, val lf, true)
  | None => ([], zeroVal, false)
  end.

Fixpoint longest_loop (fuel : nat) (last : option leafNode) (n : node)
    (search : gostring) : result (gostring * V * bool) :=
  match fuel with
  | O => OutOfFuel
  | S fuel =>
      let last := match leaf n with Some lf => Some lf | None => last end in
      match search with
      | [] => Ok (longest_result last)
      | c :: _ =>
          match getEdge n c with
          | None => Ok (longest_result last)
          | Some n =>
              if hasPrefix search (prefix n)
              then longest_loop fuel last n (drop (length (prefix n)) search)
              else Ok (longest_result last)
          end
      end
  end.

Definition LongestPrefix (t : Tree) (s : gostring) : result (gostring * V * bool) :=
  longest_loop (S (height (root t))) None (root t) s.

Fixpoint minimum_loop (fuel : nat) (n : node) : result (gostring * V * bool) :=
  match fuel with
  | O => OutOfFuel
  | S fuel =>
      match leaf n with
      | Some lf => Ok (key lf, val lf, true)
      | None =>
          match edges n with
          | e :: _ => minimum_loop fuel (enode e)
          | [] => Ok ([], zeroVal, false)
          end
      end
  end.

Definition Minimum (t : Tree) : result (gostring * V * bool) :=
  minimum_loop (S (height (root t))) (root t).

Fixpoint maximum_loop (fuel : nat) (n : node) : result (gostring * V * bool) :=
  match fuel with
  | O => OutOfFuel
  | S fuel =>
      match last (edges n) with
      | Some e => maximum_loop fuel (enode e)
      | None =>
          match leaf n with
          | Some lf => Ok (key lf, val lf, true)
          | None => Ok ([], zeroVal, false)
          end
      end
  end.

Definition Maximum (t : Tree) : result (gostring * V * bool) :=
  maximum_loop (S (height (root t))) (root t).

Fixpoint walkPrefix_loop {St : Type} (fuel : nat) (n : node) (search : gostring)
    (fn : WalkFn St) (st : St) : result St :=
  match fuel with
  | O => OutOfFuel
  | S fuel =>
      match search with
      | [] => Ok (recursiveWalk n fn st).1
      | c :: _ =>
          match getEdge n c with
          | None => Ok st
          | Some n =>
              if hasPrefix search (prefix n)
              then walkPrefix_loop fuel n (drop (length (prefix n)) search) fn st
              else if hasPrefix (prefix n) search
              then Ok (recursiveWalk n fn st).1
              else Ok st
          end
      end
  end.

Definition WalkPrefix {St : Type} (t : Tree) (pfx : gostring) (fn : WalkFn St)
    (st : St) : result St :=
  walkPrefix_loop (S (height (root t))) (root t) pfx fn st.

(** [WalkPath]: the leaves met on the way from the root down to [path]. *)
Fixpoint walkPath_loop {St : Type} (fuel : nat) (n : node) (search : gostring)
    (fn : WalkFn St) (st : St) : result St :=
  match fuel with
  | O => OutOfFuel
  | S fuel =>
      let '(st, stop) :=
        match leaf n with
        | Some lf => fn (key lf) (val lf) st
        | None => (st, false)
        end in
      if stop then Ok st
      else
        match search with
        | [] => Ok st
        | c :: _ =>
            match getEdge n c with
            | None => Ok st
            | Some n =>
                if hasPrefix search (prefix n)
                then walkPath_loop fuel n (drop (length (prefix n)) search) fn st
                else Ok st
            end
        end
  end.

Definition WalkPath {St : Type} (t : Tree) (path : gostring) (fn : WalkFn St)
    (st : St) : result St :=
  walkPath_loop (S (height (root t))) (root t) path fn st.

(** [ToMap]: the callback writes to the captured map [out]; the size given
    to [make] is a capacity, not a content. *)
Definition ToMap (t : Tree) : gmap gostring V :=
  Walk t (λ k v (out : gmap gostring V), (<[k := v]> out, false)) ∅.

(** [NewFromMap(m)].  [range] over a Go map yields every entry once, in an
    order that the language leaves open: [entries] is the sequence it
    yields.  [New()] is [NewFromMap(nil)], which yields nothing. *)
Fixpoint insert_all (t : Tree) (entries : list (gostring * V)) : result Tree :=
  match entries with
  | [] => Ok t
  | (k, v) :: entries => r ← Insert t k v; insert_all r.1 entries
  end.

Definition NewFromMap (entries : list (gostring * V)) : result Tree :=
  insert_all (mkTree (Node None [] []) 0) entries.

(** ** Contents, well-formedness and the reference dictionary *)

Definition leaf_entry (lf : option leafNode) : list (gostring * V) :=
  match lf with
  | Some lf => [(key lf, val lf)]
  | None => []
  end.

(** The entries below a node, in the order of [recursiveWalk]. *)
Fixpoint leaves (n : node) : list (gostring * V) :=
  match n with
  | Node lf _ es =>
      leaf_entry lf ++
      (fix children (es : list edge) : list (gostring * V) :=
         match es with
         | [] => []
         | e :: es' => leaves e.2 ++ children es'
         end) es
  end.

Definition children_leaves (es : list edge) : list (gostring * V) :=
  es ≫= λ e, leaves e.2.

Definition sorted_edges (es : list edge) : Prop :=
  StronglySorted (λ e1 e2, byte_lt (label e1) (label e2)) es.

(** [wf pre n]: [n] hangs below a node whose path from the root spells
    [pre].  A leaf stores the key spelled by the path to its node, the edges
    are in strictly ascending order of their labels, and a label is the
    first byte of the prefix of the node behind it. *)
Fixpoint wf (pre : gostring) (n : node) : Prop :=
  match n with
  | Node lf p es =>
      (∀ l, lf = Some l → key l = pre ++ p) ∧
      sorted_edges es ∧
      (fix children (es : list edge) : Prop :=
         match es with
         | [] => True
         | e :: es' =>
             (head (prefix e.2) = Some e.1 ∧ wf (pre ++ p) e.2) ∧ children es'
         end) es
  end.

(** What every operation keeps of a tree. *)
Record Inv (t : Tree) : Prop := mkInv {
  inv_root_prefix : prefix (root t) = [];
  inv_wf : wf [] (root t);
  inv_size : size t = Z.of_nat (length (leaves (root t)))
}.

(** The dictionary a tree stands for. *)
Definition abs (t : Tree) : gmap gostring V := list_to_map (leaves (root t)).

(** The public mutating operations, as data. *)
Inductive op : Type :=
  | OpInsert (s : gostring) (v : V)
  | OpDelete (s : gostring)
  | OpDeletePrefix (s : gostring).

Definition step (t : Tree) (o : op) : result Tree :=
  match o with
  | OpInsert s v => r ← Insert t s v; Ok r.1
  | OpDelete s => r ← Delete t s; Ok r.1
  | OpDeletePrefix s => r ← DeletePrefix t s; Ok r.1
  end.

(** The calls of [ops] one after the other, starting on [t]. *)
Fixpoint run (t : Tree) (ops : list op) : result Tree :=
  match ops with
  | [] => Ok t
  | o :: ops => t ← step t o; run t ops
  end.

Definition reachable (t : Tree) : Prop := ∃ ops, run New ops = Ok t.

(** The same calls on a finite map: the keys present and their values. *)
Definition model_step (m : gmap gostring V) (o : op) : gmap gostring V :=
  match o with
  | OpInsert s v => <[s := v]> m
  | OpDelete s => delete s m
  | OpDeletePrefix s => filter (λ kv, ¬ s `prefix_of` kv.1) m
  end.

Definition model (ops : list op) : gmap gostring V := foldl model_step ∅ ops.

(** The answer of a lookup for a key whose value in the dictionary is [o]. *)
Definition found (o : option V) : V * bool :=
  match o with
  | Some v => (v, true)
  | None => (zeroVal, false)
  end.

(** A callback that never asks to stop. *)
Definition never_stops {St : Type} (fn : WalkFn St) : Prop :=
  ∀ k v st, (fn k v st).2 = false.

(** The state after the calls [fn k v] for the entries of [l] in turn. *)
Definition visit {St : Type} (fn : WalkFn St) (l : list (gostring * V)) (st : St) : St :=
  foldl (λ st e, (fn e.1 e.2 st).1) st l.

(** The callback [fn] with a log of the calls made to it. *)
Definition logged {St : Type} (fn : WalkFn St) : WalkFn (St * list (gostring * V)) :=
  λ k v '(st, log), let '(st', stop) := fn k v st in ((st', log ++ [(k, v)]), stop).

(** The calls [fn k v] for the entries of [l] in turn, up to and including
    the first one that asks to stop; the flag tells whether one did. *)
Fixpoint visit_until {St : Type} (fn : WalkFn St) (l : list (gostring * V))
    (st : St) : St * bool :=
  match l with
  | [] => (st, false)
  | kv :: l =>
      let '(st, stop) := fn kv.1 kv.2 st in
      if stop then (st, true) else visit_until fn l st
  end.

(** The entries of [l] up to and including the first one at which [stop]
    holds. *)
Fixpoint up_to_first (stop : gostring * V → bool) (l : list (gostring * V))
    : list (gostring * V) :=
  match l with
  | [] => []
  | kv :: l => kv :: (if stop kv then [] else up_to_first stop l)
  end.

(** ** Invariants 1, 3 and 4 of the specification, as checks *)

Definition labels_ascending (es : list edge) : bool :=
  bool_decide (StronglySorted (λ e1 e2 : edge, byte_lt (label e1) (label e2)) es).

Fixpoint inv1 (n : node) : bool :=
  match n with
  | Node _ _ es =>
      labels_ascending es &&
      (fix children (es : list edge) : bool :=
         match es with
         | [] => true
         | e :: es' => inv1 e.2 && children es'
         end) es
  end.

Definition inv3 (t : Tree) : bool := bool_decide (prefix (root t) = []).

(** No node with exactly one edge and no leaf, at or below [n]. *)
Fixpoint compressed (n : node) : bool :=
  match n with
  | Node _ _ es =>
      negb ((length es =? 1) && negb (isLeaf n)) &&
      (fix children (es : list edge) : bool :=
         match es with
         | [] => true
         | e :: es' => compressed e.2 && children es'
         end) es
  end.

(** Invariant 4: the root is exempt. *)
Definition inv4 (t : Tree) : bool :=
  forallb (λ e : edge, compressed e.2) (edges (root t)).

(** [kv] is an entry of [l] whose key is a prefix of [s], and no longer key
    of [l] is one. *)
Definition longest_match (s : gostring) (l : list (gostring * V))
    (kv : gostring * V) : Prop :=
  kv ∈ l ∧ kv.1 `prefix_of` s ∧
  ∀ kv', kv' ∈ l → kv'.1 `prefix_of` s → length kv'.1 ≤ length kv.1.

(** ** Path compression *)

(** A node earns its place by a leaf or by a fork. *)
Definition justified (n : node) : bool :=
  isLeaf n || (2 <=? length (edges n)).

(** Every node strictly below [n] is justified. *)
Fixpoint compact (n : node) : bool :=
  match n with
  | Node _ _ es =>
      (fix children (es : list edge) : bool :=
         match es with
         | [] => true
         | e :: es' => justified e.2 && compact e.2 && children es'
         end) es
  end.

(** No call of [DeletePrefix] among [ops]. *)
Definition no_DeletePrefix (ops : list op) : Prop :=
  Forall (λ o, match o with OpDeletePrefix _ => False | _ => True end) ops.

(** The answer of [Minimum] and [Maximum] for the entry [o]. *)
Definition extremum (o : option (gostring * V)) : gostring * V * bool :=
  match o with
  | Some (k, v) => (k, v, true)
  | None => ([], zeroVal, false)
  end.

(** The value most recently assigned to [k] by the calls [Insert(k', v)] for
    the pairs of [ins], in this order. *)
Definition last_assigned (k : gostring) (ins : list (gostring * V)) : option V :=
  foldl (λ acc kv, if decide (kv.1 = k) then Some kv.2 else acc) None ins.

(** ** The frame of a loop *)

(** What a loop holds of the node at hand and of the one above it. *)
Definition ctx_ok (pre : gostring) (parent : option (node * byte * bool))
    (n : node) : Prop :=
  match parent with
  | None => wf pre n
  | Some (p, lbl, _) => wf pre p ∧ getEdge p lbl = Some n
  end.

(** The topmost node that a write can reach. *)
Definition top (parent : option (node * byte * bool)) (n : node) : node :=
  match parent with
  | None => n
  | Some (p, _, _) => p
  end.

(** The bytes spelled on the way from the root to the node at hand. *)
Definition path (pre : gostring) (parent : option (node * byte * bool))
    (n : node) : gostring :=
  match parent with
  | None => pre ++ prefix n
  | Some (p, _, _) => (pre ++ prefix p) ++ prefix n
  end.

Definition top_is_root (parent : option (node * byte * bool)) : bool :=
  match parent with
  | None => true
  | Some (_, _, r) => r
  end.

(** * Proofs *)

(** ** Bytes, strings and binary search *)

Lemma byte_eqb_eq a b : byte_eqb a b = true ↔ a = b.
Proof.
  unfold byte_eqb. rewrite N.eqb_eq. split; [|by intros ->].
  intros H. rewrite <-(ascii_N_embedding a), <-(ascii_N_embedding b). by rewrite H.
Qed.
Lemma byte_eqb_refl a : byte_eqb a a = true.
Proof. by apply byte_eqb_eq. Qed.
Lemma byte_eqb_neq a b : byte_eqb a b = false ↔ a ≠ b.
Proof. rewrite <-byte_eqb_eq. destruct (byte_eqb a b); naive_solver. Qed.
Lemma byte_ltb_lt a b : byte_ltb a b = true ↔ byte_lt a b.
Proof. apply N.ltb_lt. Qed.
Lemma byte_ltb_nlt a b : byte_ltb a b = false ↔ ¬ byte_lt a b.
Proof. rewrite <-byte_ltb_lt. destruct (byte_ltb a b); naive_solver. Qed.
Lemma byte_leb_le a b : byte_leb a b = true ↔ ¬ byte_lt b a.
Proof. unfold byte_leb, byte_lt. rewrite N.leb_le. lia. Qed.
Lemma byte_lt_irrefl a : ¬ byte_lt a a.
Proof. unfold byte_lt. lia. Qed.
Lemma byte_lt_trans a b c : byte_lt a b → byte_lt b c → byte_lt a c.
Proof. unfold byte_lt. lia. Qed.
Lemma byte_lt_ne a b : byte_lt a b → a ≠ b.
Proof. intros H ->. by apply byte_lt_irrefl in H. Qed.
Lemma byte_lt_total a b : byte_lt a b ∨ a = b ∨ byte_lt b a.
Proof.
  destruct (byte_eqb a b) eqn:E; [apply byte_eqb_eq in E; auto|].
  unfold byte_eqb in E. apply N.eqb_neq in E. unfold byte_lt. lia.
Qed.

Lemma hasPrefix_spec s p : hasPrefix s p = true ↔ p `prefix_of` s.
Proof.
  unfold hasPrefix. rewrite andb_true_iff, Nat.leb_le, bool_decide_eq_true. split.
  - intros [_ <-]. apply prefix_take.
  - intros [k ->]. rewrite length_app, take_app_length. split; [lia|done].
Qed.
Lemma hasPrefix_false s p : hasPrefix s p = false ↔ ¬ p `prefix_of` s.
Proof. rewrite <-hasPrefix_spec. destruct (hasPrefix s p); naive_solver. Qed.

Lemma longestPrefix_le_l a b : longestPrefix a b ≤ length a.
Proof.
  revert b. induction a as [|x a IH]; intros [|y b]; simpl; try lia.
  destruct (byte_eqb x y); simpl; [specialize (IH b)|]; lia.
Qed.
Lemma longestPrefix_le_r a b : longestPrefix a b ≤ length b.
Proof.
  revert b. induction a as [|x a IH]; intros [|y b]; simpl; try lia.
  destruct (byte_eqb x y); simpl; [specialize (IH b)|]; lia.
Qed.
Lemma longestPrefix_take a b :
  take (longestPrefix a b) a = take (longestPrefix a b) b.
Proof.
  revert b. induction a as [|x a IH]; intros [|y b]; simpl; try done.
  destruct (byte_eqb x y) eqn:E; simpl; [|done].
  apply byte_eqb_eq in E as ->. by rewrite IH.
Qed.
Lemma longestPrefix_mismatch a b x y :
  a !! longestPrefix a b = Some x → b !! longestPrefix a b = Some y → x ≠ y.
Proof.
  revert b. induction a as [|x' a IH]; intros [|y' b]; simpl; try done.
  destruct (byte_eqb x' y') eqn:E; simpl; [by apply IH|].
  apply byte_eqb_neq in E. naive_solver.
Qed.
Lemma longestPrefix_full a b :
  longestPrefix a b = length b ↔ b `prefix_of` a.
Proof.
  split.
  - intros H. pose proof (longestPrefix_take a b) as Ht.
    rewrite H, firstn_all in Ht. rewrite <-Ht. apply prefix_take.
  - intros [k ->]. induction b as [|y b IH]; simpl; [by destruct k|].
    by rewrite byte_eqb_refl, IH.
Qed.

(** binary search *)
Lemma search_loop_spec (n : nat) (f : nat → bool) :
  (∀ a b, a ≤ b → b < n → f a = true → f b = true) →
  ∀ fuel i j, j - i ≤ fuel → i ≤ j → j ≤ n →
    (∀ k, k < i → f k = false) → (∀ k, j ≤ k → k < n → f k = true) →
    let r := search_loop fuel f i j in
    r ≤ n ∧ (∀ k, k < r → f k = false) ∧ (∀ k, r ≤ k → k < n → f k = true).
Proof.
  intros Hmono fuel.
  induction fuel as [|fuel IH]; intros i j Hf Hij Hjn Hlo Hhi; cbn [search_loop].
  { assert (i = j) as -> by lia. auto. }
  destruct (Nat.ltb_spec i j) as [Hlt|Hge]; [|assert (i = j) as -> by lia; auto].
  assert (i ≤ (i + j) / 2 ∧ (i + j) / 2 < j) as [H1 H2].
  { split; [apply Nat.div_le_lower_bound|apply Nat.Div0.div_lt_upper_bound]; lia. }
  set (h := (i + j) / 2) in *.
  destruct (f h) eqn:Eh; cbn [negb].
  - apply IH; try lia; [done|].
    intros k Hk Hkn. apply (Hmono h); auto.
  - apply IH; try lia; [|done].
    intros k Hk. destruct (f k) eqn:Ek; [|done].
    rewrite <-Eh. symmetry. apply (Hmono k); [lia|lia|done].
Qed.

(** ** Sorted edge slices *)

Lemma sorted_edges_lookup es i j e1 e2 :
  sorted_edges es → i < j → es !! i = Some e1 → es !! j = Some e2 →
  byte_lt (label e1) (label e2).
Proof.
  intros Hs Hij H1 H2. rewrite <-(take_drop j es) in Hs.
  eapply (StronglySorted_app_1_elem_of _ _ _ e1 e2 Hs).
  - apply list_elem_of_lookup. exists i. by rewrite lookup_take_lt.
  - apply list_elem_of_lookup. exists 0. by rewrite lookup_drop, Nat.add_0_r.
Qed.

Lemma searchEdge_spec es lbl :
  sorted_edges es →
  searchEdge es lbl ≤ length es ∧
  (∀ k e, k < searchEdge es lbl → es !! k = Some e → byte_lt (label e) lbl) ∧
  (∀ k e, searchEdge es lbl ≤ k → es !! k = Some e → ¬ byte_lt (label e) lbl).
Proof.
  intros Hs. unfold searchEdge, sort_Search.
  set (f := λ i, match es !! i with Some e => byte_leb lbl (label e) | None => false end).
  destruct (search_loop_spec (length es) f) with (fuel := length es) (i := 0) (j := length es)
    as (Hr & Hlo & Hhi); try lia.
  - intros a b Hab Hb. unfold f.
    destruct (lookup_lt_is_Some_2 es b Hb) as [eb Heb].
    destruct (lookup_lt_is_Some_2 es a) as [ea Hea]; [lia|].
    rewrite Hea, Heb, !byte_leb_le. intros Ha Hlt. apply Ha.
    destruct (decide (a = b)) as [->|]; [congruence|].
    eapply byte_lt_trans; [|done].
    apply (sorted_edges_lookup es a b ea eb); auto with lia.
  - split_and!; [done| |].
    + intros k e Hk He. specialize (Hlo k Hk). unfold f in Hlo. rewrite He in Hlo.
      destruct (byte_leb lbl (label e)) eqn:E; [done|].
      unfold byte_leb in E. apply N.leb_gt in E. done.
    + intros k e Hk He. specialize (Hhi k Hk (lookup_lt_Some _ _ _ He)).
      unfold f in Hhi. rewrite He in Hhi. by apply byte_leb_le.
Qed.

Lemma findEdge_Some es lbl i :
  findEdge es lbl = Some i →
  ∃ a c b, es = a ++ (lbl, c) :: b ∧ length a = i.
Proof.
  unfold findEdge. destruct (es !! searchEdge es lbl) as [[l c]|] eqn:E; [|done].
  destruct (byte_eqb _ _) eqn:El; [|done]. intros [= <-].
  apply byte_eqb_eq in El. simpl in El. subst l.
  exists (take (searchEdge es lbl) es), c, (drop (S (searchEdge es lbl)) es).
  split; [by rewrite take_drop_middle|].
  rewrite length_take. apply lookup_lt_Some in E. lia.
Qed.

Lemma findEdge_middle a lbl c b :
  sorted_edges (a ++ (lbl, c) :: b) →
  findEdge (a ++ (lbl, c) :: b) lbl = Some (length a).
Proof.
  intros Hs. destruct (searchEdge_spec _ lbl Hs) as (Hr & Hlo & Hhi).
  assert (searchEdge (a ++ (lbl, c) :: b) lbl = length a) as Hidx.
  { set (r := searchEdge _ _) in *.
    assert ((a ++ (lbl, c) :: b) !! length a = Some (lbl, c)) as Hmid
      by (by rewrite list_lookup_middle).
    destruct (decide (r = length a)) as [|Hne]; [done|exfalso].
    destruct (decide (r < length a)) as [Hlt|Hge].
    - destruct (lookup_lt_is_Some_2 (a ++ (lbl, c) :: b) r) as [e He].
      { rewrite length_app. lia. }
      apply (Hhi r e); [lia|done|].
      apply (sorted_edges_lookup (a ++ (lbl, c) :: b) r (length a) e (lbl, c)); auto.
    - apply (byte_lt_irrefl lbl). apply (Hlo (length a) (lbl, c)); [lia|done]. }
  unfold findEdge. rewrite Hidx, list_lookup_middle by done. simpl.
  by rewrite byte_eqb_refl.
Qed.

Lemma findEdge_None es lbl :
  sorted_edges es → findEdge es lbl = None → lbl ∉ es.*1.
Proof.
  intros Hs Hf Hin. apply list_elem_of_fmap in Hin as ([l c] & -> & Hin).
  apply list_elem_of_split in Hin as (a & b & ->).
  rewrite findEdge_middle in Hf by done. done.
Qed.

Lemma list_insert_middle {A} (a b : list A) (x y : A) :
  <[length a := y]> (a ++ x :: b) = a ++ y :: b.
Proof. by rewrite <-(Nat.add_0_r (length a)), insert_app_r. Qed.

Lemma elem_of_middle {A} (a b : list A) (x : A) : x ∈ a ++ x :: b.
Proof. apply elem_of_app. right. by left. Qed.

Lemma getEdge_Some n lbl c :
  getEdge n lbl = Some c → ∃ a b, edges n = a ++ (lbl, c) :: b.
Proof.
  unfold getEdge. destruct (findEdge _ _) as [i|] eqn:E; [|done].
  apply findEdge_Some in E as (a & c' & b & Hes & <-).
  rewrite Hes, list_lookup_middle by done. intros [= <-]. eauto.
Qed.

Lemma getEdge_None n lbl :
  sorted_edges (edges n) → getEdge n lbl = None → lbl ∉ (edges n).*1.
Proof.
  unfold getEdge. intros Hs. destruct (findEdge _ _) as [i|] eqn:E.
  - apply findEdge_Some in E as (a & c' & b & Hes & <-).
    by rewrite Hes, list_lookup_middle.
  - intros _. by apply findEdge_None.
Qed.

Section at_edge.
Context (n : node) (a b : list (byte * node)) (lbl : byte) (c : node).
Hypothesis Hes : edges n = a ++ (lbl, c) :: b.
Hypothesis Hs : sorted_edges (edges n).

Lemma getEdge_middle : getEdge n lbl = Some c.
Proof using Hes Hs.
  unfold getEdge. rewrite Hes in *.
  by rewrite findEdge_middle, list_lookup_middle.
Qed.
Lemma updateEdge_middle c' :
  updateEdge n lbl c' = Ok (set_edges n (a ++ (lbl, c') :: b)).
Proof using Hes Hs.
  unfold updateEdge. rewrite Hes in *. rewrite findEdge_middle by done.
  by rewrite list_insert_middle.
Qed.
Lemma storeEdge_middle c' :
  storeEdge n lbl c' = set_edges n (a ++ (lbl, c') :: b).
Proof using Hes Hs.
  unfold storeEdge. rewrite Hes in *. rewrite findEdge_middle by done.
  by rewrite list_insert_middle.
Qed.
Lemma delEdge_middle : delEdge n lbl = set_edges n (a ++ b).
Proof using Hes Hs.
  unfold delEdge. rewrite Hes in *. rewrite findEdge_middle by done.
  by rewrite delete_middle.
Qed.
End at_edge.

(** The panic of [updateEdge] cannot follow a successful [getEdge]. *)
Lemma updateEdge_after_getEdge n lbl c c' :
  getEdge n lbl = Some c →
  ∃ a b, edges n = a ++ (lbl, c) :: b ∧
         updateEdge n lbl c' = Ok (set_edges n (a ++ (lbl, c') :: b)).
Proof.
  unfold getEdge, updateEdge. destruct (findEdge _ _) as [i|] eqn:E; [|done].
  apply findEdge_Some in E as (a & c0 & b & Hes & <-).
  rewrite Hes, list_lookup_middle by done. intros [= <-].
  exists a, b. by rewrite list_insert_middle.
Qed.

Lemma sort_insert_head e es :
  Forall (λ x, byte_lt (label e) (label x)) es → sort_insert e es = e :: es.
Proof.
  destruct es as [|x r]; [done|]. intros [Hx _]%Forall_cons. simpl.
  assert (byte_ltb (label x) (label e) = false) as ->; [|done].
  apply byte_ltb_nlt. intros H. eapply byte_lt_irrefl, byte_lt_trans; eauto.
Qed.

Lemma Sort_snoc es lbl c :
  sorted_edges es → lbl ∉ es.*1 →
  ∃ a b, es = a ++ b ∧ Sort (es ++ [(lbl, c)]) = a ++ (lbl, c) :: b ∧
         sorted_edges (a ++ (lbl, c) :: b).
Proof.
  unfold Sort. rewrite foldr_app. simpl.
  induction es as [|x r IH]; intros Hs Hni.
  { exists [], []. split_and!; [done..|]. repeat constructor. }
  apply StronglySorted_cons in Hs as [Hx Hs].
  rewrite fmap_cons, not_elem_of_cons in Hni. destruct Hni as [Hne Hni].
  destruct (IH Hs Hni) as (a & b & -> & Heq & Hsab). simpl. rewrite Heq.
  apply Forall_app in Hx as [Hxa Hxb].
  destruct a as [|y a].
  - simpl in *. destruct (byte_ltb lbl (label x)) eqn:E.
    + exists [], (x :: b).
      rewrite sort_insert_head by done. split_and!; [done..|].
      apply byte_ltb_lt in E. simpl.
      apply StronglySorted_cons. split.
      * constructor; [done|]. eapply Forall_impl; [exact Hxb|].
        intros z Hz. eapply byte_lt_trans; eauto.
      * apply StronglySorted_cons. split; [done|].
        by apply StronglySorted_cons in Hsab as [_ ?].
    + exists [x], b.
      split_and!; [done..|]. simpl.
      apply StronglySorted_cons. split; [|done].
      constructor; [|done]. apply byte_ltb_nlt in E.
      destruct (byte_lt_total x.1 lbl) as [?|[?|?]]; done.
  - exists (x :: y :: a), b. split_and!; [done| |].
    + rewrite <-app_comm_cons. rewrite sort_insert_head; [done|].
      apply Forall_cons. split; [by apply Forall_cons in Hxa as [? _]|].
      apply Forall_app. split; [by apply Forall_cons in Hxa as [_ ?]|].
      apply Forall_cons. split; [|done].
      apply Forall_cons in Hxa as [Hxy _].
      eapply byte_lt_trans; [exact Hxy|].
      simpl in Hsab. apply StronglySorted_cons in Hsab as [Hy _].
      apply Forall_app in Hy as [_ Hy]. by apply Forall_cons in Hy as [? _].
    + simpl. apply StronglySorted_cons. split; [|done].
      apply Forall_cons. split; [by apply Forall_cons in Hxa as [? _]|].
      apply Forall_app. split; [by apply Forall_cons in Hxa as [_ ?]|].
      apply Forall_cons. split; [|done].
      apply Forall_cons in Hxa as [Hxy _].
      eapply byte_lt_trans; [exact Hxy|].
      simpl in Hsab. apply StronglySorted_cons in Hsab as [Hy _].
      apply Forall_app in Hy as [_ Hy]. by apply Forall_cons in Hy as [? _].
Qed.

(** ** Nodes: unfolding and induction *)

Lemma leaves_Node lf p es :
  leaves (Node lf p es) = leaf_entry lf ++ children_leaves es.
Proof. done. Qed.

Lemma children_leaves_nil : children_leaves [] = [].
Proof. done. Qed.
Lemma children_leaves_cons e es :
  children_leaves (e :: es) = leaves e.2 ++ children_leaves es.
Proof. done. Qed.
Lemma children_leaves_app es1 es2 :
  children_leaves (es1 ++ es2) = children_leaves es1 ++ children_leaves es2.
Proof. unfold children_leaves. apply bind_app. Qed.
Lemma children_leaves_middle a lbl c b :
  children_leaves (a ++ (lbl, c) :: b) =
  children_leaves a ++ leaves c ++ children_leaves b.
Proof. by rewrite children_leaves_app, children_leaves_cons. Qed.

Lemma leaves_eq n : leaves n = leaf_entry (leaf n) ++ children_leaves (edges n).
Proof. destruct n. apply leaves_Node. Qed.

Lemma wf_Node pre lf p es :
  wf pre (Node lf p es) ↔
    (∀ l, lf = Some l → key l = pre ++ p) ∧
    sorted_edges es ∧
    Forall (λ e, head (prefix e.2) = Some e.1 ∧ wf (pre ++ p) e.2) es.
Proof.
  simpl. do 2 (apply and_iff_compat_l).
  induction es as [|e es IH]; [by split; [constructor|]|].
  rewrite Forall_cons, IH. done.
Qed.

Lemma wf_eq pre n :
  wf pre n ↔
    (∀ l, leaf n = Some l → key l = pre ++ prefix n) ∧
    sorted_edges (edges n) ∧
    Forall (λ e, head (prefix e.2) = Some e.1 ∧ wf (pre ++ prefix n) e.2) (edges n).
Proof. destruct n. apply wf_Node. Qed.

Lemma height_Node lf p es :
  height (Node lf p es) = S (max_list (height ∘ snd <$> es)).
Proof.
  simpl. f_equal. induction es as [|e es IH]; [done|]. by rewrite IH.
Qed.

Lemma height_pos n : 0 < height n.
Proof. destruct n. rewrite height_Node. lia. Qed.

Lemma height_child n lbl c :
  (lbl, c) ∈ edges n → height c < height n.
Proof.
  destruct n as [lf p es]. rewrite height_Node. simpl. intros Hin.
  assert (height c ≤ max_list (height ∘ snd <$> es)); [|lia].
  apply max_list_elem_of_le. apply list_elem_of_fmap. by exists (lbl, c).
Qed.

Lemma height_getEdge n lbl c : getEdge n lbl = Some c → height c < height n.
Proof.
  intros (a & b & Hes)%getEdge_Some. apply (height_child n lbl).
  rewrite Hes. set_solver.
Qed.

Lemma node_ind (P : node → Prop) :
  (∀ lf p es, Forall (λ e, P e.2) es → P (Node lf p es)) → ∀ n, P n.
Proof.
  intros H n. remember (height n) as h eqn:Hh.
  revert n Hh. induction (lt_wf h) as [h _ IH]. intros [lf p es] ->.
  apply H. apply Forall_forall. intros [l c] Hin. simpl.
  eapply IH; [|done]. by apply (height_child (Node lf p es) l).
Qed.

(** ** Walking *)

Lemma recursiveWalk_never_stops {St} (fn : WalkFn St) n st :
  never_stops fn → recursiveWalk n fn st = (visit fn (leaves n) st, false).
Proof.
  intros Hfn. revert st. induction n as [lf p es IH] using node_ind. intros st.
  rewrite leaves_Node. unfold visit. rewrite foldl_app. simpl.
  assert (∀ st,
    (fix children (es : list (byte * node)) (st : St) : St * bool :=
       match es with
       | [] => (st, false)
       | e :: es' =>
           let '(st, stop) := recursiveWalk e.2 fn st in
           if stop then (st, true) else children es' st
       end) es st = (visit fn (children_leaves es) st, false)) as Hch.
  { induction IH as [|e es He _ IHes]; intros st'; [done|].
    rewrite He, IHes, children_leaves_cons. unfold visit. by rewrite foldl_app. }
  destruct lf as [lf|]; simpl; [|apply Hch].
  specialize (Hfn (key lf) (val lf) st). destruct (fn _ _ _) as [st' stop].
  simpl in *. subst stop. apply Hch.
Qed.

Lemma visit_logged {St} (fn : WalkFn St) l st log :
  never_stops fn →
  visit (logged fn) l (st, log) = (visit fn l st, log ++ l).
Proof.
  intros Hfn. revert st log. induction l as [|[k v] l IH]; intros st log.
  { by rewrite app_nil_r. }
  unfold visit in *. simpl. destruct (fn k v st) as [st' stop] eqn:E. simpl.
  rewrite IH. by rewrite <-app_assoc.
Qed.

Lemma logged_never_stops {St} (fn : WalkFn St) :
  never_stops fn → never_stops (logged fn).
Proof.
  intros Hfn k v [st log]. specialize (Hfn k v st). simpl.
  by destruct (fn k v st).
Qed.

Lemma count_visit l (c : Z) :
  visit (λ _ _ (c : Z), ((c + 1)%Z, false)) l c = (c + Z.of_nat (length l))%Z.
Proof.
  revert c. induction l as [|e l IH]; intros c; simpl; [lia|].
  unfold visit in *. simpl. rewrite IH. lia.
Qed.

(** ** The order on keys *)

Lemma key_lt_irrefl k : ¬ key_lt k k.
Proof.
  unfold key_lt. induction k as [|x k IH]; simpl; [done|].
  assert (byte_ltb x x = false) as -> by (apply byte_ltb_nlt, byte_lt_irrefl).
  by rewrite byte_eqb_refl.
Qed.

Lemma key_lt_app p a b : key_lt (p ++ a) (p ++ b) ↔ key_lt a b.
Proof.
  unfold key_lt. induction p as [|x p IH]; simpl; [done|].
  assert (byte_ltb x x = false) as -> by (apply byte_ltb_nlt, byte_lt_irrefl).
  by rewrite byte_eqb_refl.
Qed.

Lemma key_lt_extend p x r : key_lt p (p ++ x :: r).
Proof. rewrite <-(app_nil_r p) at 1. by apply key_lt_app. Qed.

Lemma key_lt_diverge p x y r1 r2 :
  byte_lt x y → key_lt (p ++ x :: r1) (p ++ y :: r2).
Proof.
  intros Hxy. apply key_lt_app. unfold key_lt. simpl.
  by apply byte_ltb_lt in Hxy as ->.
Qed.

Lemma key_lt_NoDup (l : list gostring) : StronglySorted key_lt l → NoDup l.
Proof.
  induction 1 as [|k l _ IH Hk]; constructor; [|done].
  intros Hin. rewrite Forall_forall in Hk. by apply (key_lt_irrefl k), Hk.
Qed.

Lemma prefix_snoc_inj {A} (p k : list A) (x y : A) :
  p ++ [x] `prefix_of` k → p ++ [y] `prefix_of` k → x = y.
Proof.
  intros [r1 ->] [r2 H]. rewrite <-!app_assoc in H.
  apply app_inv_head in H. by injection H.
Qed.

Lemma prefix_of_head {A} (p q k : list A) (x : A) :
  head q = Some x → p ++ q `prefix_of` k → p ++ [x] `prefix_of` k.
Proof.
  destruct q as [|y q]; [done|]. intros [= ->] [r ->].
  exists (q ++ r). by rewrite <-!app_assoc.
Qed.

(** ** Consequences of well-formedness *)

Lemma wf_path pre pre' lf p p' es :
  pre ++ p = pre' ++ p' → wf pre (Node lf p es) → wf pre' (Node lf p' es).
Proof. rewrite !wf_Node. by intros ->. Qed.

Lemma wf_set_leaf pre n lf :
  (∀ l, lf = Some l → key l = pre ++ prefix n) →
  wf pre n → wf pre (set_leaf n lf).
Proof.
  rewrite !wf_eq. simpl. intros H (_ & ? & ?). done.
Qed.

Lemma wf_keys pre n :
  wf pre n → Forall (λ kv, pre ++ prefix n `prefix_of` kv.1) (leaves n).
Proof.
  revert pre. induction n as [lf p es IH] using node_ind. intros pre.
  rewrite wf_Node, leaves_Node. intros (Hlf & _ & Hes). simpl.
  apply Forall_app. split.
  - destruct lf as [lf|]; [|constructor]. repeat constructor. simpl.
    by rewrite (Hlf lf).
  - apply Forall_forall. intros kv (e & Hkv & He)%list_elem_of_bind.
    rewrite Forall_forall in IH, Hes. destruct (Hes e He) as [_ Hwf].
    specialize (IH e He _ Hwf). rewrite Forall_forall in IH.
    eapply prefix_app_l. by apply IH.
Qed.

Lemma wf_child_keys pre n lbl c kv :
  wf pre n → (lbl, c) ∈ edges n → kv ∈ leaves c →
  (pre ++ prefix n) ++ [lbl] `prefix_of` kv.1.
Proof.
  rewrite wf_eq. intros (_ & _ & Hes) Hin Hkv.
  rewrite Forall_forall in Hes. destruct (Hes _ Hin) as [Hhd Hwf]. simpl in *.
  apply wf_keys in Hwf. rewrite Forall_forall in Hwf.
  eapply prefix_of_head; eauto.
Qed.

(** Below a node, the keys that go on with the byte [lbl] sit behind the
    edge labelled [lbl]. *)
Lemma wf_children_outside pre n lbl es :
  wf pre n → es ⊆ edges n → lbl ∉ es.*1 →
  Forall (λ kv, ¬ ((pre ++ prefix n) ++ [lbl] `prefix_of` kv.1)) (children_leaves es).
Proof.
  intros Hwf Hsub Hni. apply Forall_forall.
  intros kv ([l c] & Hkv & He)%list_elem_of_bind Hpre. simpl in *.
  pose proof (wf_child_keys pre n l c kv Hwf (Hsub _ He) Hkv) as Hpre'.
  assert (lbl = l) as -> by eauto using prefix_snoc_inj.
  apply Hni. apply list_elem_of_fmap. by exists (l, c).
Qed.

Lemma wf_leaf_outside pre n lbl :
  wf pre n →
  Forall (λ kv, ¬ ((pre ++ prefix n) ++ [lbl] `prefix_of` kv.1)) (leaf_entry (leaf n)).
Proof.
  rewrite wf_eq. intros (Hlf & _). destruct (leaf n) as [lf|]; [|constructor].
  repeat constructor. simpl. rewrite (Hlf lf) by done.
  apply prefix_snoc_not.
Qed.

Lemma sorted_edges_middle_labels a lbl c b :
  sorted_edges (a ++ (lbl, c) :: b) → (lbl ∉ a.*1) ∧ (lbl ∉ b.*1).
Proof.
  intros Hs. apply StronglySorted_app in Hs as (Hab & _ & Hb).
  apply StronglySorted_cons in Hb as [Hb _]. rewrite Forall_forall in Hb.
  split; intros ([l c'] & -> & Hin)%list_elem_of_fmap; simpl in *.
  - apply (byte_lt_irrefl l). apply (Hab (l, c') (l, c)); set_solver.
  - apply (byte_lt_irrefl l). by apply (Hb (l, c')).
Qed.

(** The entries of a node around those of one of its children. *)
Lemma wf_split pre n a lbl c b :
  wf pre n → edges n = a ++ (lbl, c) :: b →
  leaves n = (leaf_entry (leaf n) ++ children_leaves a) ++ leaves c ++ children_leaves b ∧
  Forall (λ kv, ¬ ((pre ++ prefix n) ++ [lbl] `prefix_of` kv.1))
    ((leaf_entry (leaf n) ++ children_leaves a) ++ children_leaves b).
Proof.
  intros Hwf Hes. split.
  { by rewrite leaves_eq, Hes, children_leaves_middle, <-!app_assoc. }
  pose proof Hwf as (_ & Hs & _)%wf_eq. rewrite Hes in Hs.
  apply sorted_edges_middle_labels in Hs as [Ha Hb].
  rewrite !Forall_app. split_and!.
  - by apply wf_leaf_outside.
  - apply wf_children_outside; [done| |done]. rewrite Hes. set_solver.
  - apply wf_children_outside; [done| |done]. rewrite Hes. set_solver.
Qed.

Lemma wf_no_edge pre n lbl :
  wf pre n → lbl ∉ (edges n).*1 →
  Forall (λ kv, ¬ ((pre ++ prefix n) ++ [lbl] `prefix_of` kv.1)) (leaves n).
Proof.
  intros Hwf Hni. rewrite leaves_eq, Forall_app. split.
  - by apply wf_leaf_outside.
  - by apply wf_children_outside.
Qed.

Lemma wf_child pre n lbl c :
  wf pre n → (lbl, c) ∈ edges n →
  head (prefix c) = Some lbl ∧ wf (pre ++ prefix n) c.
Proof.
  rewrite wf_eq. intros (_ & _ & Hes) Hin. rewrite Forall_forall in Hes.
  apply (Hes _ Hin).
Qed.

Lemma wf_sorted pre n : wf pre n → StronglySorted key_lt (leaves n).*1.
Proof.
  revert pre. induction n as [lf p es IH] using node_ind. intros pre Hwf.
  rewrite leaves_Node, fmap_app. apply StronglySorted_app. split_and!.
  - intros k1 k2 Hk1 (kv & -> & Hkv)%list_elem_of_fmap.
    apply wf_Node in Hwf as (Hlf & _ & Hes).
    destruct lf as [lf|]; [|by apply elem_of_nil in Hk1].
    apply list_elem_of_singleton in Hk1 as ->. simpl. rewrite (Hlf lf) by done.
    apply list_elem_of_bind in Hkv as ([l c] & Hkv & He).
    rewrite Forall_forall in Hes. destruct (Hes _ He) as [Hhd Hc]. simpl in *.
    apply wf_keys in Hc. rewrite Forall_forall in Hc.
    destruct (Hc _ Hkv) as [r ->]. destruct (prefix c) as [|x q]; [done|].
    rewrite <-(app_assoc (pre ++ p) (x :: q) r). apply key_lt_extend.
  - destruct lf; repeat constructor.
  - apply wf_Node in Hwf as (_ & Hs & Hes).
    induction es as [|[l c] es IHes]; [constructor|].
    apply Forall_cons in IH as [IHc IH]. apply Forall_cons in Hes as [[Hhd Hc] Hes].
    apply StronglySorted_cons in Hs as [Hl Hs].
    rewrite children_leaves_cons, fmap_app. simpl in *. apply StronglySorted_app. split_and!.
    + intros k1 k2 (kv1 & -> & Hkv1)%list_elem_of_fmap (kv2 & -> & Hkv2)%list_elem_of_fmap.
      apply list_elem_of_bind in Hkv2 as ([l2 c2] & Hkv2 & He2). simpl in *.
      rewrite Forall_forall in Hl, Hes. specialize (Hl _ He2).
      destruct (Hes _ He2) as [Hhd2 Hc2]. simpl in *.
      apply wf_keys in Hc, Hc2. rewrite Forall_forall in Hc, Hc2.
      destruct (Hc _ Hkv1) as [r1 ->]. destruct (Hc2 _ Hkv2) as [r2 ->].
      destruct (prefix c) as [|x1 q1], (prefix c2) as [|x2 q2]; try done.
      simplify_eq/=. rewrite <-!(app_assoc (pre ++ p) (_ :: _) _).
      by apply key_lt_diverge.
    + by eapply IHc.
    + by apply IHes.
Qed.

Lemma wf_NoDup pre n : wf pre n → NoDup (leaves n).*1.
Proof. intros. eapply key_lt_NoDup, wf_sorted; eauto. Qed.

(** ** Fuel *)

(** A loop that has returned or panicked with some fuel does the same with
    more: the fuel handed to the loops by the public operations is not part
    of their behaviour. *)

Lemma get_loop_fuel fuel fuel' n search :
  fuel ≤ fuel' → get_loop fuel n search ≠ OutOfFuel →
  get_loop fuel' n search = get_loop fuel n search.
Proof.
  revert fuel' n search.
  induction fuel as [|fuel IH]; intros [|fuel'] n search Hle Hne; try done; [lia|].
  cbn [get_loop] in *. destruct search as [|c rest]; [done|].
  destruct (getEdge n c) as [ch|]; [|done].
  destruct (hasPrefix _ _); [|done]. apply IH; [lia|done].
Qed.

Lemma longest_loop_fuel fuel fuel' last n search :
  fuel ≤ fuel' → longest_loop fuel last n search ≠ OutOfFuel →
  longest_loop fuel' last n search = longest_loop fuel last n search.
Proof.
  revert fuel' last n search.
  induction fuel as [|fuel IH]; intros [|fuel'] last n search Hle Hne; try done; [lia|].
  cbn [longest_loop] in *. destruct search as [|c rest]; [done|].
  destruct (getEdge n c) as [ch|]; [|done].
  destruct (hasPrefix _ _); [|done]. apply IH; [lia|done].
Qed.

Lemma minimum_loop_fuel fuel fuel' n :
  fuel ≤ fuel' → minimum_loop fuel n ≠ OutOfFuel →
  minimum_loop fuel' n = minimum_loop fuel n.
Proof.
  revert fuel' n.
  induction fuel as [|fuel IH]; intros [|fuel'] n Hle Hne; try done; [lia|].
  cbn [minimum_loop] in *. destruct (leaf n); [done|].
  destruct (edges n); [done|]. apply IH; [lia|done].
Qed.

Lemma maximum_loop_fuel fuel fuel' n :
  fuel ≤ fuel' → maximum_loop fuel n ≠ OutOfFuel →
  maximum_loop fuel' n = maximum_loop fuel n.
Proof.
  revert fuel' n.
  induction fuel as [|fuel IH]; intros [|fuel'] n Hle Hne; try done; [lia|].
  cbn [maximum_loop] in *. destruct (last (edges n)); [|done].
  apply IH; [lia|done].
Qed.

Lemma walkPrefix_loop_fuel {St} fuel fuel' n search (fn : WalkFn St) st :
  fuel ≤ fuel' → walkPrefix_loop fuel n search fn st ≠ OutOfFuel →
  walkPrefix_loop fuel' n search fn st = walkPrefix_loop fuel n search fn st.
Proof.
  revert fuel' n search.
  induction fuel as [|fuel IH]; intros [|fuel'] n search Hle Hne; try done; [lia|].
  cbn [walkPrefix_loop] in *. destruct search as [|c rest]; [done|].
  destruct (getEdge n c) as [ch|]; [|done].
  destruct (hasPrefix (c :: rest) _); [|done]. apply IH; [lia|done].
Qed.

Lemma insert_loop_fuel fuel fuel' n search s v sz :
  fuel ≤ fuel' → insert_loop fuel n search s v sz ≠ OutOfFuel →
  insert_loop fuel' n search s v sz = insert_loop fuel n search s v sz.
Proof.
  revert fuel' n search sz.
  induction fuel as [|fuel IH]; intros [|fuel'] n search sz Hle Hne; try done; [lia|].
  cbn [insert_loop] in *. destruct search as [|c rest]; [done|].
  destruct (getEdge n c) as [ch|]; [|done].
  destruct (_ =? _); [|done].
  rewrite IH; [done|lia|]. intros Hrec. by rewrite Hrec in Hne.
Qed.

Lemma delete_loop_fuel fuel fuel' parent n search sz :
  fuel ≤ fuel' → delete_loop fuel parent n search sz ≠ OutOfFuel →
  delete_loop fuel' parent n search sz = delete_loop fuel parent n search sz.
Proof.
  revert fuel' parent n search.
  induction fuel as [|fuel IH]; intros [|fuel'] parent n search Hle Hne;
    try done; [lia|].
  cbn [delete_loop] in *. destruct search as [|c rest]; [done|].
  destruct (getEdge n c) as [ch|]; [|done].
  destruct (hasPrefix _ _); [|done].
  rewrite IH; [done|lia|]. intros Hrec. by rewrite Hrec in Hne.
Qed.

Lemma deletePrefix_fuel fuel fuel' parent n pfx sz :
  fuel ≤ fuel' → deletePrefix fuel parent n pfx sz ≠ OutOfFuel →
  deletePrefix fuel' parent n pfx sz = deletePrefix fuel parent n pfx sz.
Proof.
  revert fuel' parent n pfx.
  induction fuel as [|fuel IH]; intros [|fuel'] parent n pfx Hle Hne;
    try done; [lia|].
  cbn [deletePrefix] in *. destruct pfx as [|c rest]; [done|].
  destruct (getEdge n c) as [ch|]; [|done].
  destruct (_ && _); [done|].
  rewrite IH; [done|lia|]. intros Hrec. by rewrite Hrec in Hne.
Qed.

(** With more fuel than the node is high, the read-only loops return. *)

Lemma get_loop_total fuel n search :
  height n ≤ fuel → ∃ r, get_loop fuel n search = Ok r.
Proof.
  revert n search. induction fuel as [|fuel IH]; intros n search Hh.
  { pose proof (height_pos n). lia. }
  cbn [get_loop]. destruct search as [|c rest]; [destruct (leaf n); eauto|].
  destruct (getEdge n c) as [ch|] eqn:Eg; [|eauto].
  destruct (hasPrefix _ _); [|eauto].
  apply IH. apply height_getEdge in Eg. lia.
Qed.

Lemma longest_loop_total fuel last n search :
  height n ≤ fuel → ∃ r, longest_loop fuel last n search = Ok r.
Proof.
  revert last n search. induction fuel as [|fuel IH]; intros last n search Hh.
  { pose proof (height_pos n). lia. }
  cbn [longest_loop]. destruct search as [|c rest]; [eauto|].
  destruct (getEdge n c) as [ch|] eqn:Eg; [|eauto].
  destruct (hasPrefix _ _); [|eauto].
  apply IH. apply height_getEdge in Eg. lia.
Qed.

Lemma minimum_loop_total fuel n :
  height n ≤ fuel → ∃ r, minimum_loop fuel n = Ok r.
Proof.
  revert n. induction fuel as [|fuel IH]; intros n Hh.
  { pose proof (height_pos n). lia. }
  cbn [minimum_loop]. destruct (leaf n); [eauto|].
  destruct (edges n) as [|[l c] es] eqn:Hes; [eauto|].
  apply IH. unfold enode. simpl.
  assert (height c < height n); [|lia].
  apply (height_child n l c). rewrite Hes. by left.
Qed.

Lemma maximum_loop_total fuel n :
  height n ≤ fuel → ∃ r, maximum_loop fuel n = Ok r.
Proof.
  revert n. induction fuel as [|fuel IH]; intros n Hh.
  { pose proof (height_pos n). lia. }
  cbn [maximum_loop]. destruct (last (edges n)) as [[l c]|] eqn:Hlast.
  - apply IH. unfold enode. simpl.
    assert (height c < height n); [|lia].
    apply (height_child n l c). by apply last_Some_elem_of.
  - destruct (leaf n); eauto.
Qed.

Lemma walkPrefix_loop_total {St} fuel n search (fn : WalkFn St) st :
  height n ≤ fuel → ∃ r, walkPrefix_loop fuel n search fn st = Ok r.
Proof.
  revert n search. induction fuel as [|fuel IH]; intros n search Hh.
  { pose proof (height_pos n). lia. }
  cbn [walkPrefix_loop]. destruct search as [|c rest]; [eauto|].
  destruct (getEdge n c) as [ch|] eqn:Eg; [|eauto].
  destruct (hasPrefix (c :: rest) _); [|destruct (hasPrefix _ _); eauto].
  apply IH. apply height_getEdge in Eg. lia.
Qed.

(** ** Replacing the node behind an edge *)


Lemma leaves_set_prefix n p : leaves (set_prefix n p) = leaves n.
Proof. by destruct n. Qed.

Lemma sorted_edges_replace a lbl c c' b :
  sorted_edges (a ++ (lbl, c) :: b) → sorted_edges (a ++ (lbl, c') :: b).
Proof.
  unfold sorted_edges. rewrite !StronglySorted_app, !StronglySorted_cons.
  intros (Hab & Ha & Hc & Hb). split_and!; [|done..].
  intros x1 x2 Hx1 [->|Hx2]%elem_of_cons.
  - apply (Hab x1 (lbl, c)); set_solver.
  - apply (Hab x1 x2); set_solver.
Qed.

Lemma sorted_edges_remove a e b :
  sorted_edges (a ++ e :: b) → sorted_edges (a ++ b).
Proof.
  unfold sorted_edges. rewrite !StronglySorted_app, !StronglySorted_cons.
  intros (Hab & Ha & Hc & Hb). split_and!; [|done..].
  intros x1 x2 Hx1 Hx2. apply (Hab x1 x2); set_solver.
Qed.

Lemma wf_replace_child pre n a lbl c c' b :
  wf pre n → edges n = a ++ (lbl, c) :: b →
  head (prefix c') = Some lbl → wf (pre ++ prefix n) c' →
  wf pre (set_edges n (a ++ (lbl, c') :: b)).
Proof.
  intros (Hlf & Hs & Hes)%wf_eq Heq Hhd Hc'. rewrite Heq in *.
  apply wf_eq. simpl. split_and!; [done|by eapply sorted_edges_replace|].
  apply Forall_app in Hes as [Ha [_ Hb]%Forall_cons].
  apply Forall_app. split; [done|]. constructor; [by split|done].
Qed.

Lemma wf_remove_child pre n a e b :
  wf pre n → edges n = a ++ e :: b → wf pre (set_edges n (a ++ b)).
Proof.
  intros (Hlf & Hs & Hes)%wf_eq Heq. rewrite Heq in *.
  apply wf_eq. simpl. split_and!; [done|by eapply sorted_edges_remove|].
  apply Forall_app in Hes as [Ha [_ Hb]%Forall_cons].
  by apply Forall_app.
Qed.

Lemma leaves_set_edges n es :
  leaves (set_edges n es) = leaf_entry (leaf n) ++ children_leaves es.
Proof. by rewrite leaves_eq. Qed.

(** A change in the entries of a child is the same change in the entries of
    its parent. *)
Lemma leaves_replace_child n a lbl c c' b x m m' y :
  edges n = a ++ (lbl, c) :: b →
  leaves c = x ++ m ++ y → leaves c' = x ++ m' ++ y →
  ∃ x' y', leaves n = x' ++ m ++ y' ∧
           leaves (set_edges n (a ++ (lbl, c') :: b)) = x' ++ m' ++ y'.
Proof.
  intros Hes Hc Hc'.
  exists ((leaf_entry (leaf n) ++ children_leaves a) ++ x), (y ++ children_leaves b).
  rewrite leaves_set_edges, (leaves_eq n), Hes, !children_leaves_middle, Hc, Hc'.
  by rewrite <-!app_assoc.
Qed.

(** ** Insert *)

Lemma longestPrefix_cons c r q :
  longestPrefix (c :: r) (c :: q) = S (longestPrefix r q).
Proof. simpl. by rewrite byte_eqb_refl. Qed.

Lemma head_drop {A} (l : list A) i : head (drop i l) = l !! i.
Proof. by rewrite head_lookup, lookup_drop, Nat.add_0_r. Qed.

Lemma addEdge_empty lf p (e : byte * node) :
  addEdge (Node lf p []) e = Node lf p [e].
Proof. done. Qed.

Lemma Sort_pair (e1 e2 : byte * node) :
  label e1 ≠ label e2 →
  (Sort ([e1] ++ [e2]) = [e1; e2] ∧ byte_lt (label e1) (label e2)) ∨
  (Sort ([e1] ++ [e2]) = [e2; e1] ∧ byte_lt (label e2) (label e1)).
Proof.
  intros Hne. unfold Sort. simpl.
  destruct (byte_ltb (label e2) (label e1)) eqn:E.
  - right. by apply byte_ltb_lt in E.
  - left. split; [done|]. apply byte_ltb_nlt in E.
    destruct (byte_lt_total (label e1) (label e2)) as [?|[?|?]]; done.
Qed.

Lemma sorted_edges_singleton (e : byte * node) : sorted_edges [e].
Proof. repeat constructor. Qed.

Lemma sorted_edges_pair (e1 e2 : byte * node) :
  byte_lt (label e1) (label e2) → sorted_edges [e1; e2].
Proof. intros H. repeat constructor. done. Qed.

Lemma wf_leaf_node pre s v p :
  s = pre ++ p → wf pre (Node (Some (mkLeaf s v)) p []).
Proof.
  intros ->. apply wf_Node. split_and!; [by intros l [= <-]|constructor..].
Qed.

Lemma insert_loop_spec fuel n pre search s v sz :
  height n ≤ fuel → wf pre n → s = (pre ++ prefix n) ++ search →
  ∃ n' old (upd : bool) a b,
    insert_loop fuel n search s v sz
      = Ok (n', (if upd then sz else sz + 1)%Z, (old, upd)) ∧
    wf pre n' ∧ prefix n' = prefix n ∧
    leaves n = a ++ (if upd then [(s, old)] else []) ++ b ∧
    (upd = false → old = zeroVal) ∧
    leaves n' = a ++ [(s, v)] ++ b.
Proof.
  revert n pre search sz.
  induction fuel as [|fuel IH]; intros n pre search sz Hh Hwf Hs.
  { pose proof (height_pos n). lia. }
  destruct search as [|c rest]; cbn [insert_loop].
  - rewrite app_nil_r in Hs. destruct (leaf n) as [lf|] eqn:Elf.
    + assert (key lf = s) as Hk by (apply wf_eq in Hwf as (Hlf & _); by rewrite (Hlf lf)).
      exists (set_leaf n (Some (mkLeaf (key lf) v))), (val lf), true, [],
        (children_leaves (edges n)).
      split_and!; [done| |done| | |].
      * apply wf_set_leaf; [|done]. intros l [= <-]. simpl. by rewrite Hk.
      * by rewrite leaves_eq, Elf, <-Hk.
      * done.
      * by rewrite leaves_eq, <-Hk.
    + exists (set_leaf n (Some (mkLeaf s v))), zeroVal, false, [],
        (children_leaves (edges n)).
      split_and!; [done| |done| |done|].
      * apply wf_set_leaf; [|done]. by intros l [= <-].
      * by rewrite leaves_eq, Elf.
      * by rewrite leaves_eq.
  - pose proof Hwf as (Hlf & Hsorted & Hes)%wf_eq.
    destruct (getEdge n c) as [ch|] eqn:Eg.
    + (* an edge carries the next byte *)
      pose proof Eg as (a0 & b0 & Hedges)%getEdge_Some.
      destruct (wf_child pre n c ch Hwf) as [Hhd Hch]; [rewrite Hedges; apply elem_of_middle|].
      pose proof (height_getEdge _ _ _ Eg) as Hhc.
      destruct (prefix ch) as [|c' q] eqn:Ep; [done|]. injection Hhd as ->.
      pose proof (longestPrefix_le_r (c :: rest) (c :: q)) as Hcpr.
      pose proof (longestPrefix_le_l (c :: rest) (c :: q)) as Hcpl.
      pose proof (longestPrefix_take (c :: rest) (c :: q)) as Htake.
      pose proof (longestPrefix_mismatch (c :: rest) (c :: q)) as Hmis.
      pose proof (longestPrefix_cons c rest q) as Hcp0.
      remember (longestPrefix (c :: rest) (c :: q)) as cp eqn:Ecp. clear Ecp.
      destruct (Nat.eqb_spec cp (length (c :: q))) as [Hfull|Hpart].
      * (* the node behind it is on the way *)
        assert (c :: rest = (c :: q) ++ drop cp (c :: rest)) as Hsearch.
        { rewrite <-(take_drop cp (c :: rest)) at 1. f_equal.
          by rewrite Htake, Hfull, firstn_all. }
        destruct (IH ch (pre ++ prefix n) (drop cp (c :: rest)) sz)
          as (ch' & old & upd & x & y & Heq & Hwf' & Hp' & Hl & Hold & Hl');
          [lia|done|by rewrite Ep, Hs, Hsearch at 1; rewrite <-!app_assoc|].
        rewrite Heq. cbn.
        destruct (leaves_replace_child n a0 c ch ch' b0 x
                    (if upd then [(s, old)] else []) [(s, v)] y)
          as (x' & y' & Hn & Hn'); [done..|].
        exists (set_edges n (a0 ++ (c, ch') :: b0)), old, upd, x', y'.
        rewrite (storeEdge_middle n a0 b0 c ch) by done.
        split_and!; [done| |done..].
        apply (wf_replace_child pre n a0 c ch); [done..|by rewrite Hp', Ep|done].
      * (* the key leaves the prefix of that node: split *)
        assert (cp < length (c :: q)) as Hlt by lia.
        destruct (lookup_lt_is_Some_2 (c :: q) cp Hlt) as [lbl Hlbl].
        rewrite (updateEdge_middle n a0 b0 c ch) by done. cbn. rewrite Hlbl. cbn.
        set (ch_trim := set_prefix ch (drop cp (c :: q))).
        assert (head (prefix ch_trim) = Some lbl) as Hhd_trim
          by (unfold ch_trim; simpl; by rewrite head_drop).
        assert (wf ((pre ++ prefix n) ++ take cp (c :: rest)) ch_trim) as Hwf_trim.
        { unfold ch_trim. destruct ch as [lfc pc esc]. simpl in *. subst pc.
          revert Hch. apply wf_path.
          by rewrite Htake, <-(app_assoc _ (take _ _)), take_drop. }
        assert (head (take cp (c :: rest)) = Some c) as Hhd_child
          by (destruct cp; [done|done]).
        assert (∀ X, storeEdge (set_edges n (a0 ++ (c, Node None (take cp (c :: rest)) []) :: b0)) c X
                  = set_edges n (a0 ++ (c, X) :: b0)) as Hstore.
        { intros X. erewrite storeEdge_middle; [done..|].
          simpl. rewrite Hedges in Hsorted. by eapply sorted_edges_replace. }
        assert (∀ child, prefix child = take cp (c :: rest) →
                  wf (pre ++ prefix n) child →
                  (leaves child = [(s, v)] ++ leaves ch ∨
                   leaves child = leaves ch ++ [(s, v)]) →
                  ∃ n' old (upd : bool) a b,
                    Ok (storeEdge (set_edges n (a0 ++ (c, Node None (take cp (c :: rest)) []) :: b0)) c child,
                        (sz + 1)%Z, (zeroVal, false))
                      = Ok (n', (if upd then sz else sz + 1)%Z, (old, upd)) ∧
                    wf pre n' ∧ prefix n' = prefix n ∧
                    leaves n = a ++ (if upd then [(s, old)] else []) ++ b ∧
                    (upd = false → old = zeroVal) ∧
                    leaves n' = a ++ [(s, v)] ++ b) as Hfinish.
        { intros child Hpc Hwfc Hlc. rewrite Hstore.
          assert (∃ x y, leaves ch = x ++ [] ++ y ∧ leaves child = x ++ [(s, v)] ++ y)
            as (x & y & Hx & Hy).
          { destruct Hlc as [->| ->].
            - by exists [], (leaves ch).
            - exists (leaves ch), []. by rewrite !app_nil_r. }
          destruct (leaves_replace_child n a0 c ch child b0 x [] [(s, v)] y)
            as (x' & y' & Hn & Hn'); [done..|].
          exists (set_edges n (a0 ++ (c, child) :: b0)), zeroVal, false, x', y'.
          split_and!; [done| |done..].
          apply (wf_replace_child pre n a0 c ch); [done..|by rewrite Hpc|done]. }
        rewrite addEdge_empty.
        destruct (drop cp (c :: rest)) as [|c2 rest2] eqn:Edrop.
        -- (* the key ends at the new node *)
          unfold set_leaf; cbn [leaf prefix edges].
          apply Hfinish; [done| |left].
          ++ apply wf_Node. split_and!.
             ** intros l [= <-]. simpl. rewrite Hs. f_equal.
                by rewrite <-(take_drop cp (c :: rest)) at 1; rewrite Edrop, app_nil_r.
             ** apply sorted_edges_singleton.
             ** constructor; [by split|constructor].
          ++ rewrite leaves_Node, children_leaves_cons, children_leaves_nil.
             unfold ch_trim. cbn [snd]. by rewrite leaves_set_prefix, app_nil_r.
        -- (* the key goes on below the new node *)
          assert ((c :: rest) !! cp = Some c2) as Hc2
            by (by rewrite <-head_drop, Edrop).
          pose proof (Hmis c2 lbl Hc2 Hlbl) as Hne.
          set (nl := Node (Some (mkLeaf s v)) (c2 :: rest2) []).
          assert (wf ((pre ++ prefix n) ++ take cp (c :: rest)) nl) as Hwf_nl.
          { apply wf_leaf_node.
            by rewrite Hs, <-Edrop, <-(app_assoc _ (take _ _)), take_drop. }
          unfold addEdge, set_edges. cbn [edges leaf prefix]. fold nl.
          destruct (Sort_pair (lbl, ch_trim) (c2, nl)) as [[HS Hlt2]|[HS Hlt2]];
            [by intros ?; apply Hne|..]; rewrite HS.
          ++ apply Hfinish; [done| |right].
             ** apply wf_Node. split_and!; [done|by apply sorted_edges_pair|].
                repeat (constructor; [by split|]). constructor.
             ** rewrite leaves_Node, !children_leaves_cons, children_leaves_nil.
                unfold ch_trim, nl. cbn [snd]. rewrite leaves_set_prefix. simpl.
                by rewrite ?app_nil_r.
          ++ apply Hfinish; [done| |left].
             ** apply wf_Node. split_and!; [done|by apply sorted_edges_pair|].
                repeat (constructor; [by split|]). constructor.
             ** rewrite leaves_Node, !children_leaves_cons, children_leaves_nil.
                unfold ch_trim, nl. cbn [snd]. rewrite leaves_set_prefix. simpl.
                by rewrite ?app_nil_r.
    + (* no edge: a new one *)
      pose proof (getEdge_None n c Hsorted Eg) as Hni.
      destruct (Sort_snoc (edges n) c (Node (Some (mkLeaf s v)) (c :: rest) []) Hsorted Hni)
        as (a0 & b0 & Hedges & HS & Hsorted').
      exists (addEdge n (c, Node (Some (mkLeaf s v)) (c :: rest) [])), zeroVal, false,
        (leaf_entry (leaf n) ++ children_leaves a0), (children_leaves b0).
      unfold addEdge. rewrite HS.
      split_and!; [done| |done| |done|].
      * apply wf_eq. simpl. split_and!; [done..|].
        rewrite Hedges in Hes. rewrite Forall_app in *. destruct Hes as [Ha Hb].
        split; [done|]. constructor; [|done]. simpl. split; [done|].
        by apply wf_leaf_node.
      * by rewrite leaves_eq, Hedges, children_leaves_app, <-app_assoc.
      * rewrite leaves_set_edges, children_leaves_middle. simpl.
        by rewrite <-!app_assoc.
Qed.

(** ** Merging a node with its only child *)

Lemma mergeChild_spec pre n e :
  wf pre n → leaf n = None → edges n = [e] →
  ∃ m, mergeChild n = Ok m ∧ wf pre m ∧ leaves m = leaves n ∧
       prefix m = prefix n ++ prefix e.2.
Proof.
  intros Hwf Hlf Hes. unfold mergeChild. rewrite Hes. eexists. split; [done|].
  destruct (wf_child pre n e.1 e.2 Hwf) as [_ Hc].
  { rewrite Hes. destruct e. set_solver. }
  unfold enode. split_and!; [| |done].
  - destruct e.2 as [lfc pc esc]. simpl.
    revert Hc. apply wf_path. by rewrite app_assoc.
  - rewrite (leaves_eq n), Hlf, Hes, children_leaves_cons, children_leaves_nil.
    rewrite app_nil_r. by destruct e.2.
Qed.

(** The guarded calls [if ... { x.mergeChild() }]: the guard makes sure there
    is one edge, and no leaf that the merge would overwrite. *)
Lemma merge_guarded pre n (guard : bool) :
  wf pre n →
  (guard = true → length (edges n) = 1 ∧ leaf n = None) →
  ∃ m, (if guard then mergeChild n else Ok n) = Ok m ∧
       wf pre m ∧ leaves m = leaves n ∧ prefix n `prefix_of` prefix m ∧
       (guard = false → m = n).
Proof.
  intros Hwf Hg. destruct guard.
  - destruct Hg as [Hlen Hlf]; [done|].
    destruct (edges n) as [|e [|]] eqn:Hes; try done.
    destruct (mergeChild_spec pre n e) as (m & Hm & Hwfm & Hl & Hp); [done..|].
    exists m. split_and!; [done..| |done]. rewrite Hp. by apply prefix_app_r.
  - exists n. by split_and!.
Qed.

Lemma isLeaf_false n : isLeaf n = false ↔ leaf n = None.
Proof. unfold isLeaf. by destruct (leaf n). Qed.

Lemma prefix_of_head_eq {A} (p q : list A) x :
  head p = Some x → p `prefix_of` q → head q = Some x.
Proof. destruct p; [done|]. intros [= ->] [k ->]. done. Qed.

(** ** Delete *)

Lemma ctx_ok_wf pre parent n :
  ctx_ok pre parent n →
  wf (match parent with None => pre | Some (p, _, _) => pre ++ prefix p end) n.
Proof.
  destruct parent as [[[p l] r]|]; [|done]. intros [Hwf Hg].
  apply getEdge_Some in Hg as (a & b & Hes).
  apply (wf_child pre p l n Hwf). rewrite Hes. set_solver.
Qed.

Lemma ctx_ok_keys pre parent n :
  ctx_ok pre parent n →
  Forall (λ kv, path pre parent n `prefix_of` kv.1) (leaves n).
Proof.
  intros H%ctx_ok_wf. apply wf_keys in H. by destruct parent as [[[p l] r]|].
Qed.

(** The result of a loop in the node above: a change of the entries of the
    node at hand is the same change of the entries of the topmost node. *)
Lemma reattach_spec pre parent n n' x m m' y :
  ctx_ok pre parent n →
  wf (match parent with None => pre | Some (p, _, _) => pre ++ prefix p end) n' →
  prefix n `prefix_of` prefix n' →
  (is_nil parent = true → prefix n' = prefix n) →
  leaves n = x ++ m ++ y → leaves n' = x ++ m' ++ y →
  wf pre (reattach parent n') ∧
  prefix (reattach parent n') = prefix (top parent n) ∧
  ∃ xo yo, leaves (top parent n) = (xo ++ x) ++ m ++ (y ++ yo) ∧
           leaves (reattach parent n') = (xo ++ x) ++ m' ++ (y ++ yo) ∧
           Forall (λ kv, ¬ path pre parent n `prefix_of` kv.1) (xo ++ yo).
Proof.
  intros Hctx Hwf' Hp Hroot Hl Hl'.
  destruct parent as [[[p l] r]|]; cbn [ctx_ok reattach top path is_nil] in *.
  - destruct Hctx as [Hwf Hg].
    pose proof Hg as (a & b & Hes)%getEdge_Some.
    pose proof Hwf as (_ & Hs & _)%wf_eq.
    rewrite (storeEdge_middle p a b l n) by done.
    destruct (wf_child pre p l n Hwf) as [Hhd _]; [rewrite Hes; apply elem_of_middle|].
    destruct (wf_split pre p a l n b Hwf Hes) as [Hlp Hout].
    split_and!; [|done|].
    + apply (wf_replace_child pre p a l n); [done..| |done].
      by eapply prefix_of_head_eq.
    + exists (leaf_entry (leaf p) ++ children_leaves a), (children_leaves b).
      split_and!.
      * by rewrite Hlp, Hl, <-!app_assoc.
      * rewrite leaves_set_edges, children_leaves_middle, Hl'.
        by rewrite <-!app_assoc.
      * eapply Forall_impl; [exact Hout|]. intros kv Hkv Hpre. apply Hkv.
        eapply prefix_of_head; eauto.
  - split_and!; [done|by apply Hroot|].
    exists [], []. rewrite !app_nil_r. split_and!; [done..|constructor].
Qed.

Lemma delete_found_spec pre parent n lf sz s :
  ctx_ok pre parent n → leaf n = Some lf → s = path pre parent n →
  ∃ t', delete_found parent n lf sz = Ok (t', (sz - 1)%Z, val lf) ∧
    wf pre t' ∧ prefix (top parent n) `prefix_of` prefix t' ∧
    (top_is_root parent = true → prefix t' = prefix (top parent n)) ∧
    ∃ a b, leaves (top parent n) = a ++ [(s, val lf)] ++ b ∧ leaves t' = a ++ b.
Proof.
  intros Hctx Hlf Hs. unfold delete_found.
  assert (key lf = s) as Hk.
  { apply ctx_ok_wf in Hctx. apply wf_eq in Hctx as [Hk _]. rewrite (Hk lf Hlf), Hs.
    by destruct parent as [[[p l] r]|]. }
  assert (leaves n = [] ++ [(s, val lf)] ++ children_leaves (edges n)) as Hln
    by (by rewrite leaves_eq, Hlf, <-Hk).
  assert (leaves (set_leaf n None) = children_leaves (edges n)) as Hln1
    by (by rewrite leaves_eq).
  destruct parent as [[[p l] r]|]; cbn [ctx_ok top path top_is_root] in *.
  - destruct Hctx as [Hwf Hg].
    pose proof Hg as (a & b & Hes)%getEdge_Some.
    pose proof Hwf as (Hlfp & Hsorted & Hesp)%wf_eq.
    destruct (wf_child pre p l n Hwf) as [Hhd Hwfn]; [rewrite Hes; apply elem_of_middle|].
    assert (wf (pre ++ prefix p) (set_leaf n None)) as Hwfn1
      by (by apply wf_set_leaf).
    assert (∀ p2 x y, wf pre p2 → prefix p2 = prefix p →
              leaves p = x ++ [(s, val lf)] ++ y → leaves p2 = x ++ y →
              ∃ t', (parent ← (if negb r && (length (edges p2) =? 1) && negb (isLeaf p2)
                               then mergeChild p2 else Ok p2);
                     Ok (parent, (sz - 1)%Z, val lf)) = Ok (t', (sz - 1)%Z, val lf) ∧
                wf pre t' ∧ prefix p `prefix_of` prefix t' ∧
                (r = true → prefix t' = prefix p) ∧
                ∃ a b, leaves p = a ++ [(s, val lf)] ++ b ∧ leaves t' = a ++ b)
      as Hfinish.
    { intros p2 x y Hwf2 Hp2 Hlp Hlp2.
      destruct (merge_guarded pre p2
                  (negb r && (length (edges p2) =? 1) && negb (isLeaf p2)))
        as (m & -> & Hwfm & Hlm & Hpm & Hsame); [done| |].
      { intros [[_ Hlen%Nat.eqb_eq]%andb_true_iff Hl%negb_true_iff]%andb_true_iff.
        by apply isLeaf_false in Hl. }
      exists m. split_and!; [done|done|by rewrite <-Hp2| |].
      - intros ->. simpl in Hsame. by rewrite Hsame.
      - exists x, y. by rewrite Hlm. }
    change (edges (set_leaf n None)) with (edges n).
    destruct (Nat.eqb_spec (length (edges n)) 0) as [Hen%nil_length_inv|Hen].
    + (* the node is left empty and is unlinked *)
      rewrite Hen in *. cbn. rewrite (delEdge_middle p a b l n) by done.
      apply (Hfinish _ (leaf_entry (leaf p) ++ children_leaves a) (children_leaves b)).
      * by eapply wf_remove_child.
      * done.
      * rewrite (leaves_eq p), Hes, children_leaves_middle, Hln.
        by rewrite children_leaves_nil, <-!app_assoc.
      * by rewrite leaves_set_edges, children_leaves_app, <-app_assoc.
    + (* the node stays; it may take up its only child *)
      destruct (merge_guarded (pre ++ prefix p) (set_leaf n None)
                  (length (edges n) =? 1))
        as (n2 & Hn2 & Hwfn2 & Hln2 & Hpn2 & _); [done| |].
      { by intros ?%Nat.eqb_eq. }
      cbn. rewrite Hn2. cbn.
      rewrite (storeEdge_middle p a b l n) by done.
      destruct (leaves_replace_child p a l n n2 b [] [(s, val lf)] []
                  (children_leaves (edges n))) as (x & y & Hx & Hy);
        [done|done|by rewrite Hln2, Hln1|].
      apply (Hfinish _ x y); [|done..].
      apply (wf_replace_child pre p a l n); [done..| |done].
      by eapply prefix_of_head_eq.
  - exists (set_leaf n None). split_and!; [done|by apply wf_set_leaf|done|done|].
    exists [], (children_leaves (edges n)). by rewrite Hln1.
Qed.

(** An entry whose key goes on with the byte [lbl] after the path of a node
    sits behind the edge with that label. *)
Lemma wf_descend pre n lbl kv :
  wf pre n → kv ∈ leaves n → (pre ++ prefix n) ++ [lbl] `prefix_of` kv.1 →
  ∃ child, getEdge n lbl = Some child ∧ kv ∈ leaves child.
Proof.
  intros Hwf Hin Hpre. pose proof Hwf as (_ & Hs & _)%wf_eq.
  destruct (getEdge n lbl) as [child|] eqn:Eg.
  - exists child. split; [done|].
    pose proof Eg as (a & b & Hes)%getEdge_Some.
    destruct (wf_split pre n a lbl child b Hwf Hes) as [Hl Hout].
    rewrite Hl in Hin. rewrite Forall_forall in Hout.
    apply elem_of_app in Hin as [Hin|[Hin|Hin]%elem_of_app]; [|done|].
    + destruct (Hout kv); [|done]. apply elem_of_app. by left.
    + destruct (Hout kv); [|done]. apply elem_of_app. by right.
  - pose proof (wf_no_edge pre n lbl Hwf (getEdge_None n lbl Hs Eg)) as Hout.
    rewrite Forall_forall in Hout. by destruct (Hout kv).
Qed.

Lemma prefix_of_snoc_cons {A} (p : list A) x r : p ++ [x] `prefix_of` p ++ x :: r.
Proof. exists r. by rewrite <-app_assoc. Qed.

Lemma wf_path_fresh pre n :
  wf pre n → leaf n = None → pre ++ prefix n ∉ (leaves n).*1.
Proof.
  intros Hwf Hlf (kv & Hk & Hin)%list_elem_of_fmap.
  rewrite leaves_eq, Hlf in Hin. simpl in Hin.
  apply list_elem_of_bind in Hin as ([l c] & Hin & He).
  pose proof (wf_child_keys pre n l c kv Hwf He Hin) as Hp.
  rewrite <-Hk in Hp. by apply prefix_snoc_not in Hp.
Qed.

(** The key [path ++ lbl :: rest] is not below a node without an edge for
    [lbl], nor below one whose child for [lbl] does not hold it. *)
Lemma wf_absent pre n lbl rest :
  wf pre n →
  match getEdge n lbl with
  | Some child => (pre ++ prefix n) ++ lbl :: rest ∉ (leaves child).*1
  | None => True
  end →
  (pre ++ prefix n) ++ lbl :: rest ∉ (leaves n).*1.
Proof.
  intros Hwf Hc (kv & Hk & Hin)%list_elem_of_fmap.
  destruct (wf_descend pre n lbl kv Hwf Hin) as (child & Eg & Hin').
  { rewrite <-Hk. apply prefix_of_snoc_cons. }
  rewrite Eg in Hc. apply Hc. apply list_elem_of_fmap. eauto.
Qed.

Lemma wf_child_mismatch pre n lbl child search :
  wf pre n → getEdge n lbl = Some child →
  ¬ prefix child `prefix_of` search →
  (pre ++ prefix n) ++ search ∉ (leaves child).*1.
Proof.
  intros Hwf Eg Hnp (kv & Hk & Hin)%list_elem_of_fmap.
  pose proof Eg as (a & b & Hes)%getEdge_Some.
  destruct (wf_child pre n lbl child Hwf) as [_ Hc]; [rewrite Hes; apply elem_of_middle|].
  apply wf_keys in Hc. rewrite Forall_forall in Hc. specialize (Hc kv Hin).
  rewrite <-Hk in Hc. by apply prefix_app_inv in Hc.
Qed.

Lemma delete_loop_spec fuel pre parent n search sz s :
  height n ≤ fuel → ctx_ok pre parent n → s = path pre parent n ++ search →
  match delete_loop fuel parent n search sz with
  | Ok None => s ∉ (leaves n).*1
  | Ok (Some (t', sz', v)) =>
      sz' = (sz - 1)%Z ∧ wf pre t' ∧
      prefix (top parent n) `prefix_of` prefix t' ∧
      (top_is_root parent = true → prefix t' = prefix (top parent n)) ∧
      ∃ a b, leaves (top parent n) = a ++ [(s, v)] ++ b ∧ leaves t' = a ++ b
  | _ => False
  end.
Proof.
  revert pre parent n search sz.
  induction fuel as [|fuel IH]; intros pre parent n search sz Hh Hctx Hs.
  { pose proof (height_pos n). lia. }
  set (pre_n := match parent with None => pre | Some (p, _, _) => pre ++ prefix p end).
  assert (wf pre_n n) as Hwfn by (by apply ctx_ok_wf).
  assert (path pre parent n = pre_n ++ prefix n) as Hpath
    by (by destruct parent as [[[p l] r]|]).
  rewrite Hpath in Hs.
  destruct search as [|lbl rest]; cbn [delete_loop].
  - rewrite app_nil_r in Hs. destruct (leaf n) as [lf|] eqn:Elf.
    + destruct (delete_found_spec pre parent n lf sz s)
        as (t' & -> & Hwf' & Hp & Hr & Hl); [done|done|by rewrite Hpath|].
      cbn. done.
    + rewrite Hs. by apply wf_path_fresh.
  - destruct (getEdge n lbl) as [child|] eqn:Eg.
    + destruct (hasPrefix (lbl :: rest) (prefix child)) eqn:Ehp.
      * apply hasPrefix_spec in Ehp as [search' Hsearch].
        rewrite Hsearch, drop_app_length.
        specialize (IH pre_n (Some (n, lbl, is_nil parent)) child search' sz).
        destruct (delete_loop fuel _ child search' sz) as [[[[n' sz'] v]|]| |];
          cbn.
        -- destruct IH as (-> & Hwf' & Hp & Hr & a & b & Hl & Hl');
             [by apply height_getEdge in Eg; lia|done
             |by cbn; rewrite Hs, Hsearch, <-!app_assoc|].
           cbn [top top_is_root] in *.
           destruct (reattach_spec pre parent n n' a [(s, v)] [] b)
             as (Hwfr & Hpr & xo & yo & Hx & Hy & _); [done..| |done|done|].
           { intros Hnil. by apply Hr. }
           split_and!; [done|done|by rewrite Hpr|by rewrite Hpr|].
           exists (xo ++ a), (b ++ yo). by rewrite Hy.
        -- rewrite Hs. apply wf_absent; [done|]. rewrite Eg.
           rewrite <-Hs. apply IH;
             [by apply height_getEdge in Eg; lia|done
             |by cbn; rewrite Hs, Hsearch, <-!app_assoc].
        -- apply IH; [by apply height_getEdge in Eg; lia|done
             |by cbn; rewrite Hs, Hsearch, <-!app_assoc].
        -- apply IH; [by apply height_getEdge in Eg; lia|done
             |by cbn; rewrite Hs, Hsearch, <-!app_assoc].
      * apply hasPrefix_false in Ehp. rewrite Hs.
        apply wf_absent; [done|]. rewrite Eg. by eapply wf_child_mismatch.
    + rewrite Hs. apply wf_absent; [done|]. by rewrite Eg.
Qed.

(** ** DeletePrefix *)

Lemma wf_empty pre n : wf pre (set_edges (set_leaf n None) []).
Proof. apply wf_eq. simpl. split_and!; [done|constructor..]. Qed.

Lemma not_prefix_of_trans {A} (q s k : list A) :
  ¬ q `prefix_of` k → q `prefix_of` s → ¬ s `prefix_of` k.
Proof. intros Hn Hqs Hsk. apply Hn. by etrans. Qed.

Lemma Forall_not_prefix_of_trans (q s : gostring) (l : list (gostring * V)) :
  q `prefix_of` s →
  Forall (λ kv, ¬ q `prefix_of` kv.1) l → Forall (λ kv, ¬ s `prefix_of` kv.1) l.
Proof.
  intros Hqs H. eapply Forall_impl; [exact H|]. simpl. intros kv Hkv.
  by eapply not_prefix_of_trans.
Qed.

Lemma subtree_count n :
  (recursiveWalk n (λ _ _ (c : Z), ((c + 1)%Z, false)) 0%Z).1
  = Z.of_nat (length (leaves n)).
Proof. by rewrite recursiveWalk_never_stops, count_visit. Qed.

(** The remaining prefix after the step into [child]. *)
Lemma deletePrefix_step (pfx cp : gostring) :
  negb (hasPrefix cp pfx) && negb (hasPrefix pfx cp) = false →
  let pfx' := if length pfx <? length cp then drop (length pfx) pfx
              else drop (length cp) pfx in
  (pfx' = [] ∧ pfx `prefix_of` cp) ∨ (pfx' ≠ [] ∧ pfx = cp ++ pfx').
Proof.
  intros H. apply andb_false_iff in H.
  destruct (Nat.ltb_spec (length pfx) (length cp)) as [Hlt|Hge]; simpl.
  - left. rewrite drop_all. split; [done|].
    destruct H as [H|H]; apply negb_false_iff, hasPrefix_spec in H; [done|].
    apply prefix_length in H. lia.
  - assert (cp `prefix_of` pfx) as [k Hk].
    { destruct H as [H|H]; apply negb_false_iff, hasPrefix_spec in H; [|done].
      pose proof (prefix_length_eq _ _ H Hge) as ->. done. }
    rewrite Hk, drop_app_length. destruct k as [|x k].
    + left. split; [done|]. by rewrite app_nil_r.
    + by right.
Qed.

Lemma deletePrefix_spec fuel pre parent n pfx sz s :
  height n ≤ fuel → ctx_ok pre parent n →
  (pfx ≠ [] → s = path pre parent n ++ pfx) →
  (pfx = [] → s `prefix_of` path pre parent n ∧
              match parent with
              | Some (p, lbl, _) => (pre ++ prefix p) ++ [lbl] `prefix_of` s
              | None => True
              end) →
  match deletePrefix fuel parent n pfx sz with
  | Ok (None, cnt) =>
      cnt = 0%Z ∧ Forall (λ kv, ¬ s `prefix_of` kv.1) (leaves n)
  | Ok (Some (t', sz'), cnt) =>
      wf pre t' ∧ prefix (top parent n) `prefix_of` prefix t' ∧
      (top_is_root parent = true → prefix t' = prefix (top parent n)) ∧
      ∃ a m b, leaves (top parent n) = a ++ m ++ b ∧ leaves t' = a ++ b ∧
        Forall (λ kv, s `prefix_of` kv.1) m ∧
        Forall (λ kv, ¬ s `prefix_of` kv.1) (a ++ b) ∧
        cnt = Z.of_nat (length m) ∧ sz' = (sz - cnt)%Z
  | _ => False
  end.
Proof.
  revert pre parent n pfx sz.
  induction fuel as [|fuel IH]; intros pre parent n pfx sz Hh Hctx Hne Hnil.
  { pose proof (height_pos n). lia. }
  set (pre_n := match parent with None => pre | Some (p, _, _) => pre ++ prefix p end).
  assert (wf pre_n n) as Hwfn by (by apply ctx_ok_wf).
  assert (path pre parent n = pre_n ++ prefix n) as Hpath
    by (by destruct parent as [[[p l] r]|]).
  destruct pfx as [|lbl rest]; cbn [deletePrefix].
  - (* the prefix is used up: everything below [n] goes *)
    clear Hne. destruct Hnil as [Hsn Hps]; [done|].
    rewrite subtree_count.
    set (n2 := set_edges (if isLeaf n then set_leaf n None else n) []).
    assert (n2 = set_edges (set_leaf n None) []) as Hn2.
    { unfold n2, isLeaf. by destruct n as [[lf|] p es]. }
    assert (wf pre_n n2) as Hwf2 by (rewrite Hn2; apply wf_empty).
    assert (leaves n2 = []) as Hl2 by (by rewrite Hn2).
    assert (prefix n2 = prefix n) as Hp2 by (by rewrite Hn2).
    assert (Forall (λ kv, s `prefix_of` kv.1) (leaves n)) as Hin.
    { eapply Forall_impl; [by apply ctx_ok_keys|]. intros kv Hkv. by etrans. }
    clearbody n2.
    destruct parent as [[[p l] r]|]; cbn [ctx_ok top path top_is_root] in *.
    + destruct Hctx as [Hwf Hg].
      pose proof Hg as (a & b & Hes)%getEdge_Some.
      pose proof Hwf as (_ & Hsorted & _)%wf_eq.
      destruct (wf_child pre p l n Hwf) as [Hhd _]; [rewrite Hes; apply elem_of_middle|].
      destruct (wf_split pre p a l n b Hwf Hes) as [Hlp Hout].
      rewrite (storeEdge_middle p a b l n) by done.
      set (p1 := set_edges p (a ++ (l, n2) :: b)).
      assert (wf pre p1) as Hwf1.
      { apply (wf_replace_child pre p a l n); [done..|by rewrite Hp2|done]. }
      destruct (merge_guarded pre p1
                  (negb r && (length (edges p1) =? 1) && negb (isLeaf p1)))
        as (m & Hm & Hwfm & Hlm & Hpm & Hsame); [done| |rewrite Hm].
      { intros [[_ Hlen%Nat.eqb_eq]%andb_true_iff Hl%negb_true_iff]%andb_true_iff.
        by apply isLeaf_false in Hl. }
      cbn. split_and!; [done|done| |].
      * intros ->. simpl in Hsame. by rewrite Hsame.
      * exists (leaf_entry (leaf p) ++ children_leaves a), (leaves n), (children_leaves b).
        split_and!; [done| |done| |done|done].
        -- rewrite Hlm. unfold p1.
           by rewrite leaves_set_edges, children_leaves_middle, Hl2, <-app_assoc.
        -- by eapply Forall_not_prefix_of_trans.
    + cbn. split_and!; [done|by rewrite Hp2|by rewrite Hp2|].
      exists [], (leaves n), []. rewrite app_nil_r.
      split_and!; [done|done|done|constructor|done|done].
  - (* one more step down *)
    clear Hnil. specialize (Hne ltac:(done)). rewrite Hpath in Hne.
    assert ((pre_n ++ prefix n) ++ [lbl] `prefix_of` s) as Hlbl
      by (rewrite Hne; apply prefix_of_snoc_cons).
    destruct (getEdge n lbl) as [child|] eqn:Eg.
    2:{ split; [done|].
        pose proof Hwfn as (_ & Hsorted & _)%wf_eq.
        eapply Forall_not_prefix_of_trans; [done|].
        by apply wf_no_edge, getEdge_None. }
    pose proof Eg as (a0 & b0 & Hes)%getEdge_Some.
    destruct (wf_split pre_n n a0 lbl child b0 Hwfn Hes) as [Hln Hout].
    destruct (wf_child pre_n n lbl child Hwfn) as [Hhd Hwfc]; [rewrite Hes; apply elem_of_middle|].
    assert (Forall (λ kv, ¬ s `prefix_of` kv.1)
              ((leaf_entry (leaf n) ++ children_leaves a0) ++ children_leaves b0))
      as Hout'.
    { by eapply Forall_not_prefix_of_trans. }
    destruct (negb (hasPrefix (prefix child) (lbl :: rest))
              && negb (hasPrefix (lbl :: rest) (prefix child))) eqn:Eguard.
    + (* neither is a prefix of the other *)
      split; [done|]. rewrite Hln.
      apply Forall_app in Hout' as [Hx Hy].
      apply Forall_app; split; [done|]. apply Forall_app; split; [|done].
      apply andb_true_iff in Eguard as [H1%negb_true_iff%hasPrefix_false
                                          H2%negb_true_iff%hasPrefix_false].
      eapply Forall_impl; [by apply wf_keys|]. intros kv Hkv Hs. simpl in *.
      rewrite Hne in Hs.
      destruct (prefix_weak_total _ _ _ Hkv Hs) as [H|H];
        apply prefix_app_inv in H; done.
    + pose proof (deletePrefix_step (lbl :: rest) (prefix child) Eguard) as Hstep.
      cbv zeta in Hstep.
      set (pfx' := if length (lbl :: rest) <? length (prefix child)
                   then drop (length (lbl :: rest)) (lbl :: rest)
                   else drop (length (prefix child)) (lbl :: rest)) in *.
      clearbody pfx'.
      assert (pfx' ≠ [] →
              s = path pre_n (Some (n, lbl, is_nil parent)) child ++ pfx') as HA.
      { intros Hne'. destruct Hstep as [[? _]|[_ Heq]]; [done|].
        cbn. by rewrite Hne, Heq, <-!app_assoc. }
      assert (pfx' = [] →
              s `prefix_of` path pre_n (Some (n, lbl, is_nil parent)) child ∧
              (pre_n ++ prefix n) ++ [lbl] `prefix_of` s) as HB.
      { intros ->. destruct Hstep as [[_ Hp]|[? _]]; [|done]. cbn. split; [|done].
        rewrite Hne. by apply prefix_app. }
      specialize (IH pre_n (Some (n, lbl, is_nil parent)) child pfx' sz).
      destruct (deletePrefix fuel _ child pfx' sz) as [[[[n' sz']|] cnt]| |]; cbn.
      * destruct IH as (Hwf' & Hp & Hr & a & m & b & Hl & Hl' & Hm & Hab & Hcnt & Hsz);
          [apply height_getEdge in Eg; lia|done..|].
        cbn [top top_is_root] in *.
        destruct (reattach_spec pre parent n n' a m [] b)
          as (Hwfr & Hpr & xo & yo & Hx & Hy & Hxy); [done..| |done|done|].
        { intros Hn. by apply Hr. }
        split_and!; [done|by rewrite Hpr|by rewrite Hpr|].
        exists (xo ++ a), m, (b ++ yo).
        split_and!; [done|done|done| |done|done].
        simpl in Hy. rewrite Hpath in Hxy.
        apply Forall_app in Hab as [Ha Hb]. apply Forall_app in Hxy as [Hxo Hyo].
        assert (pre_n ++ prefix n `prefix_of` s) as Hps
          by (rewrite Hne; by apply prefix_app_r).
        rewrite !Forall_app. split_and!; [|done|done|].
        -- by eapply Forall_not_prefix_of_trans.
        -- by eapply Forall_not_prefix_of_trans.
      * destruct IH as [-> Hc]; [apply height_getEdge in Eg; lia|done..|].
        split; [done|]. rewrite Hln.
        apply Forall_app in Hout' as [Hx Hy].
        apply Forall_app; split; [done|]. by apply Forall_app.
      * apply IH; [apply height_getEdge in Eg; lia|done..].
      * apply IH; [apply height_getEdge in Eg; lia|done..].
Qed.

(** ** Lists of entries as finite maps *)

Lemma list_to_map_middle (a b : list (gostring * V)) k v :
  NoDup (a ++ (k, v) :: b).*1 →
  (list_to_map (a ++ (k, v) :: b) : gmap gostring V)
    = <[k := v]> (list_to_map (a ++ b)) ∧
  (list_to_map (a ++ b) : gmap gostring V) !! k = None.
Proof.
  intros Hnd. split.
  - rewrite <-list_to_map_cons. apply list_to_map_proper; [done|].
    symmetry. apply Permutation_middle.
  - apply not_elem_of_list_to_map_1.
    rewrite fmap_app, fmap_cons, NoDup_app in Hnd. destruct Hnd as (_ & Ha & Hb).
    apply NoDup_cons in Hb as [Hb _]. rewrite fmap_app, elem_of_app.
    intros [Hin|Hin]; [|done]. apply (Ha k Hin). by left.
Qed.

Lemma filter_all {A} (P : A → Prop) `{!∀ x, Decision (P x)} (l : list A) :
  Forall P l → filter P l = l.
Proof.
  induction 1 as [|x l Hx _ IH]; [done|]. by rewrite filter_cons_True, IH.
Qed.

Lemma filter_none {A} (P : A → Prop) `{!∀ x, Decision (P x)} (l : list A) :
  Forall (λ x, ¬ P x) l → filter P l = [].
Proof.
  induction 1 as [|x l Hx _ IH]; [done|]. by rewrite filter_cons_False, IH.
Qed.

Lemma filter_list_to_map (P : gostring * V → Prop) `{!∀ x, Decision (P x)}
    (l : list (gostring * V)) :
  NoDup l.*1 →
  filter P (list_to_map l : gmap gostring V) = list_to_map (filter P l).
Proof.
  induction l as [|[k v] l IH]; intros Hnd.
  { by rewrite filter_nil, list_to_map_nil, map_filter_empty. }
  rewrite fmap_cons in Hnd. apply NoDup_cons in Hnd as [Hk Hnd].
  rewrite list_to_map_cons. destruct (decide (P (k, v))) as [HP|HP].
  - rewrite map_filter_insert_True, filter_cons_True, list_to_map_cons by done.
    by rewrite IH.
  - rewrite map_filter_insert_False, filter_cons_False by done.
    rewrite delete_id by (by apply not_elem_of_list_to_map_1). by apply IH.
Qed.

Lemma NoDup_fst_filter (P : gostring * V → Prop) `{!∀ x, Decision (P x)}
    (l : list (gostring * V)) :
  NoDup l.*1 → NoDup (filter P l).*1.
Proof.
  induction l as [|[k v] l IH]; [done|]. rewrite fmap_cons, NoDup_cons.
  intros [Hk Hnd]. destruct (decide (P (k, v))).
  - rewrite filter_cons_True, fmap_cons by done. apply NoDup_cons. split; [|auto].
    intros (kv & Hkv & [_ Hin]%list_elem_of_filter)%list_elem_of_fmap.
    apply Hk. apply list_elem_of_fmap. eauto.
  - rewrite filter_cons_False by done. auto.
Qed.

(** ** The public operations on a well-formed tree *)

Lemma New_Inv : Inv New.
Proof.
  split; [done| |done]. apply wf_Node. split_and!; [done|constructor..].
Qed.

Lemma abs_New : abs New = ∅.
Proof. done. Qed.

Lemma Insert_spec t s v :
  Inv t →
  ∃ t', Insert t s v = Ok (t', found (abs t !! s)) ∧ Inv t' ∧
        abs t' = <[s := v]> (abs t).
Proof.
  intros [Hp Hwf Hsz]. unfold Insert.
  destruct (insert_loop_spec (S (height (root t))) (root t) [] s s v (size t))
    as (n' & old & upd & a & b & Heq & Hwf' & Hp' & Hl & Hold & Hl');
    [lia|done|by rewrite Hp|].
  rewrite Heq. cbn. unfold abs.
  pose proof (wf_NoDup _ _ Hwf) as Hnd. pose proof (wf_NoDup _ _ Hwf') as Hnd'.
  rewrite Hl in Hnd |- *. rewrite Hl' in Hnd'. simpl in Hnd'.
  destruct (list_to_map_middle a b s v Hnd') as [Hm' Hnone].
  destruct upd; simpl in *.
  - destruct (list_to_map_middle a b s old Hnd) as [Hm _].
    rewrite Hm, lookup_insert_eq. eexists. split; [done|]. split.
    + split; simpl; [congruence|done|].
      rewrite Hsz, Hl, Hl', !length_app. simpl. lia.
    + simpl. by rewrite Hl', Hm', insert_insert_eq.
  - rewrite Hnone, Hold by done. eexists. split; [done|]. split.
    + split; simpl; [congruence|done|].
      rewrite Hsz, Hl, Hl', !length_app. simpl. lia.
    + simpl. by rewrite Hl', Hm'.
Qed.

Lemma Delete_spec t s :
  Inv t →
  ∃ t', Delete t s = Ok (t', found (abs t !! s)) ∧ Inv t' ∧
        abs t' = delete s (abs t) ∧
        (abs t !! s = None → t' = t).
Proof.
  intros [Hp Hwf Hsz]. unfold Delete.
  pose proof (delete_loop_spec (S (height (root t))) [] None (root t) s (size t) s)
    as Hspec.
  destruct (delete_loop _ _ _ _ _) as [[[[n' sz'] v]|]| |]; cbn.
  - destruct Hspec as (-> & Hwf' & _ & Hp' & a & b & Hl & Hl');
      [lia|done|by cbn; rewrite Hp|].
    cbn in *. pose proof (wf_NoDup _ _ Hwf) as Hnd. rewrite Hl in Hnd.
    destruct (list_to_map_middle a b s v Hnd) as [Hm Hnone].
    unfold abs. rewrite Hl. simpl. rewrite Hm, lookup_insert_eq.
    eexists. split; [done|]. split_and!.
    + split; simpl; [by rewrite Hp'|done|].
      rewrite Hsz, Hl, Hl', !length_app. simpl. lia.
    + simpl. by rewrite Hl', delete_insert_eq, delete_id.
    + done.
  - assert (abs t !! s = None) as Hnone.
    { apply not_elem_of_list_to_map_1. apply Hspec; [lia|done|by cbn; rewrite Hp]. }
    rewrite Hnone. exists t. split_and!; [done|done|by rewrite delete_id|done].
  - destruct Hspec; [lia|done|by cbn; rewrite Hp].
  - destruct Hspec; [lia|done|by cbn; rewrite Hp].
Qed.

Lemma DeletePrefix_spec t p :
  Inv t →
  ∃ t', DeletePrefix t p
          = Ok (t', Z.of_nat (base.size (filter (λ kv, p `prefix_of` kv.1) (abs t)))) ∧
        Inv t' ∧
        abs t' = filter (λ kv, ¬ p `prefix_of` kv.1) (abs t).
Proof.
  intros [Hp Hwf Hsz]. unfold DeletePrefix.
  pose proof (deletePrefix_spec (S (height (root t))) [] None (root t) p (size t) p)
    as Hspec.
  pose proof (wf_NoDup _ _ Hwf) as Hnd.
  unfold abs. rewrite !filter_list_to_map by done.
  rewrite map_size_list_to_map by (by apply NoDup_fst_filter).
  destruct (deletePrefix _ _ _ _ _) as [[[[n' sz']|] cnt]| |]; cbn.
  - destruct Hspec as (Hwf' & _ & Hp' & a & m & b & Hl & Hl' & Hm & Hab & -> & ->);
      [lia|done|by intros _; cbn; rewrite Hp|by intros ->; cbn; rewrite Hp|].
    cbn in *. apply Forall_app in Hab as [Ha Hb].
    rewrite Hl, !filter_app.
    rewrite (filter_none _ a), (filter_none _ b), (filter_all _ m) by done.
    rewrite (filter_all _ a), (filter_all _ b) by done.
    rewrite (filter_none (λ kv, ¬ p `prefix_of` kv.1) m).
    2:{ eapply Forall_impl; [exact Hm|]. simpl. tauto. }
    simpl. rewrite app_nil_r. eexists. split; [done|]. split.
    + split; simpl; [by rewrite Hp'|done|].
      rewrite Hsz, Hl, Hl', !length_app. lia.
    + simpl. by rewrite Hl'.
  - destruct Hspec as [-> Hnone];
      [lia|done|by intros _; cbn; rewrite Hp|by intros ->; cbn; rewrite Hp|].
    rewrite (filter_none _ (leaves (root t))), (filter_all _ (leaves (root t))) by done.
    exists t. by split_and!.
  - destruct Hspec; [lia|done|by intros _; cbn; rewrite Hp|by intros ->; cbn; rewrite Hp].
  - destruct Hspec; [lia|done|by intros _; cbn; rewrite Hp|by intros ->; cbn; rewrite Hp].
Qed.

(** ** Get *)

Lemma lookup_leaf pre n lf :
  wf pre n → leaf n = Some lf →
  (list_to_map (leaves n) : gmap gostring V) !! (pre ++ prefix n) = Some (val lf).
Proof.
  intros Hwf Hlf. pose proof Hwf as (Hk & _)%wf_eq.
  rewrite leaves_eq, Hlf. simpl. rewrite (Hk lf Hlf). apply lookup_insert_eq.
Qed.

Lemma lookup_child pre n lbl child s :
  wf pre n → getEdge n lbl = Some child →
  (pre ++ prefix n) ++ [lbl] `prefix_of` s →
  (list_to_map (leaves n) : gmap gostring V) !! s
  = (list_to_map (leaves child) : gmap gostring V) !! s.
Proof.
  intros Hwf Eg Hs. pose proof Eg as (a & b & Hes)%getEdge_Some.
  destruct (wf_child pre n lbl child Hwf) as [_ Hwfc]; [rewrite Hes; apply elem_of_middle|].
  apply option_eq. intros v.
  rewrite <-!elem_of_list_to_map by eauto using wf_NoDup. split.
  - intros Hin. destruct (wf_descend pre n lbl (s, v) Hwf Hin Hs) as (c' & Eg' & Hc').
    congruence.
  - intros Hin. destruct (wf_split pre n a lbl child b Hwf Hes) as [-> _].
    rewrite !elem_of_app. auto.
Qed.

Lemma get_loop_spec fuel pre n search s :
  height n ≤ fuel → wf pre n → s = (pre ++ prefix n) ++ search →
  get_loop fuel n search
  = Ok (found ((list_to_map (leaves n) : gmap gostring V) !! s)).
Proof.
  revert pre n search. induction fuel as [|fuel IH]; intros pre n search Hh Hwf Hs.
  { pose proof (height_pos n). lia. }
  destruct search as [|c rest]; cbn [get_loop].
  - rewrite app_nil_r in Hs. subst s. destruct (leaf n) as [lf|] eqn:Elf.
    + by rewrite (lookup_leaf pre n lf).
    + by rewrite not_elem_of_list_to_map_1 by (by apply wf_path_fresh).
  - assert ((pre ++ prefix n) ++ [c] `prefix_of` s) as Hc
      by (rewrite Hs; apply prefix_of_snoc_cons).
    destruct (getEdge n c) as [child|] eqn:Eg.
    + rewrite (lookup_child pre n c child s) by done.
      destruct (hasPrefix (c :: rest) (prefix child)) eqn:Ehp.
      * apply hasPrefix_spec in Ehp as [search' Hsearch].
        rewrite Hsearch, drop_app_length.
        apply (IH (pre ++ prefix n)).
        -- apply height_getEdge in Eg. lia.
        -- pose proof Eg as (a & b & Hes)%getEdge_Some.
           apply (wf_child pre n c child Hwf). rewrite Hes. apply elem_of_middle.
        -- by rewrite Hs, Hsearch, <-!app_assoc.
      * apply hasPrefix_false in Ehp.
        rewrite not_elem_of_list_to_map_1; [done|].
        rewrite Hs. by eapply wf_child_mismatch.
    + rewrite not_elem_of_list_to_map_1; [done|].
      rewrite Hs. apply wf_absent; [done|]. by rewrite Eg.
Qed.

Lemma Get_spec t s : Inv t → Get t s = Ok (found (abs t !! s)).
Proof.
  intros [Hp Hwf _]. unfold Get, abs.
  apply (get_loop_spec _ []); [lia|done|by rewrite Hp].
Qed.

(** ** Walk and WalkPrefix *)

Lemma Walk_spec {St} t (fn : WalkFn St) st :
  never_stops fn → Walk t fn st = visit fn (leaves (root t)) st.
Proof. intros Hfn. unfold Walk. by rewrite recursiveWalk_never_stops. Qed.

Lemma walkPrefix_loop_spec {St} fuel pre n search s (fn : WalkFn St) st :
  never_stops fn →
  height n ≤ fuel → wf pre n → s = (pre ++ prefix n) ++ search →
  walkPrefix_loop fuel n search fn st
  = Ok (visit fn (filter (λ kv, s `prefix_of` kv.1) (leaves n)) st).
Proof.
  intros Hfn. revert pre n search.
  induction fuel as [|fuel IH]; intros pre n search Hh Hwf Hs.
  { pose proof (height_pos n). lia. }
  destruct search as [|c rest]; cbn [walkPrefix_loop].
  - rewrite app_nil_r in Hs. subst s.
    rewrite recursiveWalk_never_stops by done. simpl.
    by rewrite filter_all by (by apply wf_keys).
  - assert ((pre ++ prefix n) ++ [c] `prefix_of` s) as Hc
      by (rewrite Hs; apply prefix_of_snoc_cons).
    pose proof Hwf as (_ & Hsorted & _)%wf_eq.
    destruct (getEdge n c) as [child|] eqn:Eg.
    + pose proof Eg as (a & b & Hes)%getEdge_Some.
      destruct (wf_split pre n a c child b Hwf Hes) as [Hl Hout].
      destruct (wf_child pre n c child Hwf) as [_ Hwfc]; [rewrite Hes; apply elem_of_middle|].
      apply (Forall_not_prefix_of_trans _ s) in Hout; [|done].
      apply Forall_app in Hout as [Hx Hy].
      rewrite Hl, (filter_app _ (_ ++ _) (_ ++ _)), (filter_app _ (leaves child)).
      rewrite (filter_none _ _ Hx), (filter_none _ _ Hy), app_nil_r.
      simpl.
      destruct (hasPrefix (c :: rest) (prefix child)) eqn:Ehp.
      * apply hasPrefix_spec in Ehp as [search' Hsearch].
        rewrite Hsearch, drop_app_length.
        apply (IH (pre ++ prefix n)); [apply height_getEdge in Eg; lia|done|].
        by rewrite Hs, Hsearch, <-!app_assoc.
      * apply hasPrefix_false in Ehp.
        destruct (hasPrefix (prefix child) (c :: rest)) eqn:Ehp2.
        -- apply hasPrefix_spec in Ehp2.
           rewrite recursiveWalk_never_stops by done. simpl.
           rewrite filter_all; [done|].
           eapply Forall_impl; [by apply wf_keys|]. simpl. intros kv Hkv.
           etrans; [|exact Hkv]. rewrite Hs. by apply prefix_app.
        -- apply hasPrefix_false in Ehp2. rewrite filter_none; [done|].
           eapply Forall_impl; [by apply wf_keys|]. simpl. intros kv Hkv Hskv.
           rewrite Hs in Hskv.
           destruct (prefix_weak_total _ _ _ Hkv Hskv) as [H|H];
             apply prefix_app_inv in H; done.
    + rewrite filter_none; [done|].
      eapply Forall_not_prefix_of_trans; [done|].
      by apply wf_no_edge, getEdge_None.
Qed.

Lemma WalkPrefix_spec {St} t p (fn : WalkFn St) st :
  Inv t → never_stops fn →
  WalkPrefix t p fn st
  = Ok (visit fn (filter (λ kv, p `prefix_of` kv.1) (leaves (root t))) st).
Proof.
  intros [Hp Hwf _] Hfn. unfold WalkPrefix.
  apply (walkPrefix_loop_spec _ []); [done|lia|done|by rewrite Hp].
Qed.

(** ** LongestPrefix *)

Lemma children_match pre n c s kv :
  wf pre n → (pre ++ prefix n) ++ [c] `prefix_of` s →
  kv ∈ children_leaves (edges n) → kv.1 `prefix_of` s →
  ∃ child, getEdge n c = Some child ∧ kv ∈ leaves child.
Proof.
  intros Hwf Hc Hin Hkv.
  pose proof Hin as ([l ch] & Hin' & He)%list_elem_of_bind.
  pose proof (wf_child_keys pre n l ch kv Hwf He Hin') as Hl.
  assert (l = c) as -> by (eapply prefix_snoc_inj; [by etrans|done]).
  apply (wf_descend pre n c kv Hwf); [|done].
  rewrite leaves_eq. apply elem_of_app. by right.
Qed.

Lemma longest_stop pre n s (last : option leafNode) :
  wf pre n → pre ++ prefix n `prefix_of` s →
  Forall (λ kv, ¬ kv.1 `prefix_of` s) (children_leaves (edges n)) →
  let last' := match leaf n with Some lf => Some lf | None => last end in
  (∃ lf, last' = Some lf ∧ longest_match s (leaves n) (key lf, val lf)) ∨
  (last' = last ∧ Forall (λ kv, ¬ kv.1 `prefix_of` s) (leaves n)).
Proof.
  intros Hwf Hs Hch. pose proof Hwf as (Hk & _)%wf_eq. simpl.
  rewrite (leaves_eq n). destruct (leaf n) as [lf|]; [left|by right].
  exists lf. split; [done|]. specialize (Hk lf eq_refl). split_and!.
  - by left.
  - simpl. by rewrite Hk.
  - intros kv' [->%list_elem_of_singleton|Hin]%elem_of_app Hkv'; [done|].
    rewrite Forall_forall in Hch. by destruct (Hch kv').
Qed.

Lemma longest_loop_spec fuel pre n search s (last : option leafNode) :
  height n ≤ fuel → wf pre n → s = (pre ++ prefix n) ++ search →
  ∃ r, longest_loop fuel last n search = Ok (longest_result r) ∧
    ((∃ lf, r = Some lf ∧ longest_match s (leaves n) (key lf, val lf)) ∨
     (r = last ∧ Forall (λ kv, ¬ kv.1 `prefix_of` s) (leaves n))).
Proof.
  revert pre n search last.
  induction fuel as [|fuel IH]; intros pre n search last Hh Hwf Hs.
  { pose proof (height_pos n). lia. }
  assert (pre ++ prefix n `prefix_of` s) as Hps by (rewrite Hs; by apply prefix_app_r).
  destruct search as [|c rest]; cbn [longest_loop].
  - eexists. split; [done|]. apply (longest_stop pre); [done..|].
    rewrite app_nil_r in Hs. subst s. apply Forall_forall.
    intros kv ([l ch] & Hin & He)%list_elem_of_bind Hkv.
    pose proof (wf_child_keys pre n l ch kv Hwf He Hin) as Hl.
    apply prefix_length in Hl, Hkv. rewrite length_app in Hl. simpl in Hl. lia.
  - assert ((pre ++ prefix n) ++ [c] `prefix_of` s) as Hc
      by (rewrite Hs; apply prefix_of_snoc_cons).
    assert ((∀ child, getEdge n c = Some child →
               Forall (λ kv, ¬ kv.1 `prefix_of` s) (leaves child)) →
            Forall (λ kv, ¬ kv.1 `prefix_of` s) (children_leaves (edges n)))
      as Hnone.
    { intros Hchild. apply Forall_forall. intros kv Hin Hkv.
      destruct (children_match pre n c s kv) as (child & Eg & Hin'); [done..|].
      specialize (Hchild child Eg). rewrite Forall_forall in Hchild.
      by apply (Hchild kv). }
    destruct (getEdge n c) as [child|] eqn:Eg.
    + pose proof Eg as (a & b & Hes)%getEdge_Some.
      destruct (wf_child pre n c child Hwf) as [_ Hwfc]; [rewrite Hes; apply elem_of_middle|].
      destruct (hasPrefix (c :: rest) (prefix child)) eqn:Ehp.
      * apply hasPrefix_spec in Ehp as [search' Hsearch].
        rewrite Hsearch, drop_app_length.
        destruct (IH (pre ++ prefix n) child search'
                    (match leaf n with Some lf => Some lf | None => last end))
          as (r & Hr & Hcase);
          [apply height_getEdge in Eg; lia|done
          |by rewrite Hs, Hsearch, <-!app_assoc|].
        exists r. split; [done|].
        destruct Hcase as [(lf & -> & Hin & Hgood & Hmax)|[-> Hnot]].
        -- left. exists lf. split; [done|]. split_and!; [|done|].
           ++ rewrite leaves_eq, Hes, children_leaves_middle, !elem_of_app. auto.
           ++ intros kv' Hin' Hkv'. rewrite leaves_eq in Hin'.
              apply elem_of_app in Hin' as [Hin'|Hin'].
              ** pose proof Hwf as (Hk & _)%wf_eq.
                 destruct (leaf n) as [lf'|]; [|by apply elem_of_nil in Hin'].
                 apply list_elem_of_singleton in Hin' as ->. simpl.
                 rewrite (Hk lf') by done.
                 apply wf_keys in Hwfc. rewrite Forall_forall in Hwfc.
                 specialize (Hwfc _ Hin). apply prefix_length in Hwfc.
                 simpl in Hwfc. rewrite length_app in Hwfc. lia.
              ** destruct (children_match pre n c s kv') as (child' & Eg' & Hin'');
                   [done..|].
                 assert (child' = child) as -> by congruence. by apply Hmax.
        -- apply (longest_stop pre); [done..|]. apply Hnone.
           intros child' [= <-]. done.
      * apply hasPrefix_false in Ehp. eexists. split; [done|].
        apply (longest_stop pre); [done..|]. apply Hnone.
        intros child' [= <-]. eapply Forall_impl; [by apply wf_keys|]. simpl.
        intros kv Hkv Hkvs. apply Ehp. rewrite Hs in Hkvs.
        eapply prefix_app_inv. by etrans.
    + eexists. split; [done|]. apply (longest_stop pre); [done..|].
      by apply Hnone.
Qed.

Lemma LongestPrefix_spec t s :
  Inv t →
  ∃ res, LongestPrefix t s = Ok res ∧
    ((∃ k v, res = (k, v, true) ∧ abs t !! k = Some v ∧ k `prefix_of` s ∧
        ∀ k', is_Some (abs t !! k') → k' `prefix_of` s → length k' ≤ length k) ∨
     (res = ([], zeroVal, false) ∧
        ∀ k', is_Some (abs t !! k') → ¬ k' `prefix_of` s)).
Proof.
  intros [Hp Hwf _]. unfold LongestPrefix, abs.
  pose proof (wf_NoDup _ _ Hwf) as Hnd.
  destruct (longest_loop_spec (S (height (root t))) [] (root t) s s None)
    as (r & -> & Hcase); [lia|done|by rewrite Hp|].
  eexists. split; [done|].
  destruct Hcase as [(lf & -> & Hin & Hgood & Hmax)|[-> Hnot]].
  - left. exists (key lf), (val lf). split_and!; [done| |done|].
    + by apply elem_of_list_to_map.
    + intros k' [v' Hv']. apply elem_of_list_to_map in Hv'; [|done].
      apply (Hmax (k', v') Hv').
  - right. split; [done|]. intros k' [v' Hv'].
    apply elem_of_list_to_map in Hv'; [|done].
    rewrite Forall_forall in Hnot. apply (Hnot (k', v') Hv').
Qed.

(** ** Sequences of calls *)

Lemma step_spec t o :
  Inv t → ∃ t', step t o = Ok t' ∧ Inv t' ∧ abs t' = model_step (abs t) o.
Proof.
  intros Hinv. destruct o as [s v|s|s]; simpl.
  - destruct (Insert_spec t s v Hinv) as (t' & -> & ? & ?). by exists t'.
  - destruct (Delete_spec t s Hinv) as (t' & -> & ? & ? & _). by exists t'.
  - destruct (DeletePrefix_spec t s Hinv) as (t' & -> & ? & ?). by exists t'.
Qed.

Lemma run_spec t ops :
  Inv t → ∃ t', run t ops = Ok t' ∧ Inv t' ∧ abs t' = foldl model_step (abs t) ops.
Proof.
  revert t. induction ops as [|o ops IH]; intros t Hinv; [by exists t|].
  destruct (step_spec t o Hinv) as (t1 & Hstep & Hinv1 & Habs1).
  destruct (IH t1 Hinv1) as (t' & Hrun & Hinv' & Habs').
  exists t'. simpl. rewrite Hstep. cbn. by rewrite Hrun, Habs', Habs1.
Qed.

Lemma run_New ops : ∃ t, run New ops = Ok t ∧ Inv t ∧ abs t = model ops.
Proof. apply (run_spec New ops New_Inv). Qed.

Lemma reachable_Inv t : reachable t → Inv t.
Proof.
  intros [ops Hrun]. destruct (run_New ops) as (t' & Hrun' & Hinv & _).
  congruence.
Qed.

Lemma abs_lookup t k v :
  Inv t → abs t !! k = Some v ↔ (k, v) ∈ leaves (root t).
Proof.
  intros [_ Hwf _]. unfold abs. symmetry. apply elem_of_list_to_map.
  by eapply wf_NoDup.
Qed.

Lemma Len_abs t : Inv t → Len t = Z.of_nat (base.size (abs t)).
Proof.
  intros [_ Hwf Hsz]. unfold Len, abs.
  rewrite map_size_list_to_map by (by eapply wf_NoDup). done.
Qed.

Lemma sorted_filter (P : gostring * V → Prop) `{!∀ x, Decision (P x)}
    (l : list (gostring * V)) :
  StronglySorted key_lt l.*1 → StronglySorted key_lt (filter P l).*1.
Proof.
  induction l as [|[k v] l IH]; [done|]. rewrite fmap_cons.
  intros [Hk Hs]%StronglySorted_cons. destruct (decide (P (k, v))).
  - rewrite filter_cons_True, fmap_cons by done. apply StronglySorted_cons.
    split; [|auto]. rewrite Forall_forall in *.
    intros k' (kv & -> & [_ Hin]%list_elem_of_filter)%list_elem_of_fmap.
    apply Hk. apply list_elem_of_fmap. eauto.
  - rewrite filter_cons_False by done. auto.
Qed.

Lemma last_assigned_model (k : gostring) (ins : list (gostring * V))
    (m : gmap gostring V) :
  foldl model_step m ((λ kv, OpInsert kv.1 kv.2) <$> ins) !! k
  = foldl (λ acc kv, if decide (kv.1 = k) then Some kv.2 else acc) (m !! k) ins.
Proof.
  revert m. induction ins as [|[k' v] ins IH]; intros m; [done|].
  simpl. rewrite IH. f_equal. apply lookup_insert.
Qed.

Lemma last_assigned_Some (k : gostring) (ins : list (gostring * V))
    (o : option V) :
  k ∈ ins.*1 →
  is_Some (foldl (λ acc kv, if decide (kv.1 = k) then Some kv.2 else acc) o ins).
Proof.
  revert o. induction ins as [|[k' v] ins IH]; intros o Hin.
  { by apply elem_of_nil in Hin. }
  simpl. destruct (decide (k' = k)) as [->|Hne].
  - destruct (decide (k ∈ ins.*1)); [by apply IH|].
    clear IH Hin. revert v. induction ins as [|[k2 v2] ins IH]; intros v; [by eexists|].
    rewrite fmap_cons, not_elem_of_cons in n. destruct n as [Hne Hni].
    simpl. rewrite decide_False by done. by apply IH.
  - apply IH. rewrite fmap_cons in Hin. apply elem_of_cons in Hin as [?|?]; [|done].
    by subst.
Qed.

Lemma last_assigned_None (k : gostring) (ins : list (gostring * V))
    (o : option V) :
  k ∉ ins.*1 →
  foldl (λ acc kv, if decide (kv.1 = k) then Some kv.2 else acc) o ins = o.
Proof.
  revert o. induction ins as [|[k' v] ins IH]; intros o Hni; [done|].
  rewrite fmap_cons, not_elem_of_cons in Hni. destruct Hni as [Hne Hni].
  simpl. rewrite decide_False by done. by apply IH.
Qed.

(** ** Properties of the public interface *)

(** C3.  After any sequence of [Insert] calls on an empty tree, [Get] on an
    inserted key returns the value most recently assigned to it, with
    [true]; [Get] on a key that was never inserted returns the zero value
    with [false]. *)
Theorem Get_after_Inserts (ins : list (gostring * V)) :
  ∃ t, run New ((λ kv, OpInsert kv.1 kv.2) <$> ins) = Ok t ∧
    (∀ k, k ∈ ins.*1 →
       ∃ v, last_assigned k ins = Some v ∧ Get t k = Ok (v, true)) ∧
    (∀ k, k ∉ ins.*1 → Get t k = Ok (zeroVal, false)).
Proof.
  destruct (run_New ((λ kv, OpInsert kv.1 kv.2) <$> ins)) as (t & Hrun & Hinv & Habs).
  exists t. split; [done|].
  assert (∀ k, abs t !! k = last_assigned k ins) as Hlast.
  { intros k. rewrite Habs. unfold model. rewrite last_assigned_model.
    by rewrite lookup_empty. }
  split; intros k Hk; rewrite Get_spec, Hlast by done.
  - destruct (last_assigned_Some k ins None Hk) as [v Hv].
    exists v. unfold last_assigned. by rewrite Hv.
  - unfold last_assigned. by rewrite last_assigned_None.
Qed.

(** C4.  On every reachable tree, [Walk] with a callback that always returns
    [false] calls it once for each present key, with the value of that key,
    and in strictly ascending byte-wise order of the keys. *)
Theorem Walk_ascending (ops : list op) :
  ∃ t, run New ops = Ok t ∧
    ∀ (St : Type) (fn : WalkFn St) (st : St), never_stops fn →
      ∃ calls, Walk t (logged fn) (st, []) = (visit fn calls st, calls) ∧
        StronglySorted key_lt calls.*1 ∧
        NoDup calls.*1 ∧
        ∀ k v, (k, v) ∈ calls ↔ model ops !! k = Some v.
Proof.
  destruct (run_New ops) as (t & Hrun & Hinv & Habs).
  exists t. split; [done|]. intros St fn st Hfn.
  exists (leaves (root t)). split_and!.
  - rewrite Walk_spec by (by apply logged_never_stops).
    by rewrite visit_logged.
  - eapply wf_sorted, inv_wf, Hinv.
  - eapply wf_NoDup, inv_wf, Hinv.
  - intros k v. by rewrite <-Habs, abs_lookup.
Qed.

(** C5.  On every reachable tree, [WalkPrefix] with a callback that always
    returns [false] calls it exactly for the present keys that have [p] as a
    prefix, once each, in strictly ascending byte-wise order; it makes no call
    when no present key has [p] as a prefix. *)
Theorem WalkPrefix_exact (ops : list op) (p : gostring) :
  ∃ t, run New ops = Ok t ∧
    ∀ (St : Type) (fn : WalkFn St) (st : St), never_stops fn →
      ∃ calls, WalkPrefix t p (logged fn) (st, []) = Ok (visit fn calls st, calls) ∧
        StronglySorted key_lt calls.*1 ∧
        NoDup calls.*1 ∧
        (∀ k v, (k, v) ∈ calls ↔ model ops !! k = Some v ∧ p `prefix_of` k) ∧
        ((∀ k, is_Some (model ops !! k) → ¬ p `prefix_of` k) → calls = []).
Proof.
  destruct (run_New ops) as (t & Hrun & Hinv & Habs).
  exists t. split; [done|]. intros St fn st Hfn.
  set (calls := filter (λ kv : gostring * V, p `prefix_of` kv.1) (leaves (root t))).
  assert (∀ k v, (k, v) ∈ calls ↔ model ops !! k = Some v ∧ p `prefix_of` k) as Hin.
  { intros k v. unfold calls. rewrite list_elem_of_filter, <-Habs, abs_lookup by done.
    simpl. tauto. }
  exists calls. split_and!.
  - rewrite WalkPrefix_spec by (by try apply logged_never_stops).
    by rewrite visit_logged.
  - apply sorted_filter. eapply wf_sorted, inv_wf, Hinv.
  - apply NoDup_fst_filter. eapply wf_NoDup, inv_wf, Hinv.
  - done.
  - intros Hnone. destruct calls as [|[k v] l] eqn:E; [done|exfalso].
    destruct (Hin k v) as [[Hk Hp] _]; [by left|]. by apply (Hnone k).
Qed.

(** C6.  On every reachable tree, [LongestPrefix] returns the longest present
    key that is a prefix of the query, with its value and [true]; it returns
    the empty string, the zero value and [false] when no present key is a
    prefix of the query. *)
Theorem LongestPrefix_longest (ops : list op) (s : gostring) :
  ∃ t, run New ops = Ok t ∧
    ∃ res, LongestPrefix t s = Ok res ∧
      ((∃ m v, res = (m, v, true) ∧ model ops !! m = Some v ∧ m `prefix_of` s ∧
          ∀ k, is_Some (model ops !! k) → k `prefix_of` s → length k ≤ length m) ∨
       (res = ([], zeroVal, false) ∧
          ∀ k, is_Some (model ops !! k) → ¬ k `prefix_of` s)).
Proof.
  destruct (run_New ops) as (t & Hrun & Hinv & Habs).
  exists t. split; [done|]. rewrite <-Habs. by apply LongestPrefix_spec.
Qed.

(** C8.  After every sequence of public operations on an empty tree, [Len]
    is the number of present keys; [Insert] on a present key, [Delete] of an
    absent key and [DeletePrefix] with a prefix of no present key leave it
    unchanged. *)
Theorem Len_counts_keys (ops : list op) :
  ∃ t, run New ops = Ok t ∧
    Len t = Z.of_nat (base.size (model ops)) ∧
    (∀ s v, is_Some (model ops !! s) →
       ∃ t' r, Insert t s v = Ok (t', r) ∧ Len t' = Len t) ∧
    (∀ s, model ops !! s = None →
       ∃ t' r, Delete t s = Ok (t', r) ∧ Len t' = Len t) ∧
    (∀ p, (∀ k, is_Some (model ops !! k) → ¬ p `prefix_of` k) →
       ∃ t' cnt, DeletePrefix t p = Ok (t', cnt) ∧ Len t' = Len t).
Proof.
  destruct (run_New ops) as (t & Hrun & Hinv & Habs).
  exists t. split; [done|]. rewrite <-Habs. split_and!.
  - by apply Len_abs.
  - intros s v Hs. destruct (Insert_spec t s v Hinv) as (t' & Heq & Hinv' & Habs').
    exists t', (found (abs t !! s)). split; [done|].
    by rewrite !Len_abs, Habs', map_size_insert_Some.
  - intros s Hs. destruct (Delete_spec t s Hinv) as (t' & Heq & Hinv' & Habs' & _).
    exists t', (found (abs t !! s)). split; [done|].
    by rewrite !Len_abs, Habs', delete_id.
  - intros p Hp. destruct (DeletePrefix_spec t p Hinv) as (t' & Heq & Hinv' & Habs').
    eexists t', _. split; [done|].
    rewrite (Len_abs t'), (Len_abs t), Habs' by done.
    rewrite map_filter_id; [done|].
    intros k v Hk. simpl. apply Hp. by exists v.
Qed.

(** C9.  The panic of [updateEdge] is out of reach: the split of [Insert]
    calls it with the label for which [getEdge] has just found an edge.  No
    sequence of public operations on an empty tree panics or fails to
    return, and neither does a query on the tree they leave. *)
Theorem updateEdge_never_panics :
  (∀ (n : node) (lbl : byte) (c child : node),
     getEdge n lbl = Some c → ∃ n', updateEdge n lbl child = Ok n') ∧
  (∀ ops : list op, ∃ t, run New ops = Ok t ∧
     (∀ o : op, ∃ t', step t o = Ok t') ∧
     (∀ s, ∃ r, Get t s = Ok r) ∧
     (∀ s, ∃ r, LongestPrefix t s = Ok r) ∧
     (∃ r, Minimum t = Ok r) ∧
     (∃ r, Maximum t = Ok r) ∧
     (∀ (St : Type) (p : gostring) (fn : WalkFn St) (st : St),
        ∃ r, WalkPrefix t p fn st = Ok r)).
Proof.
  split.
  - intros n lbl c child Hg.
    destruct (updateEdge_after_getEdge n lbl c child Hg) as (a & b & _ & ->). eauto.
  - intros ops. destruct (run_New ops) as (t & Hrun & Hinv & _).
    exists t. split_and!; [done|..].
    + intros o. destruct (step_spec t o Hinv) as (t' & Hstep & _). eauto.
    + intros s. apply get_loop_total. lia.
    + intros s. apply longest_loop_total. lia.
    + apply minimum_loop_total. lia.
    + apply maximum_loop_total. lia.
    + intros St p fn st. apply walkPrefix_loop_total. lia.
Qed.

(** C10.  On every reachable tree, [Delete] of a key that is not present
    returns the zero value with [false] and leaves the tree as it is. *)
Theorem Delete_absent_unchanged (ops : list op) (k : gostring) :
  model ops !! k = None →
  ∃ t, run New ops = Ok t ∧ Delete t k = Ok (t, (zeroVal, false)).
Proof.
  intros Hk. destruct (run_New ops) as (t & Hrun & Hinv & Habs).
  exists t. split; [done|]. rewrite <-Habs in Hk.
  destruct (Delete_spec t k Hinv) as (t' & Heq & _ & _ & Hsame).
  by rewrite Heq, Hk, (Hsame Hk).
Qed.

(** ** What holds of DeletePrefix, and of Insert followed by Delete *)

Lemma inv1_wf pre n : wf pre n → inv1 n = true.
Proof.
  revert pre. induction n as [lf p es IH] using node_ind. intros pre.
  rewrite wf_Node. intros (_ & Hs & Hes). simpl.
  apply andb_true_iff. split; [by apply bool_decide_eq_true|].
  clear Hs. induction es as [|e es IHes]; [done|].
  apply Forall_cons in IH as [IHe IH]. apply Forall_cons in Hes as [[_ He] Hes].
  apply andb_true_iff. split; [by eapply IHe|by apply IHes].
Qed.

(** X9.  On every reachable tree, [DeletePrefix] removes the present keys that
    have [p] as a prefix and no other, returns their number, and leaves a
    tree whose root has the empty prefix and whose edges are everywhere in
    ascending order of distinct labels. *)
Lemma DeletePrefix_removes_exactly (ops : list op) (p : gostring) :
  ∃ t t', run New ops = Ok t ∧
    DeletePrefix t p
      = Ok (t', Z.of_nat (base.size (filter (λ kv, p `prefix_of` kv.1) (model ops)))) ∧
    (∀ k, Get t' k
          = Ok (found (if decide (p `prefix_of` k) then None else model ops !! k))) ∧
    Len t' = Z.of_nat (base.size (filter (λ kv, ¬ p `prefix_of` kv.1) (model ops))) ∧
    inv1 (root t') = true ∧ inv3 t' = true.
Proof.
  destruct (run_New ops) as (t & Hrun & Hinv & Habs).
  destruct (DeletePrefix_spec t p Hinv) as (t' & Heq & Hinv' & Habs').
  exists t, t'. rewrite <-Habs. split_and!; [done|done| | | |].
  - intros k. rewrite Get_spec, Habs' by done. f_equal. f_equal.
    rewrite map_lookup_filter. destruct (abs t !! k) as [v|]; simpl.
    + case_decide; by rewrite ?option_guard_True, ?option_guard_False by tauto.
    + by case_decide.
  - by rewrite Len_abs, Habs'.
  - eapply inv1_wf, inv_wf, Hinv'.
  - apply bool_decide_eq_true, Hinv'.
Qed.

Lemma key_lt_asym a b : key_lt a b → key_lt b a → False.
Proof.
  unfold key_lt. revert b. induction a as [|x a IH]; intros [|y b]; simpl; try done.
  destruct (byte_ltb x y) eqn:Exy, (byte_ltb y x) eqn:Eyx.
  - apply byte_ltb_lt in Exy, Eyx. intros _ _.
    by eapply byte_lt_irrefl, byte_lt_trans.
  - destruct (byte_eqb y x) eqn:E; [|done]. apply byte_eqb_eq in E as ->.
    apply byte_ltb_lt in Exy. by apply byte_lt_irrefl in Exy.
  - destruct (byte_eqb x y) eqn:E; [|done]. apply byte_eqb_eq in E as ->.
    apply byte_ltb_lt in Eyx. by apply byte_lt_irrefl in Eyx.
  - destruct (byte_eqb x y), (byte_eqb y x); try done. apply IH.
Qed.

Lemma sorted_fst (l : list (gostring * V)) :
  StronglySorted key_lt l.*1 → StronglySorted (λ x y, key_lt x.1 y.1) l.
Proof.
  induction l as [|kv l IH]; [constructor|]. rewrite fmap_cons.
  intros [Hk Hs]%StronglySorted_cons. constructor; [auto|].
  rewrite Forall_forall in Hk. apply Forall_forall. intros kv' Hin. apply Hk.
  by apply list_elem_of_fmap_2.
Qed.

(** Two well-formed trees that stand for the same dictionary hold the same
    entries in the same order. *)
Lemma leaves_unique t t' :
  Inv t → Inv t' → abs t = abs t' → leaves (root t) = leaves (root t').
Proof.
  intros [_ Hwf _] [_ Hwf' _] Habs.
  apply (StronglySorted_unique_strong (λ x y, key_lt x.1 y.1)).
  - intros x1 x2 _ _ H1 H2. by destruct (key_lt_asym _ _ H1 H2).
  - by eapply sorted_fst, wf_sorted.
  - by eapply sorted_fst, wf_sorted.
  - apply (list_to_map_inj (M := gmap gostring)); [by eapply wf_NoDup..|done].
Qed.

Lemma longest_match_unique s (l : list (gostring * V)) kv1 kv2 :
  NoDup l.*1 → longest_match s l kv1 → longest_match s l kv2 → kv1 = kv2.
Proof.
  intros Hnd (Hin1 & Hp1 & Hmax1) (Hin2 & Hp2 & Hmax2).
  pose proof (Hmax1 kv2 Hin2 Hp2) as H21. pose proof (Hmax2 kv1 Hin1 Hp1) as H12.
  destruct kv1 as [k1 v1], kv2 as [k2 v2]. simpl in *.
  assert (k1 = k2) as ->.
  { assert (length k1 = length k2) as Hlen by lia.
    destruct Hp1 as [r1 ->]. destruct Hp2 as [r2 Heq].
    apply (f_equal (take (length k2))) in Heq.
    rewrite take_app_length in Heq. rewrite <-Hlen in Heq.
    by rewrite take_app_length in Heq. }
  f_equal. apply (elem_of_list_to_map (M := gmap gostring)) in Hin1, Hin2; try done.
  congruence.
Qed.

Lemma LongestPrefix_unique t t' s :
  Inv t → Inv t' → abs t = abs t' → LongestPrefix t s = LongestPrefix t' s.
Proof.
  intros Hinv Hinv' Habs. pose proof (leaves_unique t t' Hinv Hinv' Habs) as Hl.
  destruct Hinv as [Hp Hwf _], Hinv' as [Hp' Hwf' _]. unfold LongestPrefix.
  destruct (longest_loop_spec (S (height (root t))) [] (root t) s s None)
    as (r & -> & Hr); [lia|done|by rewrite Hp|].
  destruct (longest_loop_spec (S (height (root t'))) [] (root t') s s None)
    as (r' & -> & Hr'); [lia|done|by rewrite Hp'|].
  rewrite <-Hl in Hr'. f_equal.
  destruct Hr as [(lf & -> & Hm)|[-> Hnone]], Hr' as [(lf' & -> & Hm')|[-> Hnone']].
  - pose proof (longest_match_unique s _ _ _ (wf_NoDup _ _ Hwf) Hm Hm') as Heq.
    simpl. by injection Heq as -> ->.
  - destruct Hm as (Hin & Hgood & _). rewrite Forall_forall in Hnone'.
    by destruct (Hnone' _ Hin).
  - destruct Hm' as (Hin & Hgood & _). rewrite Forall_forall in Hnone.
    by destruct (Hnone _ Hin).
  - done.
Qed.

(** X11.  On every reachable tree, [Insert] of an absent key followed by [Delete]
    of that key returns the inserted value with [true], and [Get],
    [LongestPrefix], [Walk] and [Len] answer afterwards as they did before
    the [Insert]. *)
Lemma Insert_then_Delete (ops : list op) (k : gostring) (v : V) :
  model ops !! k = None →
  ∃ t t1 t2, run New ops = Ok t ∧
    Insert t k v = Ok (t1, (zeroVal, false)) ∧
    Delete t1 k = Ok (t2, (v, true)) ∧
    (∀ q, Get t2 q = Get t q) ∧
    (∀ q, LongestPrefix t2 q = LongestPrefix t q) ∧
    (∀ (St : Type) (fn : WalkFn St) (st : St), never_stops fn →
       Walk t2 fn st = Walk t fn st) ∧
    Len t2 = Len t.
Proof.
  intros Hk. destruct (run_New ops) as (t & Hrun & Hinv & Habs).
  rewrite <-Habs in Hk.
  destruct (Insert_spec t k v Hinv) as (t1 & Hins & Hinv1 & Habs1).
  destruct (Delete_spec t1 k Hinv1) as (t2 & Hdel & Hinv2 & Habs2 & _).
  rewrite Hk in Hins. rewrite Habs1, lookup_insert_eq in Hdel.
  assert (abs t2 = abs t) as Heq by (by rewrite Habs2, Habs1, delete_insert_eq, delete_id).
  exists t, t1, t2. split_and!; [done..| | | |].
  - intros q. by rewrite !Get_spec, Heq.
  - intros q. by apply LongestPrefix_unique.
  - intros St fn st Hfn. rewrite !Walk_spec by done.
    by rewrite (leaves_unique t2 t).
  - by rewrite !Len_abs, Heq.
Qed.

(** ** Trees that never saw DeletePrefix *)

Lemma compact_eq n :
  compact n = true ↔
  Forall (λ e, justified e.2 = true ∧ compact e.2 = true) (edges n).
Proof.
  destruct n as [lf p es]. simpl. induction es as [|e es IH].
  { split; [constructor|done]. }
  rewrite Forall_cons, !andb_true_iff, IH. tauto.
Qed.

Lemma sort_insert_Permutation (e : byte * node) es : sort_insert e es ≡ₚ e :: es.
Proof.
  induction es as [|x r IH]; [done|]. simpl.
  destruct (byte_ltb _ _); [|done]. rewrite IH. apply Permutation_swap.
Qed.

Lemma Sort_Permutation (es : list (byte * node)) : Sort es ≡ₚ es.
Proof.
  unfold Sort. induction es as [|e es IH]; [done|]. simpl.
  by rewrite sort_insert_Permutation, IH.
Qed.

Lemma compact_addEdge n (e : byte * node) :
  compact n = true → justified e.2 = true → compact e.2 = true →
  compact (addEdge n e) = true ∧
  length (edges (addEdge n e)) = S (length (edges n)).
Proof.
  intros Hn Hj Hc. unfold addEdge. split.
  - apply compact_eq. simpl. rewrite Sort_Permutation.
    apply Forall_app. split; [by apply compact_eq|by constructor].
  - simpl. rewrite Sort_Permutation, length_app. simpl. lia.
Qed.

Lemma compact_middle n a lbl c c' b :
  edges n = a ++ (lbl, c) :: b → compact n = true →
  justified c' = true → compact c' = true →
  compact (set_edges n (a ++ (lbl, c') :: b)) = true.
Proof.
  intros Hes Hn Hj Hc. apply compact_eq in Hn. rewrite Hes in Hn.
  apply compact_eq. simpl.
  apply Forall_app in Hn as [Ha [_ Hb]%Forall_cons].
  apply Forall_app. split; [done|]. by constructor.
Qed.

Lemma compact_child n a lbl c b :
  edges n = a ++ (lbl, c) :: b → compact n = true →
  justified c = true ∧ compact c = true.
Proof.
  intros Hes Hn. apply compact_eq in Hn. rewrite Hes in Hn.
  by apply Forall_app in Hn as [_ [? _]%Forall_cons].
Qed.

Lemma justified_same_edges n n' :
  (isLeaf n = true → isLeaf n' = true) →
  length (edges n) ≤ length (edges n') →
  justified n = true → justified n' = true.
Proof.
  unfold justified. intros Hl Hlen [H|H%Nat.leb_le]%orb_true_iff.
  - by rewrite Hl.
  - apply orb_true_iff. right. apply Nat.leb_le. lia.
Qed.

Lemma insert_loop_compact fuel pre n search s v sz n' sz' r :
  insert_loop fuel n search s v sz = Ok (n', sz', r) →
  wf pre n → compact n = true →
  compact n' = true ∧ (justified n = true → justified n' = true).
Proof.
  revert pre n search sz n' sz' r.
  induction fuel as [|fuel IH]; intros pre n search sz n' sz' r Heq Hwf Hc; [done|].
  destruct search as [|c rest]; cbn [insert_loop] in Heq.
  - destruct (leaf n) as [lf|] eqn:Elf; injection Heq as <- <- <-.
    + split; [by destruct n|]. by apply justified_same_edges.
    + split; [by destruct n|]. by apply justified_same_edges.
  - pose proof Hwf as (_ & Hsorted & _)%wf_eq.
    destruct (getEdge n c) as [ch|] eqn:Eg.
    + pose proof Eg as (a & b & Hes)%getEdge_Some.
      destruct (compact_child n a c ch b Hes Hc) as [Hjch Hcch].
      destruct (wf_child pre n c ch Hwf) as [_ Hwfc]; [rewrite Hes; apply elem_of_middle|].
      assert (∀ X, justified n = true →
                justified (set_edges n (a ++ (c, X) :: b)) = true) as Hjn.
      { intros X. apply justified_same_edges; [done|]. simpl.
        rewrite Hes, !length_app. simpl. lia. }
      remember (longestPrefix (c :: rest) (prefix ch)) as cp eqn:Ecp. clear Ecp.
      destruct (cp =? length (prefix ch)).
      * destruct (insert_loop fuel ch _ s v sz) as [[[ch' sz1] r1]| |] eqn:Erec;
          cbn in Heq; [|done..]. injection Heq as <- <- <-.
        destruct (IH _ _ _ _ _ _ _ Erec Hwfc Hcch) as [Hc' Hj'].
        rewrite (storeEdge_middle n a b c ch) by done.
        split; [|by apply Hjn]. eapply compact_middle; eauto.
      * rewrite (updateEdge_middle n a b c ch) in Heq by done. cbn in Heq.
        destruct (prefix ch !! _) as [lbl|]; cbn in Heq; [|done].
        rewrite addEdge_empty in Heq.
        set (p0 := take cp (c :: rest)) in *.
        assert (∀ X, storeEdge (set_edges n (a ++ (c, Node None p0 []) :: b)) c X
                  = set_edges n (a ++ (c, X) :: b)) as Hstore.
        { intros X. erewrite storeEdge_middle; [done..|].
          simpl. rewrite Hes in Hsorted. by eapply sorted_edges_replace. }
        set (ch_trim := set_prefix ch (drop cp (prefix ch))) in *.
        assert (justified ch_trim = true ∧ compact ch_trim = true) as [Hjt Hct]
          by (by destruct ch).
        destruct (drop _ (c :: rest)) as [|c2 rest2].
        -- injection Heq as <- <- <-. rewrite Hstore.
           split; [|by apply Hjn].
           eapply compact_middle; [exact Hes|exact Hc|done|].
           cbn [compact set_leaf edges snd]. by rewrite Hjt, Hct.
        -- injection Heq as <- <- <-. rewrite Hstore.
           split; [|by apply Hjn].
           eapply compact_middle; [exact Hes|exact Hc| |].
           ++ unfold justified, addEdge. simpl.
              by destruct (byte_ltb _ _).
           ++ apply compact_addEdge; [|done..].
              cbn [compact edges snd]. by rewrite Hjt, Hct.
    + injection Heq as <- <- <-.
      destruct (compact_addEdge n (c, Node (Some (mkLeaf s v)) (c :: rest) []))
        as [Hc' Hlen]; [done..|].
      split; [done|]. apply justified_same_edges; [done|lia].
Qed.

Lemma merge_guarded_compact n (guard : bool) m :
  (if guard then mergeChild n else Ok n) = Ok m →
  compact n = true →
  compact m = true ∧ (guard = true → justified m = true) ∧ (guard = false → m = n).
Proof.
  intros Heq Hc. destruct guard.
  - unfold mergeChild in Heq. destruct (edges n) as [|e es] eqn:Hes; [done|].
    injection Heq as <-. apply compact_eq in Hc. rewrite Hes in Hc.
    apply Forall_cons in Hc as [[Hj Hc] _]. unfold enode.
    split_and!; [by destruct e.2|by intros _; destruct e.2|done].
  - injection Heq as <-. by split_and!.
Qed.

Lemma delete_found_compact pre parent n lf sz t' sz' v :
  delete_found parent n lf sz = Ok (t', sz', v) →
  ctx_ok pre parent n →
  compact (top parent n) = true →
  (top_is_root parent = false → justified (top parent n) = true) →
  compact t' = true ∧ (top_is_root parent = false → justified t' = true).
Proof.
  unfold delete_found. intros Heq Hctx Hc Hj.
  destruct parent as [[[p l] r]|]; cbn [ctx_ok top top_is_root] in *.
  2:{ injection Heq as <- <- <-. split; [by destruct n|done]. }
  destruct Hctx as [Hwf Hg].
  pose proof Hg as (a & b & Hes)%getEdge_Some.
  pose proof Hwf as (_ & Hsorted & _)%wf_eq.
  destruct (compact_child p a l n b Hes Hc) as [Hjn Hcn].
  change (edges (set_leaf n None)) with (edges n) in Heq.
  assert (∀ p2, compact p2 = true →
            (r = false → isLeaf p2 = true ∨ 1 ≤ length (edges p2)) →
            (parent ← (if negb r && (length (edges p2) =? 1) && negb (isLeaf p2)
                       then mergeChild p2 else Ok p2);
             Ok (parent, (sz - 1)%Z, val lf)) = Ok (t', sz', v) →
            compact t' = true ∧ (r = false → justified t' = true)) as Hfinish.
  { intros p2 Hc2 Hj2 Heq2.
    destruct (if negb r && _ && _ then mergeChild p2 else Ok p2) as [m| |] eqn:Em;
      cbn in Heq2; [|done..]. injection Heq2 as <- _ _.
    destruct (merge_guarded_compact _ _ _ Em Hc2) as (Hcm & Hjm & Hsame).
    split; [done|]. intros ->. specialize (Hj2 eq_refl).
    destruct (negb false && (length (edges p2) =? 1) && negb (isLeaf p2)) eqn:Eg.
    - by apply Hjm.
    - rewrite Hsame by done. unfold justified. apply orb_true_iff.
      destruct (isLeaf p2) eqn:El; [by left|right]. apply Nat.leb_le.
      destruct Hj2 as [?|Hlen]; [done|].
      simpl in Eg. rewrite andb_true_r in Eg. apply Nat.eqb_neq in Eg. lia. }
  destruct (Nat.eqb_spec (length (edges n)) 0) as [Hen%nil_length_inv|Hen].
  - rewrite Hen in Heq. cbn in Heq.
    rewrite (delEdge_middle p a b l n) in Heq by done.
    apply Hfinish in Heq; [done| |].
    + apply compact_eq in Hc. rewrite Hes in Hc. apply compact_eq. simpl.
      apply Forall_app in Hc as [Ha [_ Hb]%Forall_cons]. by apply Forall_app.
    + intros Hr. specialize (Hj Hr). unfold justified in Hj. simpl.
      apply orb_true_iff in Hj as [Hl|Hlen%Nat.leb_le]; [by left|right].
      rewrite Hes, length_app in Hlen. simpl in Hlen. rewrite length_app. lia.
  - cbn in Heq.
    destruct (if length (edges n) =? 1 then mergeChild (set_leaf n None)
              else Ok (set_leaf n None)) as [n2| |] eqn:En2; cbn in Heq; [|done..].
    rewrite (storeEdge_middle p a b l n) in Heq by done.
    destruct (merge_guarded_compact _ _ _ En2) as (Hc2 & Hj2 & Hsame2);
      [by destruct n|].
    apply Hfinish in Heq; [done| |].
    + eapply compact_middle; [exact Hes|exact Hc| |done].
      destruct (Nat.eqb_spec (length (edges n)) 1) as [H1|H1]; [by apply Hj2|].
      rewrite Hsame2 by done. unfold justified.
      apply orb_true_iff. right. apply Nat.leb_le.
      change (edges (set_leaf n None)) with (edges n). lia.
    + intros _. right. simpl. rewrite length_app. simpl. lia.
Qed.

Lemma delete_loop_compact fuel pre parent n search sz t' sz' v :
  delete_loop fuel parent n search sz = Ok (Some (t', sz', v)) →
  ctx_ok pre parent n →
  compact (top parent n) = true →
  (top_is_root parent = false → justified (top parent n) = true) →
  compact t' = true ∧ (top_is_root parent = false → justified t' = true).
Proof.
  revert pre parent n search t' sz' v.
  induction fuel as [|fuel IH]; intros pre parent n search t' sz' v Heq Hctx Hc Hj;
    [done|].
  set (pre_n := match parent with None => pre | Some (p, _, _) => pre ++ prefix p end).
  assert (wf pre_n n) as Hwfn by (by apply ctx_ok_wf).
  assert (compact n = true ∧ (is_nil parent = false → justified n = true))
    as [Hcn Hjn].
  { destruct parent as [[[p l] r]|]; [|done]. destruct Hctx as [_ Hg].
    apply getEdge_Some in Hg as (a & b & Hes).
    destruct (compact_child p a l n b Hes Hc). done. }
  destruct search as [|lbl rest]; cbn [delete_loop] in Heq.
  - destruct (leaf n) as [lf|]; [|done].
    destruct (delete_found parent n lf sz) as [[[t1 sz1] v1]| |] eqn:Ef;
      cbn in Heq; [|done..]. injection Heq as <- <- <-.
    by eapply delete_found_compact.
  - destruct (getEdge n lbl) as [child|] eqn:Eg; [|done].
    destruct (hasPrefix _ _); [|done].
    destruct (delete_loop fuel _ child _ sz) as [[[[n' sz1] v1]|]| |] eqn:Erec;
      cbn in Heq; [|done..]. injection Heq as <- <- <-.
    destruct (IH pre_n _ _ _ _ _ _ Erec) as [Hc' Hj']; [done..|].
    cbn [top_is_root] in Hj'.
    destruct parent as [[[p l] r]|]; cbn [ctx_ok top top_is_root reattach] in *;
      [|done].
    destruct Hctx as [Hwf Hg]. pose proof Hg as (a & b & Hes)%getEdge_Some.
    pose proof Hwf as (_ & Hsorted & _)%wf_eq.
    rewrite (storeEdge_middle p a b l n) by done. split.
    + eapply compact_middle; [exact Hes|exact Hc|by apply Hj'|done].
    + intros Hr. specialize (Hj Hr). revert Hj.
      apply justified_same_edges; [done|]. simpl.
      rewrite Hes, !length_app. simpl. lia.
Qed.

Lemma Insert_compact t s v t' r :
  Inv t → compact (root t) = true → Insert t s v = Ok (t', r) →
  compact (root t') = true.
Proof.
  intros [_ Hwf _] Hc. unfold Insert.
  destruct (insert_loop _ _ _ _ _ _) as [[[n' sz'] r']| |] eqn:E; cbn; [|done..].
  intros [= <- _]. by destruct (insert_loop_compact _ _ _ _ _ _ _ _ _ _ E Hwf Hc).
Qed.

Lemma Delete_compact t s t' r :
  Inv t → compact (root t) = true → Delete t s = Ok (t', r) →
  compact (root t') = true.
Proof.
  intros [_ Hwf _] Hc. unfold Delete.
  destruct (delete_loop _ _ _ _ _) as [[[[n' sz'] v]|]| |] eqn:E; cbn; [| |done..].
  - intros [= <- _].
    by destruct (delete_loop_compact _ [] _ _ _ _ _ _ _ E Hwf Hc).
  - by intros [= <- _].
Qed.

Lemma run_compact ops :
  no_DeletePrefix ops →
  ∃ t, run New ops = Ok t ∧ Inv t ∧ abs t = model ops ∧ compact (root t) = true.
Proof.
  assert (∀ t, Inv t → compact (root t) = true → no_DeletePrefix ops →
            ∃ t', run t ops = Ok t' ∧ Inv t' ∧
                  abs t' = foldl model_step (abs t) ops ∧
                  compact (root t') = true) as Hgen.
  { induction ops as [|o ops IH]; intros t Hinv Hc Hno; [by exists t|].
    apply Forall_cons in Hno as [Ho Hno].
    destruct (step_spec t o Hinv) as (t1 & Hstep & Hinv1 & Habs1).
    assert (compact (root t1) = true) as Hc1.
    { destruct o as [s v|s|s]; [..|done]; simpl in Hstep.
      - destruct (Insert t s v) as [[t2 r]| |] eqn:E; cbn in Hstep; [|done..].
        injection Hstep as <-. exact (Insert_compact t s v t2 r Hinv Hc E).
      - destruct (Delete t s) as [[t2 r]| |] eqn:E; cbn in Hstep; [|done..].
        injection Hstep as <-. exact (Delete_compact t s t2 r Hinv Hc E). }
    destruct (IH t1 Hinv1 Hc1 Hno) as (t' & Hrun & Hinv' & Habs' & Hc').
    exists t'. simpl. rewrite Hstep. cbn. by rewrite Hrun, Habs', Habs1. }
  intros Hno. by apply (Hgen New New_Inv).
Qed.

Lemma justified_nonempty n :
  justified n = true → compact n = true → leaves n ≠ [].
Proof.
  induction n as [lf p es IH] using node_ind. intros Hj Hc.
  rewrite leaves_Node. destruct lf as [lf|]; [done|].
  unfold justified in Hj. simpl in Hj.
  destruct es as [|e es]; [done|]. apply Forall_cons in IH as [IHe _].
  apply compact_eq in Hc. apply Forall_cons in Hc as [[Hje Hce] _].
  rewrite children_leaves_cons. cbn [leaf_entry app].
  intros [Hnil _]%app_eq_nil. by apply IHe.
Qed.

Lemma minimum_loop_spec fuel n :
  height n ≤ fuel → compact n = true →
  minimum_loop fuel n = Ok (extremum (head (leaves n))).
Proof.
  revert n. induction fuel as [|fuel IH]; intros n Hh Hc.
  { pose proof (height_pos n). lia. }
  cbn [minimum_loop]. rewrite (leaves_eq n).
  destruct (leaf n) as [lf|]; [done|]. cbn [leaf_entry app].
  assert (∀ l c, (l, c) ∈ edges n → height c ≤ fuel) as Hlt.
  { intros l c Hin. apply (height_child n l c) in Hin. lia. }
  apply compact_eq in Hc.
  destruct (edges n) as [|[l c] es]; [done|].
  apply Forall_cons in Hc as [[Hj Hcc] _].
  unfold enode. cbn [snd] in *. rewrite IH by (done || (eapply Hlt; by left)).
  rewrite children_leaves_cons. cbn [snd].
  pose proof (justified_nonempty c Hj Hcc). by destruct (leaves c).
Qed.

Lemma maximum_loop_spec fuel n :
  height n ≤ fuel → compact n = true →
  maximum_loop fuel n = Ok (extremum (last (leaves n))).
Proof.
  revert n. induction fuel as [|fuel IH]; intros n Hh Hc.
  { pose proof (height_pos n). lia. }
  cbn [maximum_loop]. rewrite (leaves_eq n).
  destruct (last (edges n)) as [[l c]|] eqn:Hlast.
  - apply last_Some in Hlast as [es Hes].
    apply compact_eq in Hc. rewrite Hes in Hc.
    apply Forall_app in Hc as [_ [[Hj Hcc] _]%Forall_cons].
    assert (height c < height n) as Hlt
      by (apply (height_child n l c); rewrite Hes; apply elem_of_middle).
    unfold enode. cbn [snd] in *. rewrite IH by (lia || done).
    rewrite Hes, children_leaves_app, children_leaves_cons, children_leaves_nil.
    cbn [snd].
    rewrite app_nil_r, !app_assoc.
    pose proof (justified_nonempty c Hj Hcc) as Hne.
    destruct (leaves c) as [|kv l'] using rev_ind; [done|].
    by rewrite !app_assoc, !last_snoc.
  - apply last_None in Hlast. rewrite Hlast, children_leaves_nil, app_nil_r.
    by destruct (leaf n).
Qed.

Lemma sorted_head_least (l : list (gostring * V)) kv :
  StronglySorted key_lt l.*1 → head l = Some kv →
  ∀ kv', kv' ∈ l → kv' = kv ∨ key_lt kv.1 kv'.1.
Proof.
  destruct l as [|x l]; [done|]. rewrite fmap_cons.
  intros [Hx _]%StronglySorted_cons [= ->] kv' [->|Hin]%elem_of_cons; [by left|].
  right. rewrite Forall_forall in Hx. apply Hx. by apply list_elem_of_fmap_2.
Qed.

Lemma sorted_last_greatest (l : list (gostring * V)) kv :
  StronglySorted key_lt l.*1 → last l = Some kv →
  ∀ kv', kv' ∈ l → kv' = kv ∨ key_lt kv'.1 kv.1.
Proof.
  intros Hs [l' ->]%last_Some kv' [Hin|Hin%list_elem_of_singleton]%elem_of_app;
    [|by left].
  right. rewrite fmap_app in Hs.
  apply (StronglySorted_app_1_elem_of _ _ _ kv'.1 kv.1 Hs).
  - by apply list_elem_of_fmap_2.
  - by left.
Qed.

Lemma compressed_justified n :
  justified n = true → compact n = true → compressed n = true.
Proof.
  induction n as [lf p es IH] using node_ind. intros Hj Hc.
  simpl. apply andb_true_iff. split.
  - unfold justified, isLeaf in *. simpl in *.
    destruct lf; [by rewrite andb_false_r|]. simpl in *.
    by destruct es as [|? [|? ?]].
  - apply compact_eq in Hc. simpl in Hc. clear Hj.
    induction es as [|e es IHes]; [done|].
    apply Forall_cons in IH as [IHe IH]. apply Forall_cons in Hc as [[Hje Hce] Hc].
    apply andb_true_iff. split; [by apply IHe|by apply IHes].
Qed.

(** X14.  Without [DeletePrefix], [Minimum] and [Maximum] return the smallest and
    the largest present key, and no node below the root has one edge and no
    leaf. *)
Lemma Minimum_Maximum_without_DeletePrefix (ops : list op) :
  no_DeletePrefix ops →
  ∃ t, run New ops = Ok t ∧ inv4 t = true ∧
    (model ops = ∅ →
       Minimum t = Ok ([], zeroVal, false) ∧ Maximum t = Ok ([], zeroVal, false)) ∧
    (model ops ≠ ∅ →
       ∃ kmin vmin kmax vmax,
         Minimum t = Ok (kmin, vmin, true) ∧ model ops !! kmin = Some vmin ∧
         Maximum t = Ok (kmax, vmax, true) ∧ model ops !! kmax = Some vmax ∧
         ∀ k, is_Some (model ops !! k) →
           (k = kmin ∨ key_lt kmin k) ∧ (k = kmax ∨ key_lt k kmax)).
Proof.
  intros Hno. destruct (run_compact ops Hno) as (t & Hrun & Hinv & Habs & Hc).
  exists t. split; [done|]. rewrite <-Habs.
  pose proof (wf_sorted _ _ (inv_wf t Hinv)) as Hsorted.
  unfold Minimum, Maximum.
  rewrite minimum_loop_spec, maximum_loop_spec by (done || lia).
  split_and!.
  - unfold inv4. apply forallb_forall. intros e He%list_elem_of_In.
    apply compact_eq in Hc. rewrite Forall_forall in Hc.
    destruct (Hc e He). by apply compressed_justified.
  - unfold abs. intros Hempty. destruct (leaves (root t)) as [|[k v] l]; [done|].
    rewrite list_to_map_cons in Hempty. by apply insert_non_empty in Hempty.
  - intros Hne.
    destruct (head (leaves (root t))) as [[kmin vmin]|] eqn:Hhd.
    2:{ unfold abs in Hne. destruct (leaves (root t)); [|done]. by destruct Hne. }
    destruct (last (leaves (root t))) as [[kmax vmax]|] eqn:Hlast.
    2:{ apply last_None in Hlast. by rewrite Hlast in Hhd. }
    exists kmin, vmin, kmax, vmax. split_and!; [done| |done| |].
    + apply abs_lookup; [done|]. by apply head_Some_elem_of.
    + apply abs_lookup; [done|]. by apply last_Some_elem_of.
    + intros k [v Hk]. apply abs_lookup in Hk; [|done]. split.
      * destruct (sorted_head_least _ _ Hsorted Hhd _ Hk) as [[= -> _]|?]; auto.
      * destruct (sorted_last_greatest _ _ Hsorted Hlast _ Hk) as [[= -> _]|?]; auto.
Qed.

(** ** Callbacks that ask to stop *)

Lemma visit_until_app {St} (fn : WalkFn St) a b st :
  visit_until fn (a ++ b) st
  = (let '(st', stop) := visit_until fn a st in
     if stop then (st', true) else visit_until fn b st').
Proof.
  revert st. induction a as [|kv a IH]; intros st; simpl; [done|].
  destruct (fn kv.1 kv.2 st) as [st' []]; [done|]. apply IH.
Qed.

Lemma recursiveWalk_visit_until {St} (fn : WalkFn St) n st :
  recursiveWalk n fn st = visit_until fn (leaves n) st.
Proof.
  revert st. induction n as [lf p es IH] using node_ind. intros st.
  rewrite leaves_Node, visit_until_app. simpl.
  assert (∀ st,
    (fix children (es : list (byte * node)) (st : St) : St * bool :=
       match es with
       | [] => (st, false)
       | e :: es' =>
           let '(st, stop) := recursiveWalk e.2 fn st in
           if stop then (st, true) else children es' st
       end) es st = visit_until fn (children_leaves es) st) as Hch.
  { induction IH as [|e es He _ IHes]; intros st'; [done|].
    rewrite He, children_leaves_cons, visit_until_app.
    destruct (visit_until fn (leaves e.2) st') as [st'' []]; [done|]. apply IHes. }
  destruct lf as [lf|]; simpl; [|apply Hch].
  destruct (fn (key lf) (val lf) st) as [st' []]; [done|]. apply Hch.
Qed.

Lemma visit_until_log (stop : gostring * V → bool) l log :
  visit_until (λ k v log, (log ++ [(k, v)], stop (k, v))) l log
  = (log ++ up_to_first stop l, existsb stop l).
Proof.
  revert log. induction l as [|[k v] l IH]; intros log; simpl.
  { by rewrite app_nil_r. }
  destruct (stop (k, v)); simpl; [done|].
  rewrite IH. by rewrite <-app_assoc.
Qed.

Lemma walkPrefix_loop_visit_until {St} fuel pre n search s (fn : WalkFn St) st :
  height n ≤ fuel → wf pre n → s = (pre ++ prefix n) ++ search →
  walkPrefix_loop fuel n search fn st
  = Ok (visit_until fn (filter (λ kv, s `prefix_of` kv.1) (leaves n)) st).1.
Proof.
  revert pre n search.
  induction fuel as [|fuel IH]; intros pre n search Hh Hwf Hs.
  { pose proof (height_pos n). lia. }
  destruct search as [|c rest]; cbn [walkPrefix_loop].
  - rewrite app_nil_r in Hs. subst s. rewrite recursiveWalk_visit_until.
    by rewrite filter_all by (by apply wf_keys).
  - assert ((pre ++ prefix n) ++ [c] `prefix_of` s) as Hc
      by (rewrite Hs; apply prefix_of_snoc_cons).
    pose proof Hwf as (_ & Hsorted & _)%wf_eq.
    destruct (getEdge n c) as [child|] eqn:Eg.
    + pose proof Eg as (a & b & Hes)%getEdge_Some.
      destruct (wf_split pre n a c child b Hwf Hes) as [Hl Hout].
      destruct (wf_child pre n c child Hwf) as [_ Hwfc]; [rewrite Hes; apply elem_of_middle|].
      apply (Forall_not_prefix_of_trans _ s) in Hout; [|done].
      apply Forall_app in Hout as [Hx Hy].
      rewrite Hl, (filter_app _ (_ ++ _) (_ ++ _)), (filter_app _ (leaves child)).
      rewrite (filter_none _ _ Hx), (filter_none _ _ Hy), app_nil_r.
      simpl.
      destruct (hasPrefix (c :: rest) (prefix child)) eqn:Ehp.
      * apply hasPrefix_spec in Ehp as [search' Hsearch].
        rewrite Hsearch, drop_app_length.
        apply (IH (pre ++ prefix n)); [apply height_getEdge in Eg; lia|done|].
        by rewrite Hs, Hsearch, <-!app_assoc.
      * apply hasPrefix_false in Ehp.
        destruct (hasPrefix (prefix child) (c :: rest)) eqn:Ehp2.
        -- apply hasPrefix_spec in Ehp2. rewrite recursiveWalk_visit_until.
           rewrite filter_all; [done|].
           eapply Forall_impl; [by apply wf_keys|]. simpl. intros kv Hkv.
           etrans; [|exact Hkv]. rewrite Hs. by apply prefix_app.
        -- apply hasPrefix_false in Ehp2. rewrite filter_none; [done|].
           eapply Forall_impl; [by apply wf_keys|]. simpl. intros kv Hkv Hskv.
           rewrite Hs in Hskv.
           destruct (prefix_weak_total _ _ _ Hkv Hskv) as [H|H];
             apply prefix_app_inv in H; done.
    + rewrite filter_none; [done|].
      eapply Forall_not_prefix_of_trans; [done|].
      by apply wf_no_edge, getEdge_None.
Qed.

(** ** WalkPath *)

Lemma walkPath_loop_fuel {St} fuel fuel' n search (fn : WalkFn St) st :
  height n ≤ fuel → height n ≤ fuel' →
  walkPath_loop fuel n search fn st = walkPath_loop fuel' n search fn st.
Proof.
  revert fuel' n search st. induction fuel as [|fuel IH];
    intros [|fuel'] n search st Hh Hh'; try (pose proof (height_pos n); lia).
  cbn [walkPath_loop].
  destruct (match leaf n with Some lf => fn (key lf) (val lf) st | None => (st, false) end)
    as [st' []]; [done|].
  destruct search as [|c rest]; [done|].
  destruct (getEdge n c) as [ch|] eqn:Eg; [|done].
  destruct (hasPrefix _ _); [|done].
  apply height_getEdge in Eg. apply IH; lia.
Qed.

(** A key kept below [n] that is a prefix of [s] lies behind the edge that
    [s] takes. *)
Lemma on_path pre n c s kv :
  wf pre n → (pre ++ prefix n) ++ [c] `prefix_of` s →
  kv ∈ children_leaves (edges n) → kv.1 `prefix_of` s →
  (pre ++ prefix n) ++ [c] `prefix_of` kv.1.
Proof.
  intros Hwf Hc ([l ch] & Hin & He)%list_elem_of_bind Hkv.
  pose proof (wf_child_keys pre n l ch kv Hwf He Hin) as Hl.
  assert (l = c) as -> by (eapply prefix_snoc_inj; [by etrans|done]).
  done.
Qed.

Lemma walkPath_loop_spec {St} fuel pre n search s (fn : WalkFn St) st :
  height n ≤ fuel → wf pre n → s = (pre ++ prefix n) ++ search →
  walkPath_loop fuel n search fn st
  = Ok (visit_until fn (filter (λ kv, kv.1 `prefix_of` s) (leaves n)) st).1.
Proof.
  revert pre n search st.
  induction fuel as [|fuel IH]; intros pre n search st Hh Hwf Hs.
  { pose proof (height_pos n). lia. }
  assert (pre ++ prefix n `prefix_of` s) as Hps by (rewrite Hs; by apply prefix_app_r).
  pose proof Hwf as (Hk & _)%wf_eq.
  assert (∀ st,
    match search with
    | [] => Ok st
    | c :: _ =>
        match getEdge n c with
        | None => Ok st
        | Some n =>
            if hasPrefix search (prefix n)
            then walkPath_loop fuel n (drop (length (prefix n)) search) fn st
            else Ok st
        end
    end
    = Ok (visit_until fn (filter (λ kv, kv.1 `prefix_of` s)
                            (children_leaves (edges n))) st).1) as Hch.
  { clear st. intros st. destruct search as [|c rest].
    - rewrite filter_none; [done|].
      rewrite app_nil_r in Hs. subst s. apply Forall_forall.
      intros kv ([l ch] & Hin & He)%list_elem_of_bind Hkv.
      pose proof (wf_child_keys pre n l ch kv Hwf He Hin) as Hl.
      apply prefix_length in Hl, Hkv. rewrite length_app in Hl. simpl in Hl. lia.
    - assert ((pre ++ prefix n) ++ [c] `prefix_of` s) as Hc
        by (rewrite Hs; apply prefix_of_snoc_cons).
      destruct (getEdge n c) as [child|] eqn:Eg.
      + pose proof Eg as (a & b & Hes)%getEdge_Some.
        destruct (wf_split pre n a c child b Hwf Hes) as [_ Hout].
        destruct (wf_child pre n c child Hwf) as [_ Hwfc];
          [rewrite Hes; apply elem_of_middle|].
        rewrite Forall_app, Forall_app in Hout. destruct Hout as [[_ Ha] Hb].
        assert (∀ es', es' ⊆ edges n →
                  Forall (λ kv, ¬ (pre ++ prefix n) ++ [c] `prefix_of` kv.1)
                    (children_leaves es') →
                  filter (λ kv : gostring * V, kv.1 `prefix_of` s)
                    (children_leaves es') = []) as Hoff.
        { intros es' Hsub Hno. apply filter_none, Forall_forall.
          intros kv Hin Hkv. rewrite Forall_forall in Hno. apply (Hno kv Hin).
          apply (on_path pre n c s kv); [done..| |done].
          apply list_elem_of_bind in Hin as (e & Hin & He).
          apply list_elem_of_bind. exists e. split; [done|]. by apply Hsub. }
        assert (a ⊆ edges n) as Hsa
          by (intros e He; rewrite Hes; apply elem_of_app; by left).
        assert (b ⊆ edges n) as Hsb
          by (intros e He; rewrite Hes; apply elem_of_app; right; by right).
        rewrite Hes, children_leaves_middle, !filter_app.
        rewrite (Hoff a Hsa Ha), (Hoff b Hsb Hb), app_nil_r. simpl.
        destruct (hasPrefix (c :: rest) (prefix child)) eqn:Ehp.
        * apply hasPrefix_spec in Ehp as [search' Hsearch].
          rewrite Hsearch, drop_app_length.
          apply (IH (pre ++ prefix n)); [apply height_getEdge in Eg; lia|done|].
          by rewrite Hs, Hsearch, <-!app_assoc.
        * apply hasPrefix_false in Ehp. rewrite filter_none; [done|].
          eapply Forall_impl; [by apply wf_keys|]. simpl.
          intros kv Hkv Hkvs. apply Ehp. rewrite Hs in Hkvs.
          eapply prefix_app_inv. by etrans.
      + rewrite filter_none; [done|]. apply Forall_forall. intros kv Hin Hkv.
        destruct (children_match pre n c s kv) as (child & Eg' & _); [done..|].
        congruence. }
  cbn [walkPath_loop]. rewrite (leaves_eq n), filter_app, visit_until_app.
  destruct (leaf n) as [lf|]; cbn [leaf_entry].
  - rewrite filter_cons_True by (simpl; by rewrite (Hk lf)).
    rewrite filter_nil. simpl.
    destruct (fn (key lf) (val lf) st) as [st' []]; [done|]. apply Hch.
  - rewrite filter_nil. simpl. apply Hch.
Qed.

Lemma WalkPath_spec {St} t p (fn : WalkFn St) st :
  Inv t →
  WalkPath t p fn st
  = Ok (visit_until fn (filter (λ kv, kv.1 `prefix_of` p) (leaves (root t))) st).1.
Proof.
  intros [Hp Hwf _]. unfold WalkPath.
  apply (walkPath_loop_spec _ []); [lia|done|by rewrite Hp].
Qed.

Lemma key_lt_prefixes (a b s : gostring) :
  a `prefix_of` s → b `prefix_of` s → key_lt a b → length a < length b.
Proof.
  intros Ha Hb Hlt. destruct (prefix_weak_total _ _ _ Ha Hb) as [[r ->]|[r ->]].
  - destruct r as [|x r]; [|rewrite length_app; simpl; lia].
    rewrite app_nil_r in Hlt. by apply key_lt_irrefl in Hlt.
  - destruct r as [|x r].
    + rewrite app_nil_r in Hlt. by apply key_lt_irrefl in Hlt.
    + destruct (key_lt_asym _ _ Hlt (key_lt_extend b x r)).
Qed.

(** ** ToMap and NewFromMap *)

Lemma foldl_insert_entries (l : list (gostring * V)) (m0 : gmap gostring V) :
  foldl (λ m e, <[e.1 := e.2]> m) m0 l = list_to_map (reverse l) ∪ m0.
Proof.
  revert m0. induction l as [|[k v] l IH]; intros m0; simpl.
  { by rewrite (left_id_L ∅ (∪)). }
  rewrite IH, reverse_cons, list_to_map_app. simpl.
  by rewrite <-(assoc_L (∪)), insert_empty, <-insert_union_singleton_l.
Qed.

Lemma list_to_map_reverse (l : list (gostring * V)) :
  NoDup l.*1 → (list_to_map (reverse l) : gmap gostring V) = list_to_map l.
Proof.
  intros Hnd. apply list_to_map_proper; [|apply reverse_Permutation].
  by rewrite fmap_reverse, reverse_Permutation.
Qed.

Lemma ToMap_spec t : Inv t → ToMap t = abs t.
Proof.
  intros [_ Hwf _]. unfold ToMap, abs. rewrite Walk_spec by done.
  etrans; [apply foldl_insert_entries|].
  rewrite (right_id_L ∅ (∪)). apply list_to_map_reverse. by eapply wf_NoDup.
Qed.

Lemma insert_all_run t entries :
  insert_all t entries = run t ((λ kv, OpInsert kv.1 kv.2) <$> entries).
Proof.
  revert t. induction entries as [|[k v] entries IH]; intros t; [done|].
  simpl. destruct (Insert t k v) as [r| |]; cbn; [apply IH|done..].
Qed.

Lemma model_inserts (l : list (gostring * V)) (m0 : gmap gostring V) :
  foldl model_step m0 ((λ kv, OpInsert kv.1 kv.2) <$> l)
  = list_to_map (reverse l) ∪ m0.
Proof.
  rewrite <-foldl_insert_entries. revert m0.
  induction l as [|[k v] l IH]; intros m0; [done|]. simpl. apply IH.
Qed.

Lemma model_of_map (m : gmap gostring V) entries :
  entries ≡ₚ map_to_list m →
  model ((λ kv, OpInsert kv.1 kv.2) <$> entries) = m.
Proof.
  intros Hperm. unfold model. rewrite model_inserts, (right_id_L ∅ (∪)).
  etrans; [|apply (list_to_map_to_list m)].
  apply list_to_map_proper.
  - rewrite fmap_reverse, reverse_Permutation, Hperm. apply NoDup_fst_map_to_list.
  - by rewrite reverse_Permutation.
Qed.

(** ** Minimum and Maximum on any tree *)

Lemma minimum_loop_sound fuel n r :
  minimum_loop fuel n = Ok r →
  r = extremum None ∨ ∃ kv, head (leaves n) = Some kv ∧ r = extremum (Some kv).
Proof.
  revert n. induction fuel as [|fuel IH]; intros n; [done|].
  cbn [minimum_loop]. rewrite (leaves_eq n).
  destruct (leaf n) as [lf|].
  { intros [= <-]. right. by exists (key lf, val lf). }
  destruct (edges n) as [|[l c] es]; [intros [= <-]; by left|].
  intros [->|(kv & Hhd & ->)]%IH; [by left|right].
  exists kv. split; [|done]. rewrite children_leaves_cons. cbn [leaf_entry app].
  unfold enode in Hhd. simpl in *. by destruct (leaves c).
Qed.

Lemma maximum_loop_sound fuel n r :
  maximum_loop fuel n = Ok r →
  r = extremum None ∨ ∃ kv, last (leaves n) = Some kv ∧ r = extremum (Some kv).
Proof.
  revert n. induction fuel as [|fuel IH]; intros n; [done|].
  cbn [maximum_loop]. rewrite (leaves_eq n).
  destruct (last (edges n)) as [[l c]|] eqn:Hlast.
  - apply last_Some in Hlast as [es Hes].
    intros [->|(kv & Hl & ->)]%IH; [by left|right].
    exists kv. split; [|done]. unfold enode in Hl. simpl in Hl.
    apply last_Some in Hl as [l' Hl'].
    rewrite Hes, children_leaves_app, children_leaves_cons, children_leaves_nil.
    cbn [snd]. rewrite Hl', app_nil_r, !app_assoc. apply last_snoc.
  - apply last_None in Hlast. rewrite Hlast, children_leaves_nil, app_nil_r.
    destruct (leaf n) as [lf|]; intros [= <-]; [right|by left].
    by exists (key lf, val lf).
Qed.

(** ** The edge slice as a finite map from labels *)

Lemma getEdge_elem_of n lbl c :
  sorted_edges (edges n) → getEdge n lbl = Some c ↔ (lbl, c) ∈ edges n.
Proof.
  intros Hs. split.
  - intros (a & b & ->)%getEdge_Some. apply elem_of_middle.
  - intros (a & b & Hes)%list_elem_of_split. by apply (getEdge_middle n a b).
Qed.

Lemma getEdge_None_iff n lbl :
  sorted_edges (edges n) → getEdge n lbl = None ↔ lbl ∉ (edges n).*1.
Proof.
  intros Hs. split; [by apply getEdge_None|].
  intros Hni. destruct (getEdge n lbl) as [c|] eqn:Eg; [|done].
  destruct Hni. apply getEdge_Some in Eg as (a & b & ->).
  rewrite fmap_app, fmap_cons. apply elem_of_middle.
Qed.

Lemma getEdge_None_findEdge n lbl :
  getEdge n lbl = None → findEdge (edges n) lbl = None.
Proof.
  unfold getEdge. destruct (findEdge (edges n) lbl) as [i|] eqn:Ef; [|done].
  apply findEdge_Some in Ef as (a & c & b & -> & <-).
  by rewrite list_lookup_middle.
Qed.

(** Two sorted slices with the same entries under a label answer alike
    there. *)
Lemma getEdge_agree n n' l' :
  sorted_edges (edges n) → sorted_edges (edges n') →
  (∀ c, (l', c) ∈ edges n' ↔ (l', c) ∈ edges n) →
  getEdge n' l' = getEdge n l'.
Proof.
  intros Hs Hs' Hiff. apply option_eq. intros c.
  by rewrite !getEdge_elem_of, Hiff.
Qed.

(** ** longestPrefix *)

Lemma longestPrefix_comm a b : longestPrefix a b = longestPrefix b a.
Proof.
  revert b. induction a as [|x a IH]; intros [|y b]; simpl; try done.
  destruct (byte_eqb x y) eqn:E.
  - apply byte_eqb_eq in E as ->. by rewrite byte_eqb_refl, IH.
  - apply byte_eqb_neq in E.
    destruct (byte_eqb y x) eqn:E'; [|done]. apply byte_eqb_eq in E'. by subst.
Qed.

Lemma longestPrefix_greatest a b m :
  m ≤ length a → m ≤ length b → take m a = take m b → m ≤ longestPrefix a b.
Proof.
  revert a b. induction m as [|m IH]; intros a b Ha Hb Heq; [lia|].
  destruct a as [|x a], b as [|y b]; simpl in *; try lia.
  injection Heq as -> Heq. rewrite byte_eqb_refl.
  apply le_n_S, IH; [lia..|done].
Qed.

(** ** The shape of a tree is fixed by its entries *)

Lemma prefix_cases {A} (p q k : list A) (x : A) :
  p ++ [x] `prefix_of` k → q `prefix_of` k →
  q `prefix_of` p ∨ p ++ [x] `prefix_of` q.
Proof.
  intros Hp Hq. destruct (prefix_weak_total _ _ _ Hp Hq) as [H|H]; [by right|].
  destruct (decide (length q ≤ length p)) as [Hle|Hgt].
  - left. destruct H as [r Hr].
    apply (f_equal (take (length q))) in Hr.
    rewrite take_app_length in Hr. rewrite take_app_le in Hr by done.
    rewrite <-Hr. apply prefix_take.
  - right. apply prefix_length in H as Hlen. rewrite length_app in Hlen.
    simpl in Hlen.
    rewrite (prefix_length_eq _ _ H); [done|]. rewrite length_app. simpl. lia.
Qed.

Lemma prefix_floor pre c q :
  wf pre c → justified c = true → compact c = true →
  Forall (λ kv, pre ++ q `prefix_of` kv.1) (leaves c) →
  q `prefix_of` prefix c.
Proof.
  intros Hwf Hj Hc Hall. rewrite Forall_forall in Hall.
  pose proof Hwf as (Hk & Hs & Hch)%wf_eq.
  destruct (leaf c) as [lf|] eqn:Elf.
  - assert ((key lf, val lf) ∈ leaves c) as Hin
      by (rewrite leaves_eq, Elf; by left).
    apply Hall in Hin. simpl in Hin. rewrite (Hk lf eq_refl) in Hin.
    by eapply prefix_app_inv.
  - unfold justified, isLeaf in Hj. rewrite Elf in Hj.
    destruct (edges c) as [|[l1 c1] [|[l2 c2] es]] eqn:Hes; try done.
    apply compact_eq in Hc. rewrite Hes in Hc.
    apply Forall_cons in Hc as [[Hj1 Hc1] [[Hj2 Hc2] _]%Forall_cons].
    pose proof (justified_nonempty c1 Hj1 Hc1) as Hne1.
    pose proof (justified_nonempty c2 Hj2 Hc2) as Hne2.
    destruct (leaves c1) as [|kv1 r1] eqn:E1; [done|].
    destruct (leaves c2) as [|kv2 r2] eqn:E2; [done|].
    assert ((pre ++ prefix c) ++ [l1] `prefix_of` kv1.1) as H1.
    { apply (wf_child_keys pre c l1 c1); [done|rewrite Hes; by left|].
      rewrite E1. by left. }
    assert ((pre ++ prefix c) ++ [l2] `prefix_of` kv2.1) as H2.
    { apply (wf_child_keys pre c l2 c2); [done|rewrite Hes; right; by left|].
      rewrite E2. by left. }
    assert (kv1 ∈ leaves c) as Hin1.
    { rewrite leaves_eq, Hes, children_leaves_cons. simpl. rewrite E1.
      apply elem_of_app. right. by left. }
    assert (kv2 ∈ leaves c) as Hin2.
    { rewrite leaves_eq, Hes, !children_leaves_cons. simpl. rewrite E2.
      apply elem_of_app. right. apply elem_of_app. right.
      apply elem_of_app. left. by left. }
    destruct (prefix_cases _ _ _ _ H1 (Hall _ Hin1)) as [Hdone|Hx1].
    { by eapply prefix_app_inv. }
    destruct (prefix_cases _ _ _ _ H2 (Hall _ Hin2)) as [Hdone|Hx2].
    { by eapply prefix_app_inv. }
    pose proof (prefix_snoc_inj _ _ _ _ Hx1 Hx2) as ->.
    apply StronglySorted_cons in Hs as [Hlt _].
    apply Forall_cons in Hlt as [Hlt _]. by apply byte_lt_irrefl in Hlt.
Qed.

Lemma prefix_fixed pre c c' :
  wf pre c → wf pre c' →
  justified c = true → compact c = true →
  justified c' = true → compact c' = true →
  leaves c = leaves c' → prefix c = prefix c'.
Proof.
  intros Hwf Hwf' Hj Hc Hj' Hc' Hl.
  assert (prefix c' `prefix_of` prefix c) as H1.
  { apply (prefix_floor pre); [done..|]. rewrite Hl. by apply wf_keys. }
  assert (prefix c `prefix_of` prefix c') as H2.
  { apply (prefix_floor pre); [done..|]. rewrite <-Hl. by apply wf_keys. }
  apply prefix_length_eq; [done|]. by apply prefix_length.
Qed.

Lemma children_longer pre n kv :
  wf pre n → kv ∈ children_leaves (edges n) →
  length (pre ++ prefix n) < length kv.1.
Proof.
  intros Hwf ([l ch] & Hin & He)%list_elem_of_bind.
  pose proof (wf_child_keys pre n l ch kv Hwf He Hin) as Hl.
  apply prefix_length in Hl. rewrite length_app in Hl. simpl in Hl. lia.
Qed.

Lemma leaf_fixed pre n n' :
  wf pre n → wf pre n' → prefix n = prefix n' → leaves n = leaves n' →
  leaf n = leaf n' ∧ children_leaves (edges n) = children_leaves (edges n').
Proof.
  intros Hwf Hwf' Hp. rewrite (leaves_eq n), (leaves_eq n').
  pose proof Hwf as (Hk & _)%wf_eq. pose proof Hwf' as (Hk' & _)%wf_eq.
  destruct (leaf n) as [[k v]|], (leaf n') as [[k' v']|]; simpl.
  - by intros [= -> -> ->].
  - intros Heq. specialize (Hk _ eq_refl). simpl in Hk.
    assert ((k, v) ∈ children_leaves (edges n')) as Hin by (rewrite <-Heq; by left).
    apply (children_longer pre) in Hin; [|done]. simpl in Hin.
    rewrite Hk, Hp in Hin. lia.
  - intros Heq. specialize (Hk' _ eq_refl). simpl in Hk'.
    assert ((k', v') ∈ children_leaves (edges n)) as Hin by (rewrite Heq; by left).
    apply (children_longer pre) in Hin; [|done]. simpl in Hin.
    rewrite Hk', Hp in Hin. lia.
  - done.
Qed.

Lemma first_child_leaves pre p l c r :
  wf pre (Node None p ((l, c) :: r)) →
  filter (λ kv : gostring * V, (pre ++ p) ++ [l] `prefix_of` kv.1)
    (children_leaves ((l, c) :: r)) = leaves c.
Proof.
  intros Hwf. rewrite children_leaves_cons, filter_app. simpl.
  rewrite filter_all, filter_none, app_nil_r; [done| |].
  - apply (wf_children_outside pre (Node None p ((l, c) :: r))); [done| |].
    + intros e He. by right.
    + apply wf_Node in Hwf as (_ & Hs & _).
      apply StronglySorted_cons in Hs as [Hlt _]. rewrite Forall_forall in Hlt.
      intros ([l' c'] & -> & Hin)%list_elem_of_fmap.
      by apply Hlt, byte_lt_irrefl in Hin.
  - apply Forall_forall. intros kv Hin.
    apply (wf_child_keys pre (Node None p ((l, c) :: r)) l c); [done|by left|done].
Qed.

Lemma canonical_edges pre p es es' :
  Forall (λ e, ∀ pre' c', wf pre' e.2 → wf pre' c' →
                 compact e.2 = true → compact c' = true →
                 prefix e.2 = prefix c' → leaves e.2 = leaves c' → e.2 = c') es →
  wf pre (Node None p es) → wf pre (Node None p es') →
  compact (Node None p es) = true → compact (Node None p es') = true →
  children_leaves es = children_leaves es' → es = es'.
Proof.
  intros IH. revert es'.
  induction IH as [|[l c] r IHc _ IHr]; intros es' Hwf Hwf' Hc Hc' Hl.
  - destruct es' as [|[l' c'] r']; [done|exfalso].
    apply compact_eq in Hc'. apply Forall_cons in Hc' as [[Hj' Hcc'] _].
    apply (justified_nonempty c' Hj' Hcc').
    rewrite children_leaves_nil, children_leaves_cons in Hl. simpl in Hl.
    symmetry in Hl. by apply app_eq_nil in Hl as [? _].
  - pose proof Hc as Hcom. apply compact_eq in Hcom.
    apply Forall_cons in Hcom as [[Hj Hcc] Hcr].
    pose proof (justified_nonempty c Hj Hcc) as Hne.
    destruct es' as [|[l' c'] r'].
    { rewrite children_leaves_nil, children_leaves_cons in Hl. simpl in Hl.
      by apply app_eq_nil in Hl as [? _]. }
    pose proof Hc' as Hcom'. apply compact_eq in Hcom'.
    apply Forall_cons in Hcom' as [[Hj' Hcc'] Hcr'].
    pose proof (justified_nonempty c' Hj' Hcc') as Hne'.
    pose proof Hwf as (_ & Hs & [[Hh Hwfc] Hwfr]%Forall_cons)%wf_Node.
    pose proof Hwf' as (_ & Hs' & [[Hh' Hwfc'] Hwfr']%Forall_cons)%wf_Node.
    simpl in Hh, Hwfc, Hh', Hwfc'.
    assert (l' = l) as ->.
    { pose proof Hl as Hl0. rewrite !children_leaves_cons in Hl0. simpl in Hl0.
      destruct (leaves c) as [|kv0 r0] eqn:E; [done|].
      destruct (leaves c') as [|kv0' r0'] eqn:E'; [done|].
      injection Hl0 as <- _.
      eapply (prefix_snoc_inj (pre ++ p) kv0.1).
      - apply (wf_child_keys pre (Node None p ((l', c') :: r')) l' c');
          [done|by left|rewrite E'; by left].
      - apply (wf_child_keys pre (Node None p ((l, c) :: r)) l c);
          [done|by left|rewrite E; by left]. }
    assert (leaves c = leaves c') as Hlc.
    { rewrite <-(first_child_leaves pre p l c r Hwf).
      rewrite <-(first_child_leaves pre p l c' r' Hwf'). by rewrite Hl. }
    assert (c = c') as <-.
    { apply (IHc (pre ++ p)); [done..| |done].
      by apply (prefix_fixed (pre ++ p)). }
    f_equal. apply IHr.
    + apply wf_Node. split_and!; [done| |done].
      by apply StronglySorted_cons in Hs as [_ ?].
    + apply wf_Node. split_and!; [done| |done].
      by apply StronglySorted_cons in Hs' as [_ ?].
    + by apply compact_eq.
    + by apply compact_eq.
    + rewrite !children_leaves_cons in Hl. by apply app_inv_head in Hl.
Qed.

Lemma canonical_node n :
  ∀ pre n', wf pre n → wf pre n' →
    compact n = true → compact n' = true →
    prefix n = prefix n' → leaves n = leaves n' → n = n'.
Proof.
  induction n as [lf p es IH] using node_ind.
  intros pre [lf' p' es'] Hwf Hwf' Hc Hc' Hp Hl. simpl in Hp. subst p'.
  destruct (leaf_fixed pre _ _ Hwf Hwf' eq_refl Hl) as [Hlf Hch].
  simpl in Hlf, Hch. subst lf'. f_equal.
  apply (canonical_edges pre p); [done| | |done|done|done].
  - apply wf_Node in Hwf as (_ & ? & ?). by apply wf_Node.
  - apply wf_Node in Hwf' as (_ & ? & ?). by apply wf_Node.
Qed.

Lemma canonical_tree t t' :
  Inv t → Inv t' → compact (root t) = true → compact (root t') = true →
  abs t = abs t' → t = t'.
Proof.
  intros Hinv Hinv' Hc Hc' Habs.
  pose proof (leaves_unique t t' Hinv Hinv' Habs) as Hl.
  destruct Hinv as [Hp Hwf Hsz], Hinv' as [Hp' Hwf' Hsz'].
  assert (root t = root t') as Hr
    by (apply (canonical_node _ []); [done..|congruence|done]).
  destruct t as [r sz], t' as [r' sz']. simpl in *. f_equal; congruence.
Qed.

(** ** Further properties: the edge slice *)

(** X1.  On a slice in ascending order of labels the binary search of
    [getEdge] finds the edge with the given label whenever there is one: it
    returns the node behind it, and [nil] exactly when no edge has the
    label. *)
Theorem getEdge_finds_exactly (n : node) (lbl : byte) :
  sorted_edges (edges n) →
  (∀ c, getEdge n lbl = Some c ↔ (lbl, c) ∈ edges n) ∧
  (getEdge n lbl = None ↔ lbl ∉ (edges n).*1).
Proof.
  intros Hs. split.
  - intros c. by apply getEdge_elem_of.
  - by apply getEdge_None_iff.
Qed.

(** X2.  [addEdge] with a label that the node does not have yet keeps the
    slice in ascending order, adds this edge and no other, and [getEdge]
    then finds the new node under the label and answers as before for every
    other label. *)
Theorem addEdge_then_getEdge (n : node) (lbl : byte) (c : node) :
  sorted_edges (edges n) → lbl ∉ (edges n).*1 →
  sorted_edges (edges (addEdge n (lbl, c))) ∧
  edges (addEdge n (lbl, c)) ≡ₚ (lbl, c) :: edges n ∧
  getEdge (addEdge n (lbl, c)) lbl = Some c ∧
  (∀ l', l' ≠ lbl → getEdge (addEdge n (lbl, c)) l' = getEdge n l') ∧
  leaf (addEdge n (lbl, c)) = leaf n ∧
  prefix (addEdge n (lbl, c)) = prefix n.
Proof.
  intros Hs Hni.
  destruct (Sort_snoc (edges n) lbl c Hs Hni) as (a & b & Hab & HS & Hsorted).
  assert (edges (addEdge n (lbl, c)) = a ++ (lbl, c) :: b) as Hes
    by (by destruct n).
  rewrite Hes. split_and!; [done| | | |by destruct n..].
  - rewrite Hab. symmetry. apply Permutation_middle.
  - apply (getEdge_middle _ a b); [done|by rewrite Hes].
  - intros l' Hne. apply getEdge_agree; [done|by rewrite Hes|].
    intros c'. rewrite Hes, Hab, !elem_of_app, elem_of_cons.
    split; [|tauto]. intros [?|[[= ? _]|?]]; tauto.
Qed.

(** X3.  [delEdge] keeps the slice in ascending order; afterwards [getEdge]
    finds nothing under the label and answers as before for every other
    label.  The slice gets one edge shorter when the label was there, and
    the node is left as it was when it was not. *)
Theorem delEdge_then_getEdge (n : node) (lbl : byte) :
  sorted_edges (edges n) →
  sorted_edges (edges (delEdge n lbl)) ∧
  getEdge (delEdge n lbl) lbl = None ∧
  (∀ l', l' ≠ lbl → getEdge (delEdge n lbl) l' = getEdge n l') ∧
  (is_Some (getEdge n lbl) →
     length (edges (delEdge n lbl)) + 1 = length (edges n)) ∧
  (getEdge n lbl = None → delEdge n lbl = n).
Proof.
  intros Hs. destruct (getEdge n lbl) as [c|] eqn:Eg.
  - pose proof Eg as (a & b & Hes)%getEdge_Some.
    rewrite (delEdge_middle n a b lbl c Hes Hs).
    assert (edges (set_edges n (a ++ b)) = a ++ b) as Hes' by (by destruct n).
    assert (sorted_edges (a ++ b)) as Hs'
      by (rewrite Hes in Hs; by eapply sorted_edges_remove).
    rewrite Hes'. split_and!; [done| | | |done].
    + apply getEdge_None_iff; [by rewrite Hes'|]. rewrite Hes'.
      rewrite Hes in Hs. apply sorted_edges_middle_labels in Hs as [Ha Hb].
      rewrite fmap_app, elem_of_app. tauto.
    + intros l' Hne. apply getEdge_agree; [done|by rewrite Hes'|].
      intros c'. rewrite Hes', Hes, !elem_of_app, elem_of_cons.
      split; [tauto|]. intros [?|[[= ? _]|?]]; tauto.
    + intros _. rewrite Hes, !length_app. simpl. lia.
  - unfold delEdge. rewrite (getEdge_None_findEdge n lbl Eg).
    split_and!; [done|done|done| |done]. by intros [? [=]].
Qed.

(** X4.  On a slice in ascending order [updateEdge] replaces the node behind
    the edge with the given label, and nothing else, when there is such an
    edge, and panics with "replacing missing edge" when there is none. *)
Theorem updateEdge_replaces_or_panics (n : node) (lbl : byte) (c : node) :
  sorted_edges (edges n) →
  (lbl ∈ (edges n).*1 →
     ∃ n', updateEdge n lbl c = Ok n' ∧
       sorted_edges (edges n') ∧
       getEdge n' lbl = Some c ∧
       (∀ l', l' ≠ lbl → getEdge n' l' = getEdge n l') ∧
       (edges n').*1 = (edges n).*1 ∧
       leaf n' = leaf n ∧ prefix n' = prefix n) ∧
  (lbl ∉ (edges n).*1 → updateEdge n lbl c = Panic "replacing missing edge").
Proof.
  intros Hs. split.
  - intros ([l c0] & -> & (a & b & Hes)%list_elem_of_split)%list_elem_of_fmap.
    simpl. rewrite (updateEdge_middle n a b l c0 Hes Hs).
    eexists. split; [done|].
    assert (edges (set_edges n (a ++ (l, c) :: b)) = a ++ (l, c) :: b) as Hes'
      by (by destruct n).
    assert (sorted_edges (a ++ (l, c) :: b)) as Hs'
      by (rewrite Hes in Hs; by eapply sorted_edges_replace).
    rewrite Hes'. split_and!; [done| | | |by destruct n..].
    + apply (getEdge_middle _ a b); [done|by rewrite Hes'].
    + intros l' Hne. apply getEdge_agree; [done|by rewrite Hes'|].
      intros c'. rewrite Hes', Hes, !elem_of_app, !elem_of_cons.
      split; (intros [?|[[= ? _]|?]]; tauto).
    + by rewrite Hes, !fmap_app, !fmap_cons.
  - intros Hni. apply getEdge_None_iff in Hni; [|done].
    unfold updateEdge. by rewrite (getEdge_None_findEdge n lbl Hni).
Qed.

(** X5.  [longestPrefix] returns the length of the longest common prefix of
    its arguments: they agree on that many bytes, on no more, and the order
    of the arguments does not matter. *)
Theorem longestPrefix_longest_common (a b : gostring) :
  take (longestPrefix a b) a = take (longestPrefix a b) b ∧
  longestPrefix a b ≤ length a ∧ longestPrefix a b ≤ length b ∧
  (∀ m, m ≤ length a → m ≤ length b → take m a = take m b →
        m ≤ longestPrefix a b) ∧
  longestPrefix b a = longestPrefix a b.
Proof.
  split_and!.
  - apply longestPrefix_take.
  - apply longestPrefix_le_l.
  - apply longestPrefix_le_r.
  - apply longestPrefix_greatest.
  - apply longestPrefix_comm.
Qed.


(** ** Further properties: the public operations *)

Lemma up_to_first_never (l : list (gostring * V)) :
  up_to_first (λ _, false) l = l.
Proof. induction l as [|kv l IH]; [done|]. simpl. by rewrite IH. Qed.

(** X7.  On every reachable tree [Insert(k, v)] returns the value that [k]
    had, with [true], when [k] was present, and the zero value with [false]
    when it was not.  Afterwards [Get(k)] returns [v], every other key
    answers as before, and [Len] has grown by one exactly when [k] was not
    present. *)
Theorem Insert_result (ops : list op) (k : gostring) (v : V) :
  ∃ t t', run New ops = Ok t ∧
    Insert t k v = Ok (t', found (model ops !! k)) ∧
    Get t' k = Ok (v, true) ∧
    (∀ k', k' ≠ k → Get t' k' = Get t k') ∧
    Len t' = (Len t + match model ops !! k with Some _ => 0 | None => 1 end)%Z.
Proof.
  destruct (run_New ops) as (t & Hrun & Hinv & Habs).
  destruct (Insert_spec t k v Hinv) as (t' & Hins & Hinv' & Habs').
  exists t, t'. rewrite <-Habs. split_and!; [done..| | |].
  - by rewrite Get_spec, Habs', lookup_insert_eq.
  - intros k' Hne. by rewrite !Get_spec, Habs', lookup_insert_ne.
  - rewrite !Len_abs, Habs' by done. destruct (abs t !! k) as [v0|] eqn:Ek.
    + rewrite map_size_insert_Some by done. lia.
    + rewrite map_size_insert_None by done. lia.
Qed.

(** X8.  On every reachable tree [Delete(k)] returns the value of [k] with
    [true] when [k] is present, and the zero value with [false] when it is
    not.  Afterwards [Get(k)] finds nothing, every other key answers as
    before, and [Len] has shrunk by one exactly when [k] was present. *)
Theorem Delete_result (ops : list op) (k : gostring) :
  ∃ t t', run New ops = Ok t ∧
    Delete t k = Ok (t', found (model ops !! k)) ∧
    Get t' k = Ok (zeroVal, false) ∧
    (∀ k', k' ≠ k → Get t' k' = Get t k') ∧
    Len t' = (Len t - match model ops !! k with Some _ => 1 | None => 0 end)%Z.
Proof.
  destruct (run_New ops) as (t & Hrun & Hinv & Habs).
  destruct (Delete_spec t k Hinv) as (t' & Hdel & Hinv' & Habs' & _).
  exists t, t'. rewrite <-Habs. split_and!; [done..| | |].
  - by rewrite Get_spec, Habs', lookup_delete_eq.
  - intros k' Hne. by rewrite !Get_spec, Habs', lookup_delete_ne.
  - rewrite !Len_abs, Habs' by done. destruct (abs t !! k) as [v0|] eqn:Ek.
    + assert (base.size (abs t) = S (base.size (delete k (abs t)))) as Hsize.
      { rewrite <-(insert_delete_id (abs t) k v0 Ek) at 1.
        apply map_size_insert_None, lookup_delete_eq. }
      lia.
    + rewrite delete_id by done. lia.
Qed.

(** X10.  [DeletePrefix] with the empty prefix returns the number of keys
    and leaves the tree that [New] returns. *)
Theorem DeletePrefix_empty_prefix (ops : list op) :
  ∃ t, run New ops = Ok t ∧ DeletePrefix t [] = Ok (New, Len t).
Proof.
  destruct (run_New ops) as (t & Hrun & [Hp Hwf Hsz] & _).
  exists t. split; [done|]. unfold DeletePrefix. cbn [deletePrefix].
  rewrite subtree_count. cbn. rewrite <-Hsz, Z.sub_diag. unfold New, Len.
  do 3 f_equal. destruct (root t) as [lf p es]. simpl in *. subst p.
  by destruct lf.
Qed.

(** X15.  On every reachable tree, also after [DeletePrefix], [Minimum] and
    [Maximum] never answer with a wrong entry: what [Minimum] reports as
    found is a present key with its value, and no present key is smaller;
    what [Maximum] reports as found is a present key with its value, and no
    present key is larger. *)
Theorem Minimum_Maximum_sound (ops : list op) :
  ∃ t rmin rmax, run New ops = Ok t ∧
    Minimum t = Ok rmin ∧ Maximum t = Ok rmax ∧
    (rmin = ([], zeroVal, false) ∨
     ∃ k v, rmin = (k, v, true) ∧ model ops !! k = Some v ∧
       ∀ k', is_Some (model ops !! k') → k' = k ∨ key_lt k k') ∧
    (rmax = ([], zeroVal, false) ∨
     ∃ k v, rmax = (k, v, true) ∧ model ops !! k = Some v ∧
       ∀ k', is_Some (model ops !! k') → k' = k ∨ key_lt k' k).
Proof.
  destruct (run_New ops) as (t & Hrun & Hinv & Habs).
  pose proof (wf_sorted _ _ (inv_wf t Hinv)) as Hsorted.
  destruct (minimum_loop_total (S (height (root t))) (root t)) as [rmin Hmin]; [lia|].
  destruct (maximum_loop_total (S (height (root t))) (root t)) as [rmax Hmax]; [lia|].
  exists t, rmin, rmax. rewrite <-Habs. split_and!; [done..| |].
  - apply minimum_loop_sound in Hmin as [->|([k v] & Hhd & ->)]; [by left|right].
    exists k, v. split_and!; [done| |].
    + apply abs_lookup; [done|]. by apply head_Some_elem_of.
    + intros k' [v' Hk']. apply abs_lookup in Hk'; [|done].
      destruct (sorted_head_least _ _ Hsorted Hhd _ Hk') as [[= -> _]|?]; auto.
  - apply maximum_loop_sound in Hmax as [->|([k v] & Hl & ->)]; [by left|right].
    exists k, v. split_and!; [done| |].
    + apply abs_lookup; [done|]. by apply last_Some_elem_of.
    + intros k' [v' Hk']. apply abs_lookup in Hk'; [|done].
      destruct (sorted_last_greatest _ _ Hsorted Hl _ Hk') as [[= -> _]|?]; auto.
Qed.

(** X16.  Every sequence of public operations on an empty tree leaves a tree
    in which the key of every leaf is spelled by the prefixes on the way to
    its node, the edges of every node are in ascending order of distinct
    labels, a label is the first byte of the prefix of the node behind it,
    and the root has the empty prefix.  The leaves are the present keys with
    their values, each once, and [Len] is their number. *)
Theorem reachable_well_formed (ops : list op) :
  ∃ t, run New ops = Ok t ∧
    wf [] (root t) ∧ inv1 (root t) = true ∧ prefix (root t) = [] ∧
    NoDup (leaves (root t)).*1 ∧
    (∀ k v, (k, v) ∈ leaves (root t) ↔ model ops !! k = Some v) ∧
    Len t = Z.of_nat (length (leaves (root t))).
Proof.
  destruct (run_New ops) as (t & Hrun & Hinv & Habs).
  pose proof Hinv as [Hp Hwf Hsz].
  exists t. split_and!; [done..|by eapply inv1_wf|done|by eapply wf_NoDup| |done].
  intros k v. by rewrite <-Habs, abs_lookup.
Qed.

(** X17.  On every reachable tree [Walk] calls [fn] on the present keys in
    strictly ascending order and makes no call after the first one to
    which [fn] answers [true]. *)
Theorem Walk_stops_when_asked (ops : list op) :
  ∃ t entries, run New ops = Ok t ∧
    StronglySorted key_lt entries.*1 ∧
    (∀ k v, (k, v) ∈ entries ↔ model ops !! k = Some v) ∧
    (∀ (St : Type) (fn : WalkFn St) (st : St),
       Walk t fn st = (visit_until fn entries st).1) ∧
    (∀ stop : gostring * V → bool,
       Walk t (λ k v log, (log ++ [(k, v)], stop (k, v))) []
       = up_to_first stop entries).
Proof.
  destruct (run_New ops) as (t & Hrun & Hinv & Habs).
  exists t, (leaves (root t)). split_and!; [done| | | |].
  - eapply wf_sorted, inv_wf, Hinv.
  - intros k v. by rewrite <-Habs, abs_lookup.
  - intros St fn st. unfold Walk. by rewrite recursiveWalk_visit_until.
  - intros stop. unfold Walk.
    by rewrite recursiveWalk_visit_until, visit_until_log.
Qed.

(** X18.  On every reachable tree [WalkPrefix] calls [fn] on the present
    keys that have [p] as a prefix, in strictly ascending order, and makes
    no call after the first one to which [fn] answers [true]. *)
Theorem WalkPrefix_stops_when_asked (ops : list op) (p : gostring) :
  ∃ t entries, run New ops = Ok t ∧
    StronglySorted key_lt entries.*1 ∧
    (∀ k v, (k, v) ∈ entries ↔ model ops !! k = Some v ∧ p `prefix_of` k) ∧
    (∀ (St : Type) (fn : WalkFn St) (st : St),
       WalkPrefix t p fn st = Ok (visit_until fn entries st).1) ∧
    (∀ stop : gostring * V → bool,
       WalkPrefix t p (λ k v log, (log ++ [(k, v)], stop (k, v))) []
       = Ok (up_to_first stop entries)).
Proof.
  destruct (run_New ops) as (t & Hrun & Hinv & Habs).
  pose proof Hinv as [Hp Hwf _].
  assert (∀ (St : Type) (fn : WalkFn St) (st : St),
            WalkPrefix t p fn st
            = Ok (visit_until fn
                    (filter (λ kv, p `prefix_of` kv.1) (leaves (root t))) st).1)
    as Hwalk.
  { intros St fn st. unfold WalkPrefix.
    apply (walkPrefix_loop_visit_until _ []); [lia|done|by rewrite Hp]. }
  exists t, (filter (λ kv, p `prefix_of` kv.1) (leaves (root t))).
  split_and!; [done| | |done|].
  - by apply sorted_filter, wf_sorted with [].
  - intros k v. rewrite list_elem_of_filter, <-Habs, abs_lookup by done.
    simpl. tauto.
  - intros stop. by rewrite Hwalk, visit_until_log.
Qed.

(** X19.  On every reachable tree [WalkPath] calls [fn] on the present keys
    that are prefixes of [path], the shorter before the longer, and makes
    no call after the first one to which [fn] answers [true]. *)
Theorem WalkPath_visits_prefixes (ops : list op) (path : gostring) :
  ∃ t entries, run New ops = Ok t ∧
    StronglySorted (λ a b : gostring, length a < length b) entries.*1 ∧
    (∀ k v, (k, v) ∈ entries ↔ model ops !! k = Some v ∧ k `prefix_of` path) ∧
    (∀ (St : Type) (fn : WalkFn St) (st : St),
       WalkPath t path fn st = Ok (visit_until fn entries st).1) ∧
    (∀ stop : gostring * V → bool,
       WalkPath t path (λ k v log, (log ++ [(k, v)], stop (k, v))) []
       = Ok (up_to_first stop entries)).
Proof.
  destruct (run_New ops) as (t & Hrun & Hinv & Habs).
  pose proof Hinv as [Hp Hwf _].
  set (entries := filter (λ kv : gostring * V, kv.1 `prefix_of` path)
                    (leaves (root t))).
  assert (∀ k v, (k, v) ∈ entries ↔ model ops !! k = Some v ∧ k `prefix_of` path)
    as Hin.
  { intros k v. unfold entries.
    rewrite list_elem_of_filter, <-Habs, abs_lookup by done. simpl. tauto. }
  exists t, entries. split_and!; [done| |done| |].
  - assert (StronglySorted key_lt entries.*1) as Hs
      by (by apply sorted_filter, wf_sorted with []).
    assert (Forall (λ k, k `prefix_of` path) entries.*1) as Hall.
    { apply Forall_forall. intros k ([k' v] & -> & Hkv)%list_elem_of_fmap.
      by apply Hin in Hkv as [_ ?]. }
    induction Hs as [|k l Hs IH Hk]; [constructor|].
    apply Forall_cons in Hall as [Hkp Hall]. constructor; [by apply IH|].
    rewrite Forall_forall in Hk, Hall |- *. intros k' Hk'.
    apply (key_lt_prefixes k k' path); auto.
  - intros St fn st. by apply WalkPath_spec.
  - intros stop. by rewrite WalkPath_spec, visit_until_log.
Qed.

(** X20.  On every reachable tree [LongestPrefix(s)] returns the last entry
    that [WalkPath(s)] visits, and reports that nothing was found when
    [WalkPath(s)] visits nothing. *)
Theorem LongestPrefix_last_of_WalkPath (ops : list op) (s : gostring) :
  ∃ t calls, run New ops = Ok t ∧
    WalkPath t s (λ k v log, (log ++ [(k, v)], false)) [] = Ok calls ∧
    LongestPrefix t s = Ok (extremum (last calls)).
Proof.
  destruct (run_New ops) as (t & Hrun & Hinv & Habs).
  pose proof Hinv as [Hp Hwf _].
  set (calls := filter (λ kv : gostring * V, kv.1 `prefix_of` s) (leaves (root t))).
  exists t, calls. split_and!; [done| |].
  - rewrite WalkPath_spec by done.
    by rewrite (visit_until_log (λ _, false)), up_to_first_never.
  - unfold LongestPrefix.
    destruct (longest_loop_spec (S (height (root t))) [] (root t) s s None)
      as (r & -> & Hr); [lia|done|by rewrite Hp|].
    f_equal. destruct Hr as [(lf & -> & Hin & Hgood & Hmax)|[-> Hnone]].
    + assert ((key lf, val lf) ∈ calls) as Hc by (by apply list_elem_of_filter).
      destruct (last calls) as [kv|] eqn:Hlast.
      2:{ apply last_None in Hlast. rewrite Hlast in Hc. by apply elem_of_nil in Hc. }
      assert (StronglySorted key_lt calls.*1) as Hs
        by (by apply sorted_filter, wf_sorted with []).
      destruct (sorted_last_greatest _ _ Hs Hlast _ Hc) as [<-|Hlt]; [done|].
      apply last_Some_elem_of, list_elem_of_filter in Hlast as [Hkv Hkvin].
      pose proof (Hmax kv Hkvin Hkv) as Hle.
      pose proof (key_lt_prefixes _ _ s Hgood Hkv Hlt). simpl in *. lia.
    + unfold calls. by rewrite filter_none.
Qed.

(** X21.  On every reachable tree [ToMap] returns the map of the present
    keys to their values: [Get] finds in the tree what the map holds, and
    [Len] is the size of the map. *)
Theorem ToMap_is_contents (ops : list op) :
  ∃ t, run New ops = Ok t ∧
    ToMap t = model ops ∧
    (∀ k, Get t k = Ok (found (ToMap t !! k))) ∧
    Len t = Z.of_nat (base.size (ToMap t)).
Proof.
  destruct (run_New ops) as (t & Hrun & Hinv & Habs).
  exists t. rewrite ToMap_spec by done. split_and!; [done..| |].
  - intros k. by apply Get_spec.
  - by apply Len_abs.
Qed.

(** X22.  [NewFromMap(m)] returns, for every order in which [range] yields
    the entries of [m], a tree that holds the entries of [m] and no other:
    [ToMap] gives [m] back, [Get] answers as [m] does, and [Len] is the size
    of [m]. *)
Theorem NewFromMap_round_trip (m : gmap gostring V) (entries : list (gostring * V)) :
  entries ≡ₚ map_to_list m →
  ∃ t, NewFromMap entries = Ok t ∧
    ToMap t = m ∧
    (∀ k, Get t k = Ok (found (m !! k))) ∧
    Len t = Z.of_nat (base.size m).
Proof.
  intros Hperm. unfold NewFromMap. rewrite insert_all_run.
  destruct (run_New ((λ kv, OpInsert kv.1 kv.2) <$> entries))
    as (t & Hrun & Hinv & Habs).
  rewrite (model_of_map m entries Hperm) in Habs.
  exists t. split_and!; [done| | |].
  - by rewrite ToMap_spec.
  - intros k. by rewrite Get_spec, Habs.
  - by rewrite Len_abs, Habs.
Qed.

(** X13.  Without [DeletePrefix] the tree is fixed by its contents: two
    sequences of [Insert] and [Delete] calls that leave the same keys with
    the same values leave the same tree, node for node. *)
Theorem same_contents_same_tree (ops1 ops2 : list op) :
  no_DeletePrefix ops1 → no_DeletePrefix ops2 →
  model ops1 = model ops2 →
  run New ops1 = run New ops2.
Proof.
  intros Hno1 Hno2 Hm.
  destruct (run_compact ops1 Hno1) as (t1 & -> & Hinv1 & Habs1 & Hc1).
  destruct (run_compact ops2 Hno2) as (t2 & -> & Hinv2 & Habs2 & Hc2).
  f_equal. apply canonical_tree; [done..|congruence].
Qed.

(** X12.  Without [DeletePrefix], [Insert] of an absent key followed by
    [Delete] of that key gives back the tree as it was, node for node, and
    so does [Delete] of a present key followed by [Insert] of that key with
    its value. *)
Theorem Insert_Delete_restore_tree (ops : list op) (k : gostring) :
  no_DeletePrefix ops →
  ∃ t, run New ops = Ok t ∧
    (model ops !! k = None →
       ∀ v, ∃ t1, Insert t k v = Ok (t1, (zeroVal, false)) ∧
                  Delete t1 k = Ok (t, (v, true))) ∧
    (∀ v, model ops !! k = Some v →
       ∃ t1, Delete t k = Ok (t1, (v, true)) ∧
             Insert t1 k v = Ok (t, (zeroVal, false))).
Proof.
  intros Hno. destruct (run_compact ops Hno) as (t & Hrun & Hinv & Habs & Hc).
  exists t. rewrite <-Habs. split_and!; [done| |].
  - intros Hk v.
    destruct (Insert_spec t k v Hinv) as (t1 & Hins & Hinv1 & Habs1).
    destruct (Delete_spec t1 k Hinv1) as (t2 & Hdel & Hinv2 & Habs2 & _).
    rewrite Hk in Hins. rewrite Habs1, lookup_insert_eq in Hdel.
    assert (t2 = t) as ->.
    { apply canonical_tree; [done..| |done|].
      - eapply (Delete_compact t1 k t2 _ Hinv1); [|exact Hdel].
        exact (Insert_compact t k v t1 _ Hinv Hc Hins).
      - by rewrite Habs2, Habs1, delete_insert_eq, delete_id. }
    by exists t1.
  - intros v Hk.
    destruct (Delete_spec t k Hinv) as (t1 & Hdel & Hinv1 & Habs1 & _).
    destruct (Insert_spec t1 k v Hinv1) as (t2 & Hins & Hinv2 & Habs2).
    rewrite Hk in Hdel. rewrite Habs1, lookup_delete_eq in Hins.
    assert (t2 = t) as ->.
    { apply canonical_tree; [done..| |done|].
      - eapply (Insert_compact t1 k v t2 _ Hinv1); [|exact Hins].
        exact (Delete_compact t k t1 _ Hinv Hc Hdel).
      - by rewrite Habs2, Habs1, insert_delete_id. }
    by exists t1.
Qed.

(** X23.  The tree that [NewFromMap(m)] returns does not depend on the order
    in which [range] yields the entries of [m]. *)
Theorem NewFromMap_order_irrelevant (m : gmap gostring V)
    (entries1 entries2 : list (gostring * V)) :
  entries1 ≡ₚ map_to_list m → entries2 ≡ₚ map_to_list m →
  NewFromMap entries1 = NewFromMap entries2.
Proof.
  intros H1 H2. unfold NewFromMap. rewrite !insert_all_run.
  assert (∀ l : list (gostring * V),
            no_DeletePrefix ((λ kv, OpInsert kv.1 kv.2) <$> l)) as Hno.
  { intros l. apply Forall_fmap, Forall_forall. by intros [??] _. }
  destruct (run_compact _ (Hno entries1)) as (t1 & Hr1 & Hinv1 & Habs1 & Hc1).
  destruct (run_compact _ (Hno entries2)) as (t2 & Hr2 & Hinv2 & Habs2 & Hc2).
  unfold New in Hr1, Hr2. rewrite Hr1, Hr2. f_equal.
  apply canonical_tree; [done..|].
  by rewrite Habs1, Habs2, (model_of_map m entries1), (model_of_map m entries2).
Qed.

(** ** Further properties: DeletePrefix against WalkPrefix, and the size of
    a tree *)

(** X24.  On every reachable tree [DeletePrefix(p)] returns the number of
    calls that [WalkPrefix(p)] makes; [Len] goes down by that number, and
    afterwards [WalkPrefix(p)] makes no call. *)
Theorem DeletePrefix_counts_WalkPrefix (ops : list op) (p : gostring) :
  ∃ t t' cnt, run New ops = Ok t ∧
    DeletePrefix t p = Ok (t', cnt) ∧
    WalkPrefix t p (λ _ _ (c : Z), ((c + 1)%Z, false)) 0%Z = Ok cnt ∧
    Len t' = (Len t - cnt)%Z ∧
    WalkPrefix t' p (λ k v log, (log ++ [(k, v)], false)) [] = Ok [].
Proof.
  destruct (run_New ops) as (t & Hrun & Hinv & Habs).
  destruct (DeletePrefix_spec t p Hinv) as (t' & Hdel & Hinv' & Habs').
  pose proof (wf_NoDup _ _ (inv_wf t Hinv)) as Hnd.
  assert (base.size (filter (λ kv : gostring * V, p `prefix_of` kv.1) (abs t))
          = length (filter (λ kv : gostring * V, p `prefix_of` kv.1)
                      (leaves (root t)))) as Hcnt.
  { unfold abs. rewrite filter_list_to_map by done.
    by rewrite map_size_list_to_map by (by apply NoDup_fst_filter). }
  eexists t, t', _. split_and!; [done|done| | |].
  - rewrite WalkPrefix_spec by done. by rewrite count_visit, Hcnt.
  - rewrite !Len_abs, Habs' by done.
    pose proof (map_size_disj_union _ _
      (map_disjoint_filter_complement (λ kv : gostring * V, p `prefix_of` kv.1)
         (abs t))) as Hsum.
    rewrite map_filter_union_complement in Hsum. lia.
  - pose proof Hinv' as [Hp' Hwf' _]. unfold WalkPrefix.
    rewrite (walkPrefix_loop_visit_until _ [] _ _ p); [|lia|done|by rewrite Hp'].
    rewrite filter_none; [done|]. apply Forall_forall. intros [k v] Hin.
    apply abs_lookup in Hin; [|done]. rewrite Habs' in Hin.
    by apply map_lookup_filter_Some in Hin as [_ ?].
Qed.

Lemma nodes_Node lf p es :
  nodes (Node lf p es) = S (sum_list (nodes ∘ snd <$> es)).
Proof.
  simpl. f_equal. induction es as [|e es IH]; [done|]. by rewrite IH.
Qed.

Lemma children_nodes_bound (es : list (byte * node)) :
  Forall (λ e, nodes e.2 + 1 ≤ 2 * length (leaves e.2)) es →
  sum_list (nodes ∘ snd <$> es) + length es ≤ 2 * length (children_leaves es).
Proof.
  induction 1 as [|e es He _ IH]; [done|].
  rewrite children_leaves_cons, length_app.
  change (sum_list (nodes ∘ snd <$> e :: es))
    with (nodes e.2 + sum_list (nodes ∘ snd <$> es)).
  cbn [length]. lia.
Qed.

Lemma nodes_bound n :
  justified n = true → compact n = true →
  nodes n + 1 ≤ 2 * length (leaves n).
Proof.
  induction n as [lf p es IH] using node_ind. intros Hj Hc.
  apply compact_eq in Hc. simpl in Hc.
  assert (Forall (λ e, nodes e.2 + 1 ≤ 2 * length (leaves e.2)) es) as Hes.
  { rewrite Forall_forall in IH, Hc |- *. intros e He.
    destruct (Hc e He). by apply IH. }
  apply children_nodes_bound in Hes.
  rewrite nodes_Node, leaves_Node, length_app.
  unfold justified, isLeaf in Hj. simpl in Hj.
  destruct lf as [lf|]; simpl; [lia|].
  simpl in Hj. destruct es as [|? [|? ?]]; [done..|]. simpl in *. lia.
Qed.

(** X25.  Path compression bounds the tree: after any sequence of [Insert]
    and [Delete] calls on an empty tree, the tree has at most twice as many
    nodes as it holds keys, plus the root. *)
Theorem nodes_at_most_twice_keys (ops : list op) :
  no_DeletePrefix ops →
  ∃ t, run New ops = Ok t ∧ (Z.of_nat (nodes (root t)) ≤ 2 * Len t + 1)%Z.
Proof.
  intros Hno. destruct (run_compact ops Hno) as (t & Hrun & Hinv & _ & Hc).
  exists t. split; [done|]. destruct Hinv as [_ _ Hsz]. unfold Len. rewrite Hsz.
  apply compact_eq in Hc.
  assert (Forall (λ e, nodes e.2 + 1 ≤ 2 * length (leaves e.2)) (edges (root t)))
    as Hes.
  { rewrite Forall_forall in Hc |- *. intros e He.
    destruct (Hc e He). by apply nodes_bound. }
  apply children_nodes_bound in Hes.
  destruct (root t) as [lf p es]. rewrite nodes_Node, leaves_Node, length_app.
  simpl in *. lia.
Qed.

End radix.

(** * The operations on concrete trees *)

Arguments New {V}.


(** C1.  [DeletePrefix] leaves the node it has emptied behind its edge.
    [Minimum] goes down the first edge and [Maximum] the last one; when that
    edge leads to such a node they report that nothing was found, although a
    key is present. *)
Theorem Minimum_Maximum_miss_keys :
  (∃ t : Tree,
     run 0%Z New [OpInsert (str "a") 1%Z; OpInsert (str "b") 2%Z;
                  OpDeletePrefix (str "a")] = Ok t ∧
     Get 0%Z t (str "b") = Ok (2%Z, true) ∧
     Minimum 0%Z t = Ok ([], 0%Z, false)) ∧
  (∃ t : Tree,
     run 0%Z New [OpInsert (str "a") 1%Z; OpInsert (str "b") 2%Z;
                  OpDeletePrefix (str "b")] = Ok t ∧
     Get 0%Z t (str "a") = Ok (1%Z, true) ∧
     Maximum 0%Z t = Ok ([], 0%Z, false)).
Proof.
  split; eexists; (split; [vm_compute; reflexivity|]); split; reflexivity.
Qed.

(** C2.  [DeletePrefix("a")] returns with the node it has emptied still
    behind the edge ["a"] of the root.  [Insert("ab", 3)] then hangs one edge
    below that node, which holds no leaf, and the tree is in this state,
    against invariant 4, when the next [DeletePrefix] returns. *)
Theorem DeletePrefix_keeps_emptied_node :
  ∃ t0 t1 t2 t3 : Tree,
    run 0%Z New [OpInsert (str "a") 1%Z; OpInsert (str "b") 2%Z] = Ok t0 ∧
    inv4 t0 = true ∧
    DeletePrefix t0 (str "a") = Ok (t1, 1%Z) ∧
    getEdge (root t1) "a"%char = Some (Node None (str "a") []) ∧
    Insert 0%Z t1 (str "ab") 3%Z = Ok (t2, (0%Z, false)) ∧
    DeletePrefix t2 (str "b") = Ok (t3, 1%Z) ∧
    inv4 t3 = false.
Proof.
  do 4 eexists. split; [vm_compute; reflexivity|].
  split; [reflexivity|]. split; [vm_compute; reflexivity|].
  split; [reflexivity|]. split; [vm_compute; reflexivity|].
  split; [vm_compute; reflexivity|]. reflexivity.
Qed.

(** C7.  [Minimum] reports nothing on the tree left by [DeletePrefix("a")].
    [Insert("a", 5)] and [Delete("a")] then unlink the emptied node, and
    [Minimum] answers with the key ["b"]: not what it answered before the
    [Insert]. *)
Theorem Insert_Delete_changes_Minimum :
  ∃ t t1 t2 : Tree,
    run 0%Z New [OpInsert (str "a") 1%Z; OpInsert (str "b") 2%Z;
                 OpDeletePrefix (str "a")] = Ok t ∧
    Get 0%Z t (str "a") = Ok (0%Z, false) ∧
    Insert 0%Z t (str "a") 5%Z = Ok (t1, (0%Z, false)) ∧
    Delete 0%Z t1 (str "a") = Ok (t2, (5%Z, true)) ∧
    Minimum 0%Z t = Ok ([], 0%Z, false) ∧
    Minimum 0%Z t2 = Ok (str "b", 2%Z, true).
Proof.
  do 3 eexists. split; [vm_compute; reflexivity|].
  split; [reflexivity|]. split; [vm_compute; reflexivity|].
  split; [vm_compute; reflexivity|]. split; reflexivity.
Qed.


(** ** The theorems at concrete calls *)

Lemma Get_after_Inserts_witness :
  ∃ t : Tree,
    run 0%Z New [OpInsert (str "foo") 1%Z; OpInsert (str "foobar") 2%Z;
                 OpInsert (str "foo") 3%Z] = Ok t ∧
    Get 0%Z t (str "foo") = Ok (3%Z, true) ∧
    Get 0%Z t (str "fo") = Ok (0%Z, false).
Proof.
  destruct (Get_after_Inserts 0%Z
              [(str "foo", 1%Z); (str "foobar", 2%Z); (str "foo", 3%Z)])
    as (t & Hrun & Hin & Hout).
  exists t. split; [exact Hrun|]. split.
  - destruct (Hin (str "foo")) as (v & Hv & Hget); [vm_compute; left|].
    vm_compute in Hv. injection Hv as <-. exact Hget.
  - apply Hout. vm_compute. intros H.
    repeat (apply elem_of_cons in H as [H|H]; [discriminate H|]).
    by apply elem_of_nil in H.
Defined.

Lemma Walk_ascending_witness :
  ∃ t : Tree,
    run 0%Z New [OpInsert (str "b") 2%Z; OpInsert (str "a") 1%Z] = Ok t ∧
    ∃ calls,
      Walk t (logged (λ _ _ (c : nat), (S c, false))) (0, [])
        = (visit (λ _ _ (c : nat), (S c, false)) calls 0, calls) ∧
      StronglySorted key_lt calls.*1.
Proof.
  destruct (Walk_ascending 0%Z [OpInsert (str "b") 2%Z; OpInsert (str "a") 1%Z])
    as (t & Hrun & Hwalk).
  exists t. split; [exact Hrun|].
  destruct (Hwalk nat (λ _ _ c, (S c, false)) 0) as (calls & Heq & Hs & _ & _).
  { intros k v st. reflexivity. }
  exists calls. split; [exact Heq|exact Hs].
Defined.

Lemma WalkPrefix_exact_witness :
  ∃ t : Tree,
    run 0%Z New [OpInsert (str "foo") 1%Z; OpInsert (str "bar") 2%Z] = Ok t ∧
    ∃ calls,
      WalkPrefix t (str "fo") (logged (λ _ _ (c : nat), (S c, false))) (0, [])
        = Ok (visit (λ _ _ (c : nat), (S c, false)) calls 0, calls) ∧
      ∀ k v, (k, v) ∈ calls → str "fo" `prefix_of` k.
Proof.
  destruct (WalkPrefix_exact 0%Z
              [OpInsert (str "foo") 1%Z; OpInsert (str "bar") 2%Z] (str "fo"))
    as (t & Hrun & Hwalk).
  exists t. split; [exact Hrun|].
  destruct (Hwalk nat (λ _ _ c, (S c, false)) 0) as (calls & Heq & _ & _ & Hin & _).
  { intros k v st. reflexivity. }
  exists calls. split; [exact Heq|].
  intros k v Hkv. by apply Hin in Hkv as [_ ?].
Defined.

Lemma LongestPrefix_longest_witness :
  ∃ t : Tree,
    run 0%Z New [OpInsert (str "foo") 1%Z; OpInsert (str "foobar") 2%Z] = Ok t ∧
    ∃ res, LongestPrefix 0%Z t (str "foobarbaz") = Ok res.
Proof.
  destruct (LongestPrefix_longest 0%Z
              [OpInsert (str "foo") 1%Z; OpInsert (str "foobar") 2%Z]
              (str "foobarbaz")) as (t & Hrun & res & Hres & _).
  exists t. split; [exact Hrun|]. by exists res.
Defined.

Lemma Len_counts_keys_witness :
  ∃ t : Tree,
    run 0%Z New [OpInsert (str "a") 1%Z; OpInsert (str "ab") 2%Z;
                 OpInsert (str "a") 3%Z; OpDelete (str "ab")] = Ok t ∧
    Len t = 1%Z.
Proof.
  destruct (Len_counts_keys 0%Z
              [OpInsert (str "a") 1%Z; OpInsert (str "ab") 2%Z;
               OpInsert (str "a") 3%Z; OpDelete (str "ab")])
    as (t & Hrun & Hlen & _).
  exists t. split; [exact Hrun|].
  vm_compute in Hrun. injection Hrun as <-. reflexivity.
Defined.

Lemma updateEdge_never_panics_witness :
  ∃ t : Tree,
    run 0%Z New [OpInsert (str "foo") 1%Z; OpInsert (str "fob") 2%Z] = Ok t ∧
    ∃ t', step 0%Z t (OpInsert (str "f") 3%Z) = Ok t'.
Proof.
  destruct (updateEdge_never_panics 0%Z) as [_ Hrun].
  destruct (Hrun [OpInsert (str "foo") 1%Z; OpInsert (str "fob") 2%Z])
    as (t & Ht & Hstep & _).
  exists t. split; [exact Ht|]. apply Hstep.
Defined.

Lemma Delete_absent_unchanged_witness :
  model [OpInsert (str "a") 1%Z; OpInsert (str "ab") 2%Z] !! str "b" = None ∧
  ∃ t : Tree,
    run 0%Z New [OpInsert (str "a") 1%Z; OpInsert (str "ab") 2%Z] = Ok t ∧
    Delete 0%Z t (str "b") = Ok (t, (0%Z, false)).
Proof.
  assert (model [OpInsert (str "a") 1%Z; OpInsert (str "ab") 2%Z] !! str "b" = None)
    as H by (vm_compute; reflexivity).
  split; [exact H|].
  apply (Delete_absent_unchanged 0%Z
           [OpInsert (str "a") 1%Z; OpInsert (str "ab") 2%Z] (str "b") H).
Defined.

Lemma getEdge_finds_exactly_witness :
  let n : @node Z :=
    Node None [] [("a"%char, Node None (str "a") []);
                  ("b"%char, Node None (str "b") [])] in
  sorted_edges (edges n) ∧
  getEdge n "b"%char = Some (Node None (str "b") []) ∧
  getEdge n "c"%char = None.
Proof.
  intros n.
  assert (sorted_edges (edges n)) as Hs
    by (apply sorted_edges_pair; vm_compute; reflexivity).
  destruct (getEdge_finds_exactly n "b"%char Hs) as [Hb _].
  destruct (getEdge_finds_exactly n "c"%char Hs) as [_ Hc].
  split; [exact Hs|]. split.
  - apply Hb. right. left.
  - apply Hc. vm_compute. intros H.
    repeat (apply elem_of_cons in H as [H|H]; [discriminate H|]).
    by apply elem_of_nil in H.
Defined.

Lemma addEdge_then_getEdge_witness :
  let n : @node Z :=
    Node None [] [("a"%char, Node None (str "a") []);
                  ("c"%char, Node None (str "c") [])] in
  let c : @node Z := Node None (str "b") [] in
  sorted_edges (edges n) ∧ ("b"%char ∉ (edges n).*1) ∧
  getEdge (addEdge n ("b"%char, c)) "b"%char = Some c ∧
  sorted_edges (edges (addEdge n ("b"%char, c))).
Proof.
  intros n c.
  assert (sorted_edges (edges n)) as Hs
    by (apply sorted_edges_pair; vm_compute; reflexivity).
  assert ("b"%char ∉ (edges n).*1) as Hni.
  { vm_compute. intros H.
    repeat (apply elem_of_cons in H as [H|H]; [discriminate H|]).
    by apply elem_of_nil in H. }
  destruct (addEdge_then_getEdge n "b"%char c Hs Hni) as (Hs' & _ & Hg & _).
  split; [exact Hs|]. split; [exact Hni|]. split; [exact Hg|exact Hs'].
Defined.

Lemma delEdge_then_getEdge_witness :
  let n : @node Z :=
    Node None [] [("a"%char, Node None (str "a") []);
                  ("b"%char, Node None (str "b") [])] in
  sorted_edges (edges n) ∧
  getEdge (delEdge n "a"%char) "a"%char = None ∧
  getEdge (delEdge n "a"%char) "b"%char = getEdge n "b"%char.
Proof.
  intros n.
  assert (sorted_edges (edges n)) as Hs
    by (apply sorted_edges_pair; vm_compute; reflexivity).
  destruct (delEdge_then_getEdge n "a"%char Hs) as (_ & Hg & Hother & _).
  split; [exact Hs|]. split; [exact Hg|]. apply Hother. discriminate.
Defined.

Lemma updateEdge_replaces_or_panics_witness :
  let n : @node Z :=
    Node None [] [("a"%char, Node None (str "a") []);
                  ("b"%char, Node None (str "b") [])] in
  let c : @node Z := Node None (str "ax") [] in
  sorted_edges (edges n) ∧
  (∃ n', updateEdge n "a"%char c = Ok n' ∧ getEdge n' "a"%char = Some c) ∧
  updateEdge n "z"%char c = Panic "replacing missing edge".
Proof.
  intros n c.
  assert (sorted_edges (edges n)) as Hs
    by (apply sorted_edges_pair; vm_compute; reflexivity).
  destruct (updateEdge_replaces_or_panics n "a"%char c Hs) as [Hin _].
  destruct (updateEdge_replaces_or_panics n "z"%char c Hs) as [_ Hout].
  split; [exact Hs|]. split.
  - destruct Hin as (n' & Hupd & _ & Hg & _); [vm_compute; left|].
    exists n'. split; [exact Hupd|exact Hg].
  - apply Hout. vm_compute. intros H.
    repeat (apply elem_of_cons in H as [H|H]; [discriminate H|]).
    by apply elem_of_nil in H.
Defined.

Lemma longestPrefix_longest_common_witness :
  take (longestPrefix (str "foobar") (str "fooqux")) (str "foobar")
  = take (longestPrefix (str "foobar") (str "fooqux")) (str "fooqux") ∧
  3 ≤ longestPrefix (str "foobar") (str "fooqux").
Proof.
  destruct (longestPrefix_longest_common (str "foobar") (str "fooqux"))
    as (Heq & _ & _ & Hmax & _).
  split; [exact Heq|]. apply Hmax; [simpl; lia|simpl; lia|reflexivity].
Defined.


Lemma Insert_result_witness :
  ∃ t t' : Tree,
    run 0%Z New [OpInsert (str "foo") 1%Z; OpInsert (str "fob") 2%Z] = Ok t ∧
    Insert 0%Z t (str "foo") 7%Z = Ok (t', (1%Z, true)) ∧
    Get 0%Z t' (str "fob") = Get 0%Z t (str "fob").
Proof.
  destruct (Insert_result 0%Z [OpInsert (str "foo") 1%Z; OpInsert (str "fob") 2%Z]
              (str "foo") 7%Z) as (t & t' & Hrun & Hins & _ & Hother & _).
  exists t, t'. split; [exact Hrun|]. split; [exact Hins|].
  apply Hother. discriminate.
Defined.

Lemma Delete_result_witness :
  ∃ t t' : Tree,
    run 0%Z New [OpInsert (str "foo") 1%Z; OpInsert (str "fob") 2%Z] = Ok t ∧
    Delete 0%Z t (str "foo") = Ok (t', (1%Z, true)) ∧
    Get 0%Z t' (str "foo") = Ok (0%Z, false) ∧
    Get 0%Z t' (str "fob") = Get 0%Z t (str "fob").
Proof.
  destruct (Delete_result 0%Z [OpInsert (str "foo") 1%Z; OpInsert (str "fob") 2%Z]
              (str "foo")) as (t & t' & Hrun & Hdel & Hget & Hother & _).
  exists t, t'. split; [exact Hrun|]. split; [exact Hdel|]. split; [exact Hget|].
  apply Hother. discriminate.
Defined.

Lemma Insert_then_Delete_witness :
  model [OpInsert (str "a") 1%Z; OpInsert (str "b") 2%Z;
         OpDeletePrefix (str "a")] !! str "ab" = None ∧
  ∃ t t1 t2 : Tree,
    run 0%Z New [OpInsert (str "a") 1%Z; OpInsert (str "b") 2%Z;
                 OpDeletePrefix (str "a")] = Ok t ∧
    Insert 0%Z t (str "ab") 3%Z = Ok (t1, (0%Z, false)) ∧
    Delete 0%Z t1 (str "ab") = Ok (t2, (3%Z, true)) ∧
    Len t2 = Len t.
Proof.
  assert (model [OpInsert (str "a") 1%Z; OpInsert (str "b") 2%Z;
                 OpDeletePrefix (str "a")] !! str "ab" = None) as H
    by (vm_compute; reflexivity).
  split; [exact H|].
  destruct (Insert_then_Delete 0%Z _ (str "ab") 3%Z H)
    as (t & t1 & t2 & Hrun & Hins & Hdel & _ & _ & _ & Hlen).
  exists t, t1, t2. split; [exact Hrun|]. split; [exact Hins|].
  split; [exact Hdel|exact Hlen].
Defined.

Lemma Insert_Delete_restore_tree_witness :
  no_DeletePrefix [OpInsert (str "foo") 1%Z; OpInsert (str "bar") 2%Z] ∧
  ∃ t t1 : Tree,
    run 0%Z New [OpInsert (str "foo") 1%Z; OpInsert (str "bar") 2%Z] = Ok t ∧
    Insert 0%Z t (str "fo") 3%Z = Ok (t1, (0%Z, false)) ∧
    Delete 0%Z t1 (str "fo") = Ok (t, (3%Z, true)).
Proof.
  assert (no_DeletePrefix [OpInsert (str "foo") 1%Z; OpInsert (str "bar") 2%Z])
    as Hno by (repeat constructor).
  split; [exact Hno|].
  destruct (Insert_Delete_restore_tree 0%Z _ (str "fo") Hno) as (t & Hrun & Habsent & _).
  assert (model [OpInsert (str "foo") 1%Z; OpInsert (str "bar") 2%Z] !! str "fo" = None)
    as Hk by (vm_compute; reflexivity).
  destruct (Habsent Hk 3%Z) as (t1 & Hins & Hdel).
  exists t, t1. split; [exact Hrun|]. split; [exact Hins|exact Hdel].
Defined.

Lemma same_contents_same_tree_witness :
  run 0%Z New [OpInsert (str "foo") 1%Z; OpInsert (str "fob") 2%Z]
  = run 0%Z New [OpInsert (str "fob") 2%Z; OpInsert (str "f") 3%Z;
                 OpInsert (str "foo") 1%Z; OpDelete (str "f")].
Proof.
  apply same_contents_same_tree.
  - repeat constructor.
  - repeat constructor.
  - vm_compute. reflexivity.
Defined.

Lemma Minimum_Maximum_without_DeletePrefix_witness :
  no_DeletePrefix [OpInsert (str "b") 2%Z; OpInsert (str "a") 1%Z;
                   OpDelete (str "b")] ∧
  ∃ t : Tree,
    run 0%Z New [OpInsert (str "b") 2%Z; OpInsert (str "a") 1%Z;
                 OpDelete (str "b")] = Ok t ∧
    inv4 t = true.
Proof.
  assert (no_DeletePrefix [OpInsert (str "b") 2%Z; OpInsert (str "a") 1%Z;
                           OpDelete (str "b")]) as Hno by (repeat constructor).
  split; [exact Hno|].
  destruct (Minimum_Maximum_without_DeletePrefix 0%Z _ Hno) as (t & Hrun & Hinv4 & _).
  exists t. split; [exact Hrun|exact Hinv4].
Defined.

Lemma Minimum_Maximum_sound_witness :
  ∃ (t : Tree) rmin rmax,
    run 0%Z New [OpInsert (str "a") 1%Z; OpInsert (str "b") 2%Z;
                 OpDeletePrefix (str "a")] = Ok t ∧
    Minimum 0%Z t = Ok rmin ∧ Maximum 0%Z t = Ok rmax.
Proof.
  destruct (Minimum_Maximum_sound 0%Z
              [OpInsert (str "a") 1%Z; OpInsert (str "b") 2%Z;
               OpDeletePrefix (str "a")])
    as (t & rmin & rmax & Hrun & Hmin & Hmax & _).
  exists t, rmin, rmax. split; [exact Hrun|]. split; [exact Hmin|exact Hmax].
Defined.

Lemma reachable_well_formed_witness :
  ∃ t : Tree,
    run 0%Z New [OpInsert (str "foo") 1%Z; OpInsert (str "fob") 2%Z;
                 OpDeletePrefix (str "foo")] = Ok t ∧
    wf [] (root t) ∧ (str "fob", 2%Z) ∈ leaves (root t).
Proof.
  destruct (reachable_well_formed 0%Z
              [OpInsert (str "foo") 1%Z; OpInsert (str "fob") 2%Z;
               OpDeletePrefix (str "foo")])
    as (t & Hrun & Hwf & _ & _ & _ & Hin & _).
  exists t. split; [exact Hrun|]. split; [exact Hwf|].
  apply Hin. vm_compute. reflexivity.
Defined.

Lemma Walk_stops_when_asked_witness :
  ∃ (t : Tree) entries,
    run 0%Z New [OpInsert (str "b") 2%Z; OpInsert (str "a") 1%Z] = Ok t ∧
    (str "a", 1%Z) ∈ entries ∧
    Walk t (λ k v log, (log ++ [(k, v)], true)) [] = up_to_first (λ _, true) entries.
Proof.
  destruct (Walk_stops_when_asked 0%Z [OpInsert (str "b") 2%Z; OpInsert (str "a") 1%Z])
    as (t & entries & Hrun & _ & Hin & _ & Hstop).
  exists t, entries. split; [exact Hrun|]. split.
  - apply Hin. vm_compute. reflexivity.
  - apply (Hstop (λ _, true)).
Defined.

Lemma WalkPrefix_stops_when_asked_witness :
  ∃ (t : Tree) entries,
    run 0%Z New [OpInsert (str "foo") 1%Z; OpInsert (str "bar") 2%Z] = Ok t ∧
    (str "foo", 1%Z) ∈ entries ∧
    WalkPrefix t (str "fo") (λ k v log, (log ++ [(k, v)], true)) []
    = Ok (up_to_first (λ _, true) entries).
Proof.
  destruct (WalkPrefix_stops_when_asked 0%Z
              [OpInsert (str "foo") 1%Z; OpInsert (str "bar") 2%Z] (str "fo"))
    as (t & entries & Hrun & _ & Hin & _ & Hstop).
  exists t, entries. split; [exact Hrun|]. split.
  - apply Hin. split; [vm_compute; reflexivity|]. by exists (str "o").
  - apply (Hstop (λ _, true)).
Defined.

Lemma WalkPath_visits_prefixes_witness :
  ∃ (t : Tree) entries,
    run 0%Z New [OpInsert (str "foo") 1%Z; OpInsert (str "f") 2%Z] = Ok t ∧
    (str "f", 2%Z) ∈ entries ∧
    WalkPath t (str "foobar") (λ k v log, (log ++ [(k, v)], true)) []
    = Ok (up_to_first (λ _, true) entries).
Proof.
  destruct (WalkPath_visits_prefixes 0%Z
              [OpInsert (str "foo") 1%Z; OpInsert (str "f") 2%Z] (str "foobar"))
    as (t & entries & Hrun & _ & Hin & _ & Hstop).
  exists t, entries. split; [exact Hrun|]. split.
  - apply Hin. split; [vm_compute; reflexivity|]. by exists (str "oobar").
  - apply (Hstop (λ _, true)).
Defined.

Lemma NewFromMap_round_trip_witness :
  let m : gmap (list ascii) Z := {[ str "foo" := 1%Z; str "fob" := 2%Z ]} in
  map_to_list m ≡ₚ map_to_list m ∧
  ∃ t : Tree, NewFromMap 0%Z (map_to_list m) = Ok t ∧ ToMap t = m.
Proof.
  intros m.
  assert (map_to_list m ≡ₚ map_to_list m) as H by reflexivity.
  split; [exact H|].
  destruct (NewFromMap_round_trip 0%Z m (map_to_list m) H) as (t & Hnew & Hmap & _).
  exists t. split; [exact Hnew|exact Hmap].
Defined.

Lemma NewFromMap_order_irrelevant_witness :
  let m : gmap (list ascii) Z := {[ str "foo" := 1%Z; str "fob" := 2%Z ]} in
  NewFromMap 0%Z (map_to_list m) = NewFromMap 0%Z (reverse (map_to_list m)).
Proof.
  intros m. apply (NewFromMap_order_irrelevant 0%Z m).
  - reflexivity.
  - apply reverse_Permutation.
Defined.

Lemma nodes_at_most_twice_keys_witness :
  no_DeletePrefix [OpInsert (str "foo") 1%Z; OpInsert (str "fob") 2%Z;
                   OpDelete (str "foo")] ∧
  ∃ t : Tree,
    run 0%Z New [OpInsert (str "foo") 1%Z; OpInsert (str "fob") 2%Z;
                 OpDelete (str "foo")] = Ok t ∧
    (Z.of_nat (nodes (root t)) ≤ 2 * Len t + 1)%Z.
Proof.
  assert (no_DeletePrefix [OpInsert (str "foo") 1%Z; OpInsert (str "fob") 2%Z;
                           OpDelete (str "foo")]) as Hno by (repeat constructor).
  split; [exact Hno|].
  apply (nodes_at_most_twice_keys 0%Z _ Hno).
Defined.

End Radix.
